(** * ORTC utilities of lib-jitsi-meet: SDP extraction and capability negotiation

    A shallow embedding of [modules/RTC/ortc/utils.js] and the properties of
    its extraction functions ([extractCapabilities], [extractDtlsParameters],
    [extractIceCandidates], [extractIceParameters], [extractMids],
    [extractTrackInfos]) and of the negotiation [getLocalCapabilities]. *)

From Stdlib Require Import ZArith List String Ascii Bool Lia Permutation.
Import ListNotations.
Local Open Scope string_scope.
Local Open Scope list_scope.
Local Open Scope Z_scope.

(** ** JavaScript values used by the module *)

(** A dynamically typed field: a number or a string (codec parameter values
    as produced by sdp-transform, the payload of an [a=rtcp-fb] line, which is
    a number or ["*"]). *)
Inductive jsval : Type :=
| VNum (z : Z)
| VStr (s : string).

(** The result of [Number(str)] on an SSRC token: an integer or NaN.  Keys of
    a JS [Map]/[Set] are compared with SameValueZero, under which NaN equals
    itself, so Leibniz equality on [jsnum] is the key equality. *)
Inductive jsnum : Type :=
| JNum (z : Z)
| JNaN.

(** Types whose equality the code tests ([===], Map/Set key lookup). *)
Class EqDec (K : Type) := eq_dec : forall x y : K, {x = y} + {x <> y}.

#[export] Instance Z_EqDec : EqDec Z := Z.eq_dec.
#[export] Instance string_EqDec : EqDec string := string_dec.

#[export] Instance jsval_EqDec : EqDec jsval.
Proof.
  intros x y; unfold EqDec in *; decide equality; [apply Z.eq_dec | apply string_dec].
Defined.

#[export] Instance jsnum_EqDec : EqDec jsnum.
Proof.
  intros x y; decide equality; apply Z.eq_dec.
Defined.

#[export] Instance option_EqDec {A : Type} `{EqDec A} : EqDec (option A).
Proof.
  intros x y; decide equality; apply eq_dec.
Defined.

(** [a === b] on values of one of the types above. *)
Definition strictEq {K : Type} `{EqDec K} (a b : K) : bool :=
  if eq_dec a b then true else false.

(** ** [Map] and [Set]: insertion-ordered containers *)

Module JsMap.
Section Defs.
Context {K V : Type} `{EqDec K}.

(** Entries in insertion order; keys are pairwise distinct. *)
Definition t : Type := list (K * V).

Definition empty : t := [].

(** [m.get(k)]; [None] is [undefined]. *)
Fixpoint get (m : t) (k : K) : option V :=
match m with
| [] => None
| (k', v) :: m' => if eq_dec k k' then Some v else get m' k
end.

(** [m.has(k)]. *)
Definition has (m : t) (k : K) : bool :=
match get m k with Some _ => true | None => false end.

(** [m.set(k, v)]: an existing key keeps its position and takes the new
  value, a new key goes to the end. *)
Fixpoint set (m : t) (k : K) (v : V) : t :=
match m with
| [] => [(k, v)]
| (k', v') :: m' =>
    if eq_dec k k' then (k, v) :: m' else (k', v') :: set m' k v
end.

Definition keys (m : t) : list K := map fst m.

(** [Array.from(m.values())]. *)
Definition values (m : t) : list V := map snd m.
End Defs.
Arguments t : clear implicits.
End JsMap.

Module JsSet.
Section Defs.
Context {K : Type} `{EqDec K}.

Definition t : Type := list K.

Definition empty : t := [].

Fixpoint has (s : t) (k : K) : bool :=
match s with
| [] => false
| k' :: s' => if eq_dec k k' then true else has s' k
end.

Definition add (s : t) (k : K) : t := if has s k then s else s ++ [k].
End Defs.
Arguments t : clear implicits.
End JsSet.

(** ** Strings *)

Module JsString.
(** [toLowerCase] on the ASCII letters (codec names and transport names are
    ASCII tokens in a session description). *)
Definition lowerAscii (c : ascii) : ascii :=
  let n := nat_of_ascii c in
  if (Nat.leb 65 n && Nat.leb n 90)%bool then ascii_of_nat (n + 32) else c.

Fixpoint toLowerCase (s : string) : string :=
  match s with
  | EmptyString => EmptyString
  | String c s' => String (lowerAscii c) (toLowerCase s')
  end.

(** [s.split(sep)] for a one-character separator: never empty, and two
    adjacent separators give an empty token. *)
Fixpoint split (sep : ascii) (s : string) : list string :=
  match s with
  | EmptyString => [EmptyString]
  | String c s' =>
      if Ascii.eqb c sep then EmptyString :: split sep s'
      else match split sep s' with
           | [] => [String c EmptyString]
           | w :: ws => String c w :: ws
           end
  end.
End JsString.

(** A plain object used as a string-keyed dictionary (codec parameters).
    Property order is not observed by the code beyond iteration. *)
Definition Params : Type := JsMap.t string jsval.

(** ** Exceptions *)

(** The only exception the module can raise: dereferencing [undefined]. *)
Inductive exn : Type := TypeError.

Inductive result (A : Type) : Type :=
| Return (a : A)
| Throw (e : exn).
Arguments Return {A} a.
Arguments Throw {A} e.

Definition bind {A B : Type} (r : result A) (k : A -> result B) : result B :=
  match r with
  | Return a => k a
  | Throw e => Throw e
  end.

Notation "x <- r ;; k" := (bind r (fun x => k))
  (at level 61, r at next level, right associativity).

(** Property access on a value that may be [undefined]. *)
Definition deref {A : Type} (o : option A) : result A :=
  match o with
  | Some a => Return a
  | None => Throw TypeError
  end.

(** [o || []] for an optional array. *)
Definition orEmpty {A : Type} (o : option (list A)) : list A :=
  match o with
  | Some l => l
  | None => []
  end.

(** ** The parsed session description (output of sdp-transform) *)

Module Rtp.
(** One [a=rtpmap] line. *)
Record t : Type := mk {
  payload : Z;
  codec : string;
  rate : Z;
  encoding : option Z
}.
End Rtp.

Module Fmtp.
Record t : Type := mk {
  payload : Z;
  config : string
}.
End Fmtp.

Module RtcpFb.
Record t : Type := mk {
  payload : jsval;
  type : string;
  subtype : option string
}.
End RtcpFb.

Module Ext.
Record t : Type := mk {
  value : Z;
  uri : string
}.
End Ext.

Module SsrcGroup.
Record t : Type := mk {
  semantics : string;
  ssrcs : string
}.
End SsrcGroup.

Module Ssrc.
(** One [a=ssrc:<id> <attribute>:<value>] line. *)
Record t : Type := mk {
  id : Z;
  attribute : string;
  value : string
}.
End Ssrc.

Module Candidate.
Record t : Type := mk {
  foundation : string;
  component : Z;
  transport : string;
  priority : Z;
  ip : string;
  port : Z;
  type : string
}.
End Candidate.

Module Fingerprint.
Record t : Type := mk {
  type : string;
  hash : string
}.
End Fingerprint.

Module Media.
(** One media section.  Optional attributes are absent ([None]) when the
    section has no such line. *)
Record t : Type := mk {
  type : string;
  port : Z;
  mid : option string;
  iceUfrag : option string;
  icePwd : option string;
  setup : option string;
  fingerprint : option Fingerprint.t;
  rtp : list Rtp.t;
  fmtp : option (list Fmtp.t);
  rtcpFb : option (list RtcpFb.t);
  ext : option (list Ext.t);
  ssrcGroups : option (list SsrcGroup.t);
  ssrcs : option (list Ssrc.t);
  candidates : option (list Candidate.t)
}.
End Media.

Module Sdp.
Record t : Type := mk {
  media : list Media.t;
  fingerprint : option Fingerprint.t;
  icelite : option string
}.
End Sdp.

(** ** The ORTC records produced by the module *)

Module RtcpFeedback.
Record t : Type := mk {
  parameter : string;
  type : string
}.
End RtcpFeedback.

Module Codec.
Record t : Type := mk {
  clockRate : Z;
  kind : string;
  mimeType : string;
  name : string;
  numChannels : option Z;
  parameters : Params;
  preferredPayloadType : Z;
  rtcpFeedback : list RtcpFeedback.t
}.

(** [codec.parameters = p] *)
Definition withParameters (c : t) (p : Params) : t :=
  mk (clockRate c) (kind c) (mimeType c) (name c) (numChannels c) p
     (preferredPayloadType c) (rtcpFeedback c).

(** [codec.rtcpFeedback.push(fb)] *)
Definition pushFeedback (c : t) (fb : RtcpFeedback.t) : t :=
  mk (clockRate c) (kind c) (mimeType c) (name c) (numChannels c)
     (parameters c) (preferredPayloadType c) (rtcpFeedback c ++ [fb]).
End Codec.

Module HeaderExtension.
Record t : Type := mk {
  kind : string;
  uri : string;
  preferredId : Z;
  preferredEncrypt : option bool
}.
End HeaderExtension.

Module RtpCapabilities.
Record t : Type := mk {
  codecs : list Codec.t;
  fecMechanisms : list string;
  headerExtensions : list HeaderExtension.t
}.
End RtpCapabilities.

Module DtlsFingerprint.
Record t : Type := mk {
  algorithm : string;
  value : string
}.
End DtlsFingerprint.

Module DtlsParameters.
(** [role] is [None] when the property is [undefined]. *)
Record t : Type := mk {
  role : option string;
  fingerprints : list DtlsFingerprint.t
}.
End DtlsParameters.

Module IceCandidate.
Record t : Type := mk {
  foundation : string;
  ip : string;
  port : Z;
  priority : Z;
  protocol : string;
  type : string
}.
End IceCandidate.

Module IceParameters.
Record t : Type := mk {
  icelite : bool;
  password : option string;
  usernameFragment : option string
}.
End IceParameters.

Module TrackInfo.
Record t : Type := mk {
  kind : string;
  rtxSsrc : option jsnum;
  ssrc : Z;
  cname : option string;
  streamId : option string;
  trackId : option string
}.

Definition withCname (i : t) (v : option string) : t :=
  mk (kind i) (rtxSsrc i) (ssrc i) v (streamId i) (trackId i).

Definition withStreamId (i : t) (v : option string) : t :=
  mk (kind i) (rtxSsrc i) (ssrc i) (cname i) v (trackId i).

Definition withTrackId (i : t) (v : option string) : t :=
  mk (kind i) (rtxSsrc i) (ssrc i) (cname i) (streamId i) v.
End TrackInfo.

(** [kind !== 'audio' && kind !== 'video'], negated. *)
Definition isAudioOrVideo (kind : string) : bool :=
  (String.eqb kind "audio" || String.eqb kind "video")%bool.

(** [x || 1] for an optional channel count: [undefined] and [0] are falsy. *)
Definition orOne (o : option Z) : Z :=
  match o with
  | Some 0 => 1
  | Some n => n
  | None => 1
  end.

(** ** Extraction from a remote description *)

Section Extraction.
(** [sdpTransform.parseFmtpConfig] and the built-in [Number] conversion are
    supplied from outside; nothing is assumed about them. *)
Variable parseFmtpConfig : string -> Params.
Variable Number : string -> jsnum.

(** *** [extractCapabilities] *)

(** Body of the loop [for (const rtp of m.rtp)]. *)
Definition registerCodec (kind : string) (codecsMap : JsMap.t Z Codec.t)
    (rtp : Rtp.t) : JsMap.t Z Codec.t :=
  let codec :=
    {| Codec.clockRate := Rtp.rate rtp;
       Codec.kind := kind;
       Codec.mimeType := (kind ++ "/" ++ Rtp.codec rtp)%string;
       Codec.name := Rtp.codec rtp;
       Codec.numChannels := Some (orOne (Rtp.encoding rtp));
       Codec.parameters := JsMap.empty;
       Codec.preferredPayloadType := Rtp.payload rtp;
       Codec.rtcpFeedback := [] |} in
  JsMap.set codecsMap (Codec.preferredPayloadType codec) codec.

(** Body of the loop [for (const fmtp of m.fmtp || [])].  The codec object
    held by the map is updated in place. *)
Definition attachParameters (codecsMap : JsMap.t Z Codec.t)
    (fmtp : Fmtp.t) : JsMap.t Z Codec.t :=
  let parameters := parseFmtpConfig (Fmtp.config fmtp) in
  match JsMap.get codecsMap (Fmtp.payload fmtp) with
  | None => codecsMap
  | Some codec =>
      JsMap.set codecsMap (Fmtp.payload fmtp)
        (Codec.withParameters codec parameters)
  end.

(** [codecsMap.get(fb.payload)]: the keys are numbers, so a string payload
    (the wildcard ["*"]) finds nothing. *)
Definition getByPayload (codecsMap : JsMap.t Z Codec.t) (payload : jsval)
    : option (Z * Codec.t) :=
  match payload with
  | VNum p =>
      match JsMap.get codecsMap p with
      | Some codec => Some (p, codec)
      | None => None
      end
  | VStr _ => None
  end.

(** Body of the loop [for (const fb of m.rtcpFb || [])]. *)
Definition attachFeedback (codecsMap : JsMap.t Z Codec.t)
    (fb : RtcpFb.t) : JsMap.t Z Codec.t :=
  match getByPayload codecsMap (RtcpFb.payload fb) with
  | None => codecsMap
  | Some (p, codec) =>
      JsMap.set codecsMap p
        (Codec.pushFeedback codec
           {| RtcpFeedback.parameter :=
                match RtcpFb.subtype fb with
                | Some s => s
                | None => EmptyString
                end;
              RtcpFeedback.type := RtcpFb.type fb |})
  end.

(** The predicate given to [headerExtensions.find]. *)
Definition sameExtension (kind uri : string) (saved : HeaderExtension.t)
    : bool :=
  (strictEq kind (HeaderExtension.kind saved)
   && strictEq uri (HeaderExtension.uri saved))%bool.

(** Body of the loop [for (const ext of m.ext || [])]. *)
Definition addHeaderExtension (kind : string)
    (headerExtensions : list HeaderExtension.t) (ext : Ext.t)
    : list HeaderExtension.t :=
  let preferredId := Ext.value ext in
  let uri := Ext.uri ext in
  let headerExtension :=
    {| HeaderExtension.kind := kind;
       HeaderExtension.uri := uri;
       HeaderExtension.preferredId := preferredId;
       HeaderExtension.preferredEncrypt := None |} in
  match find (sameExtension kind uri) headerExtensions with
  | Some _ => headerExtensions
  | None => headerExtensions ++ [headerExtension]
  end.

(** Body of the loop [for (const m of sdpObject.media)], on the pair of
    [codecsMap] and [headerExtensions]. *)
Definition capabilitiesStep
    (st : JsMap.t Z Codec.t * list HeaderExtension.t) (m : Media.t)
    : JsMap.t Z Codec.t * list HeaderExtension.t :=
  let kind := Media.type m in
  if negb (isAudioOrVideo kind) then st
  else
    let codecsMap := fold_left (registerCodec kind) (Media.rtp m) (fst st) in
    let codecsMap :=
      fold_left attachParameters (orEmpty (Media.fmtp m)) codecsMap in
    let codecsMap :=
      fold_left attachFeedback (orEmpty (Media.rtcpFb m)) codecsMap in
    let headerExtensions :=
      fold_left (addHeaderExtension kind) (orEmpty (Media.ext m)) (snd st) in
    (codecsMap, headerExtensions).

(** The two accumulators after the sections [media]. *)
Definition capabilitiesState (media : list Media.t)
    : JsMap.t Z Codec.t * list HeaderExtension.t :=
  fold_left capabilitiesStep media (JsMap.empty, []).

Definition extractCapabilities (sdpObject : Sdp.t) : RtpCapabilities.t :=
  let st := capabilitiesState (Sdp.media sdpObject) in
  {| RtpCapabilities.codecs := JsMap.values (fst st);
     RtpCapabilities.fecMechanisms := [];
     RtpCapabilities.headerExtensions := snd st |}.

(** *** The first active media section *)

(** [m.iceUfrag && m.port !== 0]: a missing or empty fragment is falsy. *)
Definition isActive (m : Media.t) : bool :=
  match Media.iceUfrag m with
  | None => false
  | Some EmptyString => false
  | Some _ => negb (Media.port m =? 0)
  end.

Definition getFirstActiveMediaSection (sdpObject : Sdp.t)
    : option Media.t :=
  find isActive (Sdp.media sdpObject).

(** *** [extractDtlsParameters] *)

(** The [switch (media.setup)], which has no default case. *)
Definition roleOfSetup (setup : option string) : option string :=
  match setup with
  | None => None
  | Some s =>
      if String.eqb s "active" then Some "client"
      else if String.eqb s "passive" then Some "server"
      else if String.eqb s "actpass" then Some "auto"
      else None
  end.

Definition extractDtlsParameters (sdpObject : Sdp.t)
    : result DtlsParameters.t :=
  media <- deref (getFirstActiveMediaSection sdpObject) ;;
  let fingerprint :=
    match Media.fingerprint media with
    | Some f => Some f
    | None => Sdp.fingerprint sdpObject
    end in
  let role := roleOfSetup (Media.setup media) in
  fingerprint <- deref fingerprint ;;
  Return
    {| DtlsParameters.role := role;
       DtlsParameters.fingerprints :=
         [ {| DtlsFingerprint.algorithm := Fingerprint.type fingerprint;
              DtlsFingerprint.value := Fingerprint.hash fingerprint |} ] |}.

(** *** [extractIceCandidates] *)

Definition candidateStep (candidates : list IceCandidate.t)
    (c : Candidate.t) : list IceCandidate.t :=
  if negb (Candidate.component c =? 1) then candidates
  else
    candidates ++
    [ {| IceCandidate.foundation := Candidate.foundation c;
         IceCandidate.ip := Candidate.ip c;
         IceCandidate.port := Candidate.port c;
         IceCandidate.priority := Candidate.priority c;
         IceCandidate.protocol :=
           JsString.toLowerCase (Candidate.transport c);
         IceCandidate.type := Candidate.type c |} ].

Definition extractIceCandidates (sdpObject : Sdp.t)
    : result (list IceCandidate.t) :=
  media <- deref (getFirstActiveMediaSection sdpObject) ;;
  cs <- deref (Media.candidates media) ;;
  Return (fold_left candidateStep cs []).

(** *** [extractIceParameters] *)

Definition extractIceParameters (sdpObject : Sdp.t)
    : result IceParameters.t :=
  media <- deref (getFirstActiveMediaSection sdpObject) ;;
  let usernameFragment := Media.iceUfrag media in
  let password := Media.icePwd media in
  let icelite := strictEq (Sdp.icelite sdpObject) (Some "ice-lite") in
  Return
    {| IceParameters.icelite := icelite;
       IceParameters.password := password;
       IceParameters.usernameFragment := usernameFragment |}.

(** *** [extractMids] *)

Definition extractMids (sdpObject : Sdp.t)
    : JsMap.t (option string) string :=
  fold_left (fun midToKind m => JsMap.set midToKind (Media.mid m) (Media.type m))
    (Sdp.media sdpObject) JsMap.empty.

(** *** [extractTrackInfos] *)

(** The three accumulators of [extractTrackInfos].  The SSRCs of a group
    come from [Number], element [1] may be missing ([undefined]). *)
Record TrackState : Type := mkTrackState {
  infos : JsMap.t Z TrackInfo.t;
  rtxMap : JsMap.t (option jsnum) (option jsnum);
  rtxSet : JsSet.t (option jsnum)
}.

(** Body of the loop [for (const ssrcGroup of m.ssrcGroups || [])]. *)
Definition ssrcGroupStep (st : TrackState) (ssrcGroup : SsrcGroup.t)
    : TrackState :=
  if negb (String.eqb (SsrcGroup.semantics ssrcGroup) "FID") then st
  else
    let ssrcs :=
      map Number (JsString.split " " (SsrcGroup.ssrcs ssrcGroup)) in
    let ssrc := nth_error ssrcs 0 in
    let rtxSsrc := nth_error ssrcs 1 in
    {| infos := infos st;
       rtxMap := JsMap.set (rtxMap st) ssrc rtxSsrc;
       rtxSet := JsSet.add (rtxSet st) rtxSsrc |}.

(** [rtxMap.get(ssrc)] for a numeric [ssrc]. *)
Definition rtxOf (m : JsMap.t (option jsnum) (option jsnum)) (ssrc : Z)
    : option jsnum :=
  match JsMap.get m (Some (JNum ssrc)) with
  | Some v => v
  | None => None
  end.

(** The [switch (ssrcObject.attribute)]. *)
Definition applyAttribute (info : TrackInfo.t) (ssrcObject : Ssrc.t)
    : TrackInfo.t :=
  let attribute := Ssrc.attribute ssrcObject in
  let value := Ssrc.value ssrcObject in
  if String.eqb attribute "cname" then TrackInfo.withCname info (Some value)
  else if String.eqb attribute "msid" then
    let values := JsString.split " " value in
    let streamId := nth_error values 0 in
    let trackId := nth_error values 1 in
    TrackInfo.withTrackId (TrackInfo.withStreamId info streamId) trackId
  else if String.eqb attribute "mslabel" then
    TrackInfo.withStreamId info (Some value)
  else if String.eqb attribute "label" then
    TrackInfo.withTrackId info (Some value)
  else info.

(** Body of the loop [for (const ssrcObject of m.ssrcs || [])]. *)
Definition ssrcStep (kind : string) (st : TrackState) (ssrcObject : Ssrc.t)
    : TrackState :=
  let ssrc := Ssrc.id ssrcObject in
  if JsSet.has (rtxSet st) (Some (JNum ssrc)) then st
  else
    let '(info, infos1) :=
      match JsMap.get (infos st) ssrc with
      | Some info => (info, infos st)
      | None =>
          let info :=
            {| TrackInfo.kind := kind;
               TrackInfo.rtxSsrc := rtxOf (rtxMap st) ssrc;
               TrackInfo.ssrc := ssrc;
               TrackInfo.cname := None;
               TrackInfo.streamId := None;
               TrackInfo.trackId := None |} in
          (info, JsMap.set (infos st) ssrc info)
      end in
    {| infos := JsMap.set infos1 ssrc (applyAttribute info ssrcObject);
       rtxMap := rtxMap st;
       rtxSet := rtxSet st |}.

(** Body of the loop [for (const m of sdpObject.media)]. *)
Definition trackStep (st : TrackState) (m : Media.t) : TrackState :=
  let kind := Media.type m in
  if negb (isAudioOrVideo kind) then st
  else
    let st := fold_left ssrcGroupStep (orEmpty (Media.ssrcGroups m)) st in
    fold_left (ssrcStep kind) (orEmpty (Media.ssrcs m)) st.

Definition trackState (media : list Media.t) : TrackState :=
  fold_left trackStep media
    {| infos := JsMap.empty; rtxMap := JsMap.empty; rtxSet := JsSet.empty |}.

Definition extractTrackInfos (sdpObject : Sdp.t) : JsMap.t Z TrackInfo.t :=
  infos (trackState (Sdp.media sdpObject)).
End Extraction.

(** ** Negotiation: [getLocalCapabilities] *)

(** The predicate given to [localFullCapabilities.codecs.find]. *)
Definition matchesRemote (remoteCodecName : string) (remoteCodec : Codec.t)
    (codec : Codec.t) : bool :=
  (strictEq (JsString.toLowerCase (Codec.name codec)) remoteCodecName
   && strictEq (Codec.kind codec) (Codec.kind remoteCodec)
   && strictEq (Codec.clockRate codec) (Codec.clockRate remoteCodec))%bool.

(** The inner loop over [Object.keys(localCodec.parameters)], leaving at the
    [break]. *)
Fixpoint matchLocalParam (localParams : list (string * jsval))
    (remoteParamName : string) (remoteParamValue : jsval)
    (parameters : Params) : Params :=
  match localParams with
  | [] => parameters
  | (localParamName, localParamValue) :: rest =>
      if negb (strictEq localParamName remoteParamName) then
        matchLocalParam rest remoteParamName remoteParamValue parameters
      else if strictEq localParamValue remoteParamValue then
        JsMap.set parameters localParamName localParamValue
      else matchLocalParam rest remoteParamName remoteParamValue parameters
  end.

(** The outer loop over [Object.keys(remoteCodec.parameters)]. *)
Definition intersectParameters (localCodec remoteCodec : Codec.t) : Params :=
  fold_left
    (fun parameters (remoteParam : string * jsval) =>
       matchLocalParam (Codec.parameters localCodec)
         (fst remoteParam) (snd remoteParam) parameters)
    (Codec.parameters remoteCodec) JsMap.empty.

(** The predicate given to [localCodec.rtcpFeedback.find]. *)
Definition sameFeedback (remoteFb fb : RtcpFeedback.t) : bool :=
  (strictEq (RtcpFeedback.type fb) (RtcpFeedback.type remoteFb)
   && strictEq (RtcpFeedback.parameter fb) (RtcpFeedback.parameter remoteFb))%bool.

(** Body of the loop [for (const remoteFb of remoteCodec.rtcpFeedback)]. *)
Definition feedbackStep (localCodec : Codec.t)
    (rtcpFeedback : list RtcpFeedback.t) (remoteFb : RtcpFeedback.t)
    : list RtcpFeedback.t :=
  match find (sameFeedback remoteFb) (Codec.rtcpFeedback localCodec) with
  | Some localFb => rtcpFeedback ++ [localFb]
  | None => rtcpFeedback
  end.

Definition intersectFeedback (localCodec remoteCodec : Codec.t)
    : list RtcpFeedback.t :=
  fold_left (feedbackStep localCodec) (Codec.rtcpFeedback remoteCodec) [].

(** The codec pushed for a remote codec and the local codec found for it. *)
Definition negotiateCodec (localCodec remoteCodec : Codec.t) : Codec.t :=
  {| Codec.clockRate := Codec.clockRate localCodec;
     Codec.kind := Codec.kind localCodec;
     Codec.mimeType :=
       (Codec.kind localCodec ++ "/" ++ Codec.name localCodec)%string;
     Codec.name := Codec.name localCodec;
     Codec.numChannels := Some (orOne (Codec.numChannels localCodec));
     Codec.parameters := intersectParameters localCodec remoteCodec;
     Codec.preferredPayloadType := Codec.preferredPayloadType remoteCodec;
     Codec.rtcpFeedback := intersectFeedback localCodec remoteCodec |}.

(** [remoteRtxMap]: the key is [remoteCodec.parameters.apt], which is
    [undefined] ([None]) when the RTX codec has no such parameter. *)
Definition RtxMap : Type := JsMap.t (option jsval) Z.

(** [localFullCapabilities.codecs.find(...)] for one remote codec. *)
Definition findLocalCodec (localFullCapabilities : RtpCapabilities.t)
    (remoteCodec : Codec.t) : option Codec.t :=
  find (matchesRemote (JsString.toLowerCase (Codec.name remoteCodec)) remoteCodec)
    (RtpCapabilities.codecs localFullCapabilities).

(** Body of the loop [for (const remoteCodec of filterWithCapabilities.codecs)],
    on the pair of [localCapabilities.codecs] and [remoteRtxMap]. *)
Definition codecStep (localFullCapabilities : RtpCapabilities.t)
    (st : list Codec.t * RtxMap) (remoteCodec : Codec.t)
    : list Codec.t * RtxMap :=
  let remoteCodecName := JsString.toLowerCase (Codec.name remoteCodec) in
  if strictEq remoteCodecName "rtx" then
    (fst st,
     JsMap.set (snd st) (JsMap.get (Codec.parameters remoteCodec) "apt")
       (Codec.preferredPayloadType remoteCodec))
  else
    match findLocalCodec localFullCapabilities remoteCodec with
    | None => st
    | Some localCodec => (fst st ++ [negotiateCodec localCodec remoteCodec], snd st)
    end.

(** The state after the first loop. *)
Definition negotiateCodecs (localFullCapabilities : RtpCapabilities.t)
    (remoteCodecs : list Codec.t) : list Codec.t * RtxMap :=
  fold_left (codecStep localFullCapabilities) remoteCodecs ([], JsMap.empty).

(** The RTX codec built for [codec], when [remoteRtxMap.has(payloadType)]. *)
Definition rtxCodecFor (remoteRtxMap : RtxMap) (codec : Codec.t)
    : option Codec.t :=
  let payloadType := Codec.preferredPayloadType codec in
  match JsMap.get remoteRtxMap (Some (VNum payloadType)) with
  | None => None
  | Some rtxPayloadType =>
      Some
        {| Codec.clockRate := Codec.clockRate codec;
           Codec.kind := Codec.kind codec;
           Codec.mimeType := (Codec.kind codec ++ "/rtx")%string;
           Codec.name := "rtx";
           Codec.numChannels := None;
           Codec.parameters := [("apt", VNum payloadType)];
           Codec.preferredPayloadType := rtxPayloadType;
           Codec.rtcpFeedback := [] |}
  end.

(** The loop [for (const codec of localCapabilities.codecs)] whose body pushes
    onto the array it iterates: the array iterator reads the length at each
    step, so the pushed entries are visited too.  [i] is the iterator's
    index; the loop may not terminate, [fuel] bounds the number of steps and
    [None] means it ran out. *)
Fixpoint addRtxCodecs (fuel : nat) (remoteRtxMap : RtxMap) (i : nat)
    (codecs : list Codec.t) : option (list Codec.t) :=
  match fuel with
  | O => None
  | S fuel' =>
      match nth_error codecs i with
      | None => Some codecs
      | Some codec =>
          match rtxCodecFor remoteRtxMap codec with
          | None => addRtxCodecs fuel' remoteRtxMap (S i) codecs
          | Some rtxCodec =>
              addRtxCodecs fuel' remoteRtxMap (S i) (codecs ++ [rtxCodec])
          end
      end
  end.

(** [Boolean(x)] for an optional boolean. *)
Definition toBoolean (o : option bool) : bool :=
  match o with
  | Some b => b
  | None => false
  end.

(** Body of the loop over [filterWithCapabilities.headerExtensions]. *)
Definition extensionStep (localFullCapabilities : RtpCapabilities.t)
    (headerExtensions : list HeaderExtension.t)
    (remoteExtension : HeaderExtension.t) : list HeaderExtension.t :=
  match
    find
      (fun extension =>
         (strictEq (HeaderExtension.kind extension)
            (HeaderExtension.kind remoteExtension)
          && strictEq (HeaderExtension.uri extension)
               (HeaderExtension.uri remoteExtension))%bool)
      (RtpCapabilities.headerExtensions localFullCapabilities)
  with
  | Some localExtension =>
      headerExtensions ++
      [ {| HeaderExtension.kind := HeaderExtension.kind localExtension;
           HeaderExtension.uri := HeaderExtension.uri localExtension;
           HeaderExtension.preferredId :=
             HeaderExtension.preferredId remoteExtension;
           HeaderExtension.preferredEncrypt :=
             Some (toBoolean (HeaderExtension.preferredEncrypt remoteExtension)) |} ]
  | None => headerExtensions
  end.

(** Body of the loop over [filterWithCapabilities.fecMechanisms]; the empty
    string is falsy, so it is never pushed. *)
Definition fecStep (localFullCapabilities : RtpCapabilities.t)
    (fecMechanisms : list string) (remoteFecMechanism : string) : list string :=
  match
    find (fun fec => strictEq fec remoteFecMechanism)
      (RtpCapabilities.fecMechanisms localFullCapabilities)
  with
  | Some localFecMechanism =>
      if strictEq localFecMechanism EmptyString then fecMechanisms
      else fecMechanisms ++ [localFecMechanism]
  | None => fecMechanisms
  end.

(** [getLocalCapabilities(filterWithCapabilities)], with the result of
    [RTCRtpReceiver.getCapabilities()] as [localFullCapabilities]. *)
Definition getLocalCapabilities (fuel : nat)
    (localFullCapabilities filterWithCapabilities : RtpCapabilities.t)
    : option RtpCapabilities.t :=
  let st :=
    negotiateCodecs localFullCapabilities
      (RtpCapabilities.codecs filterWithCapabilities) in
  match addRtxCodecs fuel (snd st) 0 (fst st) with
  | None => None
  | Some codecs =>
      Some
        {| RtpCapabilities.codecs := codecs;
           RtpCapabilities.fecMechanisms :=
             fold_left (fecStep localFullCapabilities)
               (RtpCapabilities.fecMechanisms filterWithCapabilities) [];
           RtpCapabilities.headerExtensions :=
             fold_left (extensionStep localFullCapabilities)
               (RtpCapabilities.headerExtensions filterWithCapabilities) [] |}
  end.

(** ** Sample inputs *)

Module Samples.
Definition vp8Local : Codec.t :=
  {| Codec.clockRate := 90000; Codec.kind := "video";
     Codec.mimeType := "video/VP8"; Codec.name := "VP8";
     Codec.numChannels := Some 1; Codec.parameters := [];
     Codec.preferredPayloadType := 100;
     Codec.rtcpFeedback :=
       [ {| RtcpFeedback.parameter := EmptyString; RtcpFeedback.type := "nack" |};
         {| RtcpFeedback.parameter := "fir"; RtcpFeedback.type := "ccm" |} ] |}.

Definition localFull : RtpCapabilities.t :=
  {| RtpCapabilities.codecs := [vp8Local];
     RtpCapabilities.fecMechanisms := [];
     RtpCapabilities.headerExtensions := [] |}.

Definition vp8Remote : Codec.t :=
  {| Codec.clockRate := 90000; Codec.kind := "video";
     Codec.mimeType := "video/VP8"; Codec.name := "VP8";
     Codec.numChannels := Some 1; Codec.parameters := [];
     Codec.preferredPayloadType := 96;
     Codec.rtcpFeedback :=
       [ {| RtcpFeedback.parameter := "fir"; RtcpFeedback.type := "ccm" |};
         {| RtcpFeedback.parameter := EmptyString; RtcpFeedback.type := "nack" |} ] |}.

(** A remote RTX codec with payload type [pt] for the payload type [apt]. *)
Definition rtxRemote (pt apt : Z) : Codec.t :=
  {| Codec.clockRate := 90000; Codec.kind := "video";
     Codec.mimeType := "video/rtx"; Codec.name := "rtx";
     Codec.numChannels := Some 1; Codec.parameters := [("apt", VNum apt)];
     Codec.preferredPayloadType := pt;
     Codec.rtcpFeedback := [] |}.

Definition opusRemote : Codec.t :=
  {| Codec.clockRate := 48000; Codec.kind := "audio";
     Codec.mimeType := "audio/opus"; Codec.name := "opus";
     Codec.numChannels := Some 2; Codec.parameters := [];
     Codec.preferredPayloadType := 111;
     Codec.rtcpFeedback := [] |}.

Definition opusLocal : Codec.t :=
  {| Codec.clockRate := 48000; Codec.kind := "audio";
     Codec.mimeType := "audio/opus"; Codec.name := "OPUS";
     Codec.numChannels := Some 2; Codec.parameters := [];
     Codec.preferredPayloadType := 101;
     Codec.rtcpFeedback := [] |}.

Definition localOf (codecs : list Codec.t) : RtpCapabilities.t :=
  {| RtpCapabilities.codecs := codecs;
     RtpCapabilities.fecMechanisms := [];
     RtpCapabilities.headerExtensions := [] |}.

Definition remoteOf (codecs : list Codec.t) : RtpCapabilities.t :=
  {| RtpCapabilities.codecs := codecs;
     RtpCapabilities.fecMechanisms := [];
     RtpCapabilities.headerExtensions := [] |}.
End Samples.

(** ** Vocabulary of the properties *)

(** A media section with a non-empty ICE user fragment and a nonzero port. *)
Definition hasUfragAndPort (m : Media.t) : Prop :=
  (exists u, Media.iceUfrag m = Some u /\ u <> EmptyString) /\ Media.port m <> 0.

(** The document reduced to the single media section [m]. *)
Definition onlySection (sdpObject : Sdp.t) (m : Media.t) : Sdp.t :=
  {| Sdp.media := [m];
     Sdp.fingerprint := Sdp.fingerprint sdpObject;
     Sdp.icelite := Sdp.icelite sdpObject |}.

(** The fingerprint [extractDtlsParameters] reads for the section [m]. *)
Definition fingerprintOf (sdpObject : Sdp.t) (m : Media.t)
    : option Fingerprint.t :=
  match Media.fingerprint m with
  | Some f => Some f
  | None => Sdp.fingerprint sdpObject
  end.

(** A setup value the role mapping knows. *)
Definition knownSetup (setup : option string) : Prop :=
  setup = Some "active" \/ setup = Some "passive" \/ setup = Some "actpass".

(** The DTLS property as stated for the other setup values: whenever the
    active section carries none of the three known values, the extraction
    throws. *)
Definition unknownSetupFails (sdpObject : Sdp.t) : Prop :=
  forall m,
    getFirstActiveMediaSection sdpObject = Some m ->
    ~ knownSetup (Media.setup m) ->
    exists e, extractDtlsParameters sdpObject = Throw e.

(** [l1] is a subsequence of [l2]: the entries of [l1] appear in [l2] in the
    same order. *)
Inductive Subseq {A : Type} : list A -> list A -> Prop :=
| Subseq_nil : forall l, Subseq [] l
| Subseq_take : forall x l1 l2, Subseq l1 l2 -> Subseq (x :: l1) (x :: l2)
| Subseq_skip : forall x l1 l2, Subseq l1 l2 -> Subseq l1 (x :: l2).

(** The feedback property as stated for one matched remote codec: the kept
    entries are the local entries that have a remote entry with the same
    (type, parameter), in local declaration order. *)
Definition feedbackInLocalOrder (localFullCapabilities : RtpCapabilities.t)
    (remoteCodec : Codec.t) : Prop :=
  forall localCodec,
    findLocalCodec localFullCapabilities remoteCodec = Some localCodec ->
    let kept := Codec.rtcpFeedback (negotiateCodec localCodec remoteCodec) in
    (forall fb,
        In fb kept <->
        In fb (Codec.rtcpFeedback localCodec) /\
        exists remoteFb,
          In remoteFb (Codec.rtcpFeedback remoteCodec) /\
          RtcpFeedback.type remoteFb = RtcpFeedback.type fb /\
          RtcpFeedback.parameter remoteFb = RtcpFeedback.parameter fb) /\
    Subseq kept (Codec.rtcpFeedback localCodec).

(** The remote codec is an RTX entry: [remoteCodecName === 'rtx']. *)
Definition isRtx (remoteCodec : Codec.t) : bool :=
  strictEq (JsString.toLowerCase (Codec.name remoteCodec)) "rtx".

(** A local codec agrees with a remote one on name (ignoring case), kind and
    clock rate. *)
Definition agrees (localCodec remoteCodec : Codec.t) : Prop :=
  JsString.toLowerCase (Codec.name localCodec)
    = JsString.toLowerCase (Codec.name remoteCodec) /\
  Codec.kind localCodec = Codec.kind remoteCodec /\
  Codec.clockRate localCodec = Codec.clockRate remoteCodec.

(** The remote codec gets a negotiated codec. *)
Definition isMatched (localFullCapabilities : RtpCapabilities.t)
    (remoteCodec : Codec.t) : bool :=
  (negb (isRtx remoteCodec)
   && match findLocalCodec localFullCapabilities remoteCodec with
      | Some _ => true
      | None => false
      end)%bool.

(** What one remote codec contributes to the negotiated primary codecs. *)
Definition primaryOf (localFullCapabilities : RtpCapabilities.t)
    (remoteCodec : Codec.t) : list Codec.t :=
  if isRtx remoteCodec then []
  else
    match findLocalCodec localFullCapabilities remoteCodec with
    | None => []
    | Some localCodec => [negotiateCodec localCodec remoteCodec]
    end.

(** The negotiated primary codecs: the array after the first loop. *)
Definition primaries (localFullCapabilities : RtpCapabilities.t)
    (remoteCodecs : list Codec.t) : list Codec.t :=
  fst (negotiateCodecs localFullCapabilities remoteCodecs).

(** The last element of [l] that satisfies [f]. *)
Definition lastWith {A : Type} (f : A -> bool) (l : list A) : option A :=
  find f (rev l).

(** The codec entry registered for an [a=rtpmap] line of a section of kind
    [kind]. *)
Definition codecOfRtp (kind : string) (rtp : Rtp.t) : Codec.t :=
  {| Codec.clockRate := Rtp.rate rtp;
     Codec.kind := kind;
     Codec.mimeType := (kind ++ "/" ++ Rtp.codec rtp)%string;
     Codec.name := Rtp.codec rtp;
     Codec.numChannels := Some (orOne (Rtp.encoding rtp));
     Codec.parameters := JsMap.empty;
     Codec.preferredPayloadType := Rtp.payload rtp;
     Codec.rtcpFeedback := [] |}.

(** The codec lines of the audio and video sections, in document order, each
    with the kind of its section. *)
Definition declaredCodecs (media : list Media.t) : list (string * Rtp.t) :=
  flat_map
    (fun m =>
       if isAudioOrVideo (Media.type m)
       then map (pair (Media.type m)) (Media.rtp m)
       else [])
    media.

(** The feedback entry pushed for an [a=rtcp-fb] line. *)
Definition feedbackOfLine (fb : RtcpFb.t) : RtcpFeedback.t :=
  {| RtcpFeedback.parameter :=
       match RtcpFb.subtype fb with
       | Some s => s
       | None => EmptyString
       end;
     RtcpFeedback.type := RtcpFb.type fb |}.

(** The feedback entries that the lines [fbs] declare for payload type [p]. *)
Definition feedbackOf (fbs : list RtcpFb.t) (p : Z) : list RtcpFeedback.t :=
  map feedbackOfLine
    (filter (fun fb => strictEq (RtcpFb.payload fb) (VNum p)) fbs).

(** The codec [c] after a sequence of [codec.rtcpFeedback.push]. *)
Definition pushAll (c : Codec.t) (fbs : list RtcpFeedback.t) : Codec.t :=
  Codec.mk (Codec.clockRate c) (Codec.kind c) (Codec.mimeType c)
    (Codec.name c) (Codec.numChannels c) (Codec.parameters c)
    (Codec.preferredPayloadType c) (Codec.rtcpFeedback c ++ fbs).

(** The codec [base], registered under payload type [p], after the
    format-parameter and feedback lines of the section [m]: the parameters of
    the last [a=fmtp] line for [p] if there is one, and the feedback of the
    [a=rtcp-fb] lines for [p] appended. *)
Definition attachedTo (parseFmtpConfig : string -> Params) (m : Media.t)
    (p : Z) (base : Codec.t) : Codec.t :=
  {| Codec.clockRate := Codec.clockRate base;
     Codec.kind := Codec.kind base;
     Codec.mimeType := Codec.mimeType base;
     Codec.name := Codec.name base;
     Codec.numChannels := Codec.numChannels base;
     Codec.parameters :=
       match
         lastWith (fun f => Fmtp.payload f =? p) (orEmpty (Media.fmtp m))
       with
       | Some f => parseFmtpConfig (Fmtp.config f)
       | None => Codec.parameters base
       end;
     Codec.preferredPayloadType := Codec.preferredPayloadType base;
     Codec.rtcpFeedback :=
       Codec.rtcpFeedback base ++ feedbackOf (orEmpty (Media.rtcpFb m)) p |}.

(** The codec registered under [p] when the section [m] starts: the one of
    the last [a=rtpmap] line of [m] for [p] if there is one, otherwise the
    one found in the registry. *)
Definition registeredBy (m : Media.t) (p : Z) (found : option Codec.t)
    : option Codec.t :=
  match lastWith (fun rtp => Rtp.payload rtp =? p) (Media.rtp m) with
  | Some rtp => Some (codecOfRtp (Media.type m) rtp)
  | None => found
  end.

(** The header extension built for an [a=extmap] line of a section of kind
    [kind]. *)
Definition extensionOf (kind : string) (ext : Ext.t) : HeaderExtension.t :=
  {| HeaderExtension.kind := kind;
     HeaderExtension.uri := Ext.uri ext;
     HeaderExtension.preferredId := Ext.value ext;
     HeaderExtension.preferredEncrypt := None |}.

(** The header-extension lines of the audio and video sections, in document
    order. *)
Definition declaredExtensions (media : list Media.t)
    : list HeaderExtension.t :=
  flat_map
    (fun m =>
       if isAudioOrVideo (Media.type m)
       then map (extensionOf (Media.type m)) (orEmpty (Media.ext m))
       else [])
    media.

Definition extensionKey (e : HeaderExtension.t) : string * string :=
  (HeaderExtension.kind e, HeaderExtension.uri e).

(** [e] is pushed unless an entry with its kind and uri is already saved. *)
Definition keepFirst (saved : list HeaderExtension.t) (e : HeaderExtension.t)
    : list HeaderExtension.t :=
  match
    find (sameExtension (HeaderExtension.kind e) (HeaderExtension.uri e)) saved
  with
  | Some _ => saved
  | None => saved ++ [e]
  end.

(** [l'] is [l] with two entries of the same (kind, uri) exchanged. *)
Definition duplicatesExchanged (l l' : list HeaderExtension.t) : Prop :=
  exists a x b y c,
    extensionKey x = extensionKey y /\
    l = a ++ x :: b ++ y :: c /\
    l' = a ++ y :: b ++ x :: c.

(** The header-extension property as stated for a reordering of
    duplicates: exchanging two entries of the same (kind, uri) leaves the
    extracted header extensions unchanged. *)
Definition unchangedByExchange (parseFmtpConfig : string -> Params)
    (sdpObject sdpObject' : Sdp.t) : Prop :=
  duplicatesExchanged (declaredExtensions (Sdp.media sdpObject))
    (declaredExtensions (Sdp.media sdpObject')) ->
  RtpCapabilities.headerExtensions
    (extractCapabilities parseFmtpConfig sdpObject)
  = RtpCapabilities.headerExtensions
      (extractCapabilities parseFmtpConfig sdpObject').

(** The SSRCs that the FID groups of an audio or video section name second
    ([undefined] when the group has a single SSRC). *)
Definition rtxSsrcsOf (Number : string -> jsnum) (m : Media.t)
    : list (option jsnum) :=
  if isAudioOrVideo (Media.type m)
  then
    map
      (fun g =>
         nth_error (map Number (JsString.split " " (SsrcGroup.ssrcs g))) 1)
      (filter (fun g => String.eqb (SsrcGroup.semantics g) "FID")
         (orEmpty (Media.ssrcGroups m)))
  else [].

(** The SSRCs that carry per-source attributes in an audio or video
    section. *)
Definition declaredSsrcs (m : Media.t) : list Z :=
  if isAudioOrVideo (Media.type m)
  then map Ssrc.id (orEmpty (Media.ssrcs m))
  else [].

(** No entry of the track infos has an [ssrc] that is the [rtxSsrc] of an
    entry. *)
Definition noEntryForRtxSsrc (Number : string -> jsnum) (sdpObject : Sdp.t)
    : Prop :=
  forall i j,
    In i (JsMap.values (extractTrackInfos Number sdpObject)) ->
    In j (JsMap.values (extractTrackInfos Number sdpObject)) ->
    TrackInfo.rtxSsrc j <> Some (JNum (TrackInfo.ssrc i)).

(** [s] has per-source attributes in some section, and neither that section
    nor an earlier one names [s] second in a FID group. *)
Definition declaredUnpaired (Number : string -> jsnum) (media : list Media.t)
    (s : Z) : Prop :=
  exists pre m post,
    media = pre ++ m :: post /\
    In s (declaredSsrcs m) /\
    forall m', In m' (pre ++ [m]) -> ~ In (Some (JNum s)) (rtxSsrcsOf Number m').

(** No FID group names second an SSRC that has per-source attributes in an
    earlier section. *)
Definition noPairingAfterAttributes (Number : string -> jsnum)
    (media : list Media.t) : Prop :=
  forall pre m post,
    media = pre ++ m :: post ->
    forall s, In s (declaredSsrcs m) ->
    forall m', In m' post -> ~ In (Some (JNum s)) (rtxSsrcsOf Number m').

(** Invariant of the loops of [extractTrackInfos]: the exclusion set holds
    exactly the SSRCs [seen], and every value of the RTX map is among them. *)
Definition pairingInv (st : TrackState) (seen : list (option jsnum)) : Prop :=
  (forall x, In x (rtxSet st) <-> In x seen) /\
  (forall k v, JsMap.get (rtxMap st) k = Some v -> In v seen).

(** Invariant of the loops of [extractTrackInfos]: every entry is keyed by
    its own SSRC, its [rtxSsrc] is among [seen], and its SSRC was declared
    before any pairing named it. *)
Definition infosInv (Number : string -> jsnum) (media : list Media.t)
    (st : TrackState) (seen : list (option jsnum)) : Prop :=
  forall s i,
    In (s, i) (infos st) ->
    TrackInfo.ssrc i = s /\
    (forall x, TrackInfo.rtxSsrc i = Some x -> In (Some x) seen) /\
    declaredUnpaired Number media s.

(** The RTX entries built for the codecs [codecs], in order. *)
Definition synthesized (remoteRtxMap : RtxMap) (codecs : list Codec.t)
    : list Codec.t :=
  flat_map
    (fun codec =>
       match rtxCodecFor remoteRtxMap codec with
       | Some rtxCodec => [rtxCodec]
       | None => []
       end)
    codecs.

(** The ICE candidate built for a candidate line. *)
Definition candidateOf (c : Candidate.t) : IceCandidate.t :=
  {| IceCandidate.foundation := Candidate.foundation c;
     IceCandidate.ip := Candidate.ip c;
     IceCandidate.port := Candidate.port c;
     IceCandidate.priority := Candidate.priority c;
     IceCandidate.protocol := JsString.toLowerCase (Candidate.transport c);
     IceCandidate.type := Candidate.type c |}.

(** The document without the sections that are neither audio nor video. *)
Definition onlyAudioVideo (sdpObject : Sdp.t) : Sdp.t :=
  {| Sdp.media :=
       filter (fun m => isAudioOrVideo (Media.type m)) (Sdp.media sdpObject);
     Sdp.fingerprint := Sdp.fingerprint sdpObject;
     Sdp.icelite := Sdp.icelite sdpObject |}.

(** The distinct elements of [l], each at the place of its first
    occurrence. *)
Fixpoint firstSeen {K : Type} `{EqDec K} (l : list K) : list K :=
  match l with
  | [] => []
  | x :: l' => x :: filter (fun y => negb (strictEq y x)) (firstSeen l')
  end.

(** Invariant of the loops of [extractTrackInfos]: the keys are pairwise
    distinct, and every entry has the kind of an audio or video section that
    declares its SSRC. *)
Definition kindsInv (media : list Media.t) (st : TrackState) : Prop :=
  NoDup (JsMap.keys (infos st)) /\
  forall s i,
    In (s, i) (infos st) ->
    exists m,
      In m media /\
      TrackInfo.kind i = Media.type m /\
      isAudioOrVideo (Media.type m) = true /\
      In s (declaredSsrcs m).

(** The local side has a header extension of the kind and uri of
    [remoteExtension]. *)
Definition supportsExtension (localFullCapabilities : RtpCapabilities.t)
    (remoteExtension : HeaderExtension.t) : bool :=
  existsb
    (fun extension =>
       (strictEq (HeaderExtension.kind extension)
          (HeaderExtension.kind remoteExtension)
        && strictEq (HeaderExtension.uri extension)
             (HeaderExtension.uri remoteExtension))%bool)
    (RtpCapabilities.headerExtensions localFullCapabilities).

(** The negotiated form of a remote header extension. *)
Definition negotiatedExtension (remoteExtension : HeaderExtension.t)
    : HeaderExtension.t :=
  {| HeaderExtension.kind := HeaderExtension.kind remoteExtension;
     HeaderExtension.uri := HeaderExtension.uri remoteExtension;
     HeaderExtension.preferredId := HeaderExtension.preferredId remoteExtension;
     HeaderExtension.preferredEncrypt :=
       Some (toBoolean (HeaderExtension.preferredEncrypt remoteExtension)) |}.

(** Invariant of the second loop of [getLocalCapabilities], the iterator
    being at index [i] of [codecs]: every entry from index [n] on was built
    for an entry that comes before it and that the iterator has passed. *)
Definition parentsInv (remoteRtxMap : RtxMap) (n i : nat)
    (codecs : list Codec.t) : Prop :=
  forall idx r,
    (n <= idx)%nat ->
    nth_error codecs idx = Some r ->
    exists j p,
      (j < idx)%nat /\ (j < i)%nat /\
      nth_error codecs j = Some p /\
      rtxCodecFor remoteRtxMap p = Some r.

(** Invariant of the second loop of [getLocalCapabilities] for remote
    payload types [remotePayloads]: the payload types of the array are
    pairwise distinct and among the remote ones. *)
Definition payloadsInv (remotePayloads : list Z) (codecs : list Codec.t)
    : Prop :=
  NoDup (map Codec.preferredPayloadType codecs) /\
  incl (map Codec.preferredPayloadType codecs) remotePayloads.

(** The per-source lines of the audio and video sections, in document
    order. *)
Definition declaredLines (media : list Media.t) : list Ssrc.t :=
  flat_map
    (fun m =>
       if isAudioOrVideo (Media.type m) then orEmpty (Media.ssrcs m) else [])
    media.

(** What the track infos hold for the SSRC [s] once the lines [lines] have
    been read, when nothing excludes [s]: no entry before the first line of
    [s], and then a new entry to which the lines of [s] were applied in
    order. *)
Definition appliedInOrder (s : Z) (lines : list Ssrc.t)
    (entries : JsMap.t Z TrackInfo.t) : Prop :=
  match filter (fun o => Ssrc.id o =? s) lines with
  | [] => JsMap.get entries s = None
  | mine =>
      exists fresh,
        TrackInfo.ssrc fresh = s /\
        TrackInfo.cname fresh = None /\
        TrackInfo.streamId fresh = None /\
        TrackInfo.trackId fresh = None /\
        JsMap.get entries s = Some (fold_left applyAttribute mine fresh)
  end.

(** ** Sample documents *)

Module Documents.
Definition fp : Fingerprint.t :=
  {| Fingerprint.type := "sha-256"; Fingerprint.hash := "AB:CD" |}.

(** A section with the given setup value, user fragment and port. *)
Definition section (kind : string) (setup ufrag : option string) (port : Z)
    : Media.t :=
  {| Media.type := kind; Media.port := port; Media.mid := Some kind;
     Media.iceUfrag := ufrag; Media.icePwd := Some "pwd";
     Media.setup := setup; Media.fingerprint := Some fp;
     Media.rtp := []; Media.fmtp := None; Media.rtcpFb := None;
     Media.ext := None; Media.ssrcGroups := None; Media.ssrcs := None;
     Media.candidates := Some [] |}.

Definition document (media : list Media.t) : Sdp.t :=
  {| Sdp.media := media; Sdp.fingerprint := None; Sdp.icelite := None |}.

Definition holdconn : Sdp.t :=
  document [section "audio" (Some "holdconn") (Some "frag") 9].

Definition inactive : Sdp.t :=
  document [section "audio" (Some "actpass") None 9;
            section "video" (Some "actpass") (Some "frag") 0].

Definition secondActive : Sdp.t :=
  document [section "audio" (Some "actpass") (Some EmptyString) 9;
            section "video" (Some "active") (Some "frag") 9;
            section "video" (Some "passive") (Some "frag2") 10].

(** A stand-in for [sdpTransform.parseFmtpConfig] on the samples. *)
Definition sampleParse (config : string) : Params := [("config", VStr config)].

Definition audioSection : Media.t :=
  {| Media.type := "audio"; Media.port := 9; Media.mid := Some "audio";
     Media.iceUfrag := Some "frag"; Media.icePwd := Some "pwd";
     Media.setup := Some "actpass"; Media.fingerprint := Some fp;
     Media.rtp :=
       [ {| Rtp.payload := 111; Rtp.codec := "opus"; Rtp.rate := 48000;
            Rtp.encoding := Some 2 |};
         {| Rtp.payload := 96; Rtp.codec := "telephone-event";
            Rtp.rate := 8000; Rtp.encoding := None |} ];
     Media.fmtp :=
       Some [ {| Fmtp.payload := 111; Fmtp.config := "minptime=10" |} ];
     Media.rtcpFb := None;
     Media.ext :=
       Some [ {| Ext.value := 1; Ext.uri := "urn:ietf:params:rtp-hdrext:ssrc-audio-level" |} ];
     Media.ssrcGroups := None; Media.ssrcs := None;
     Media.candidates := Some [] |}.

Definition videoSection : Media.t :=
  {| Media.type := "video"; Media.port := 9; Media.mid := Some "video";
     Media.iceUfrag := Some "frag"; Media.icePwd := Some "pwd";
     Media.setup := Some "actpass"; Media.fingerprint := Some fp;
     Media.rtp :=
       [ {| Rtp.payload := 96; Rtp.codec := "VP8"; Rtp.rate := 90000;
            Rtp.encoding := None |} ];
     Media.fmtp :=
       Some [ {| Fmtp.payload := 111; Fmtp.config := "useinbandfec=1" |} ];
     Media.rtcpFb :=
       Some [ {| RtcpFb.payload := VNum 111; RtcpFb.type := "nack";
                 RtcpFb.subtype := None |};
              {| RtcpFb.payload := VNum 96; RtcpFb.type := "ccm";
                 RtcpFb.subtype := Some "fir" |} ];
     Media.ext := None;
     Media.ssrcGroups := None; Media.ssrcs := None;
     Media.candidates := Some [] |}.

(** A video section with the given header-extension lines. *)
Definition withExtensions (exts : list Ext.t) : Media.t :=
  {| Media.type := "video"; Media.port := 9; Media.mid := Some "video";
     Media.iceUfrag := Some "frag"; Media.icePwd := Some "pwd";
     Media.setup := Some "actpass"; Media.fingerprint := Some fp;
     Media.rtp := []; Media.fmtp := None; Media.rtcpFb := None;
     Media.ext := Some exts;
     Media.ssrcGroups := None; Media.ssrcs := None;
     Media.candidates := Some [] |}.

Definition toffset (id : Z) : Ext.t :=
  {| Ext.value := id; Ext.uri := "urn:ietf:params:rtp-hdrext:toffset" |}.

(** [Number] on the decimal numerals, as SSRC identifiers are; NaN on the
    strings that are not decimal numerals. *)
Definition digitOf (c : ascii) : option Z :=
  let n := nat_of_ascii c in
  if (Nat.leb 48 n && Nat.leb n 57)%bool then Some (Z.of_nat (n - 48)) else None.

Fixpoint decimalValue (acc : Z) (s : string) : option Z :=
  match s with
  | EmptyString => Some acc
  | String c s' =>
      match digitOf c with
      | Some d => decimalValue (10 * acc + d) s'
      | None => None
      end
  end.

Definition decimalNumber (s : string) : jsnum :=
  match decimalValue 0 s with
  | Some z => JNum z
  | None => JNaN
  end.

(** A video section with the given source groups and per-source lines. *)
Definition withSources (groups : option (list SsrcGroup.t))
    (ssrcs : list Ssrc.t) : Media.t :=
  {| Media.type := "video"; Media.port := 9; Media.mid := Some "video";
     Media.iceUfrag := Some "frag"; Media.icePwd := Some "pwd";
     Media.setup := Some "actpass"; Media.fingerprint := Some fp;
     Media.rtp := []; Media.fmtp := None; Media.rtcpFb := None;
     Media.ext := None;
     Media.ssrcGroups := groups; Media.ssrcs := Some ssrcs;
     Media.candidates := Some [] |}.

Definition fid (ssrcs : string) : SsrcGroup.t :=
  {| SsrcGroup.semantics := "FID"; SsrcGroup.ssrcs := ssrcs |}.

Definition line (id : Z) (attribute value : string) : Ssrc.t :=
  {| Ssrc.id := id; Ssrc.attribute := attribute; Ssrc.value := value |}.

(** One section: SSRC 111 with its retransmission SSRC 222. *)
Definition paired : Sdp.t :=
  document
    [withSources (Some [fid "111 222"])
       [line 111 "msid" "stream1 track1"; line 222 "msid" "stream1 track1"]].

(** SSRC 222 has attributes in the first section and is named second by a
    FID group of the second section. *)
Definition pairedLater : Sdp.t :=
  document
    [withSources None [line 222 "cname" "a"];
     withSources (Some [fid "111 222"]) [line 111 "cname" "b"]].
End Documents.

(** ** Further sample inputs *)

Module Scenarios.
Definition hostCandidate (component : Z) (transport : string) : Candidate.t :=
  {| Candidate.foundation := "1"; Candidate.component := component;
     Candidate.transport := transport; Candidate.priority := 2130706431;
     Candidate.ip := "10.0.0.1"; Candidate.port := 10000;
     Candidate.type := "host" |}.

(** An active audio section with the given candidate list and media-level
    fingerprint. *)
Definition transportSection (candidates : option (list Candidate.t))
    (fingerprint : option Fingerprint.t) : Media.t :=
  {| Media.type := "audio"; Media.port := 9; Media.mid := Some "audio";
     Media.iceUfrag := Some "frag"; Media.icePwd := Some "pwd";
     Media.setup := Some "actpass"; Media.fingerprint := fingerprint;
     Media.rtp := []; Media.fmtp := None; Media.rtcpFb := None;
     Media.ext := None; Media.ssrcGroups := None; Media.ssrcs := None;
     Media.candidates := candidates |}.

Definition withCandidates : Sdp.t :=
  Documents.document
    [transportSection
       (Some [hostCandidate 1 "UDP"; hostCandidate 2 "UDP";
              hostCandidate 1 "tcp"])
       (Some Documents.fp)].

Definition withoutCandidates : Sdp.t :=
  Documents.document [transportSection None (Some Documents.fp)].

Definition withoutFingerprint : Sdp.t :=
  Documents.document [transportSection (Some []) None].

Definition h264Local : Codec.t :=
  {| Codec.clockRate := 90000; Codec.kind := "video";
     Codec.mimeType := "video/H264"; Codec.name := "H264";
     Codec.numChannels := None;
     Codec.parameters :=
       [("packetization-mode", VNum 1); ("profile-level-id", VStr "42e01f")];
     Codec.preferredPayloadType := 107;
     Codec.rtcpFeedback := [] |}.

Definition h264Remote : Codec.t :=
  {| Codec.clockRate := 90000; Codec.kind := "video";
     Codec.mimeType := "video/h264"; Codec.name := "h264";
     Codec.numChannels := Some 1;
     Codec.parameters :=
       [("profile-level-id", VStr "640c1f"); ("packetization-mode", VNum 1);
        ("max-fs", VNum 3600)];
     Codec.preferredPayloadType := 100;
     Codec.rtcpFeedback := [] |}.

Definition extension (kind uri : string) (id : Z) (encrypt : option bool)
    : HeaderExtension.t :=
  {| HeaderExtension.kind := kind; HeaderExtension.uri := uri;
     HeaderExtension.preferredId := id;
     HeaderExtension.preferredEncrypt := encrypt |}.

Definition localSide : RtpCapabilities.t :=
  {| RtpCapabilities.codecs := [Samples.vp8Local; h264Local];
     RtpCapabilities.fecMechanisms := ["RED"; EmptyString];
     RtpCapabilities.headerExtensions :=
       [extension "video" "urn:ietf:params:rtp-hdrext:toffset" 7 (Some true)] |}.

Definition remoteSide : RtpCapabilities.t :=
  {| RtpCapabilities.codecs :=
       [Samples.vp8Remote; Samples.rtxRemote 97 96; h264Remote];
     RtpCapabilities.fecMechanisms := [EmptyString; "RED"; "FLEXFEC"];
     RtpCapabilities.headerExtensions :=
       [extension "audio" "urn:ietf:params:rtp-hdrext:toffset" 1 None;
        extension "video" "urn:ietf:params:rtp-hdrext:toffset" 2 None] |}.

(** The capabilities extracted from the two sample sections. *)
Definition extracted : RtpCapabilities.t :=
  extractCapabilities Documents.sampleParse
    (Documents.document [Documents.audioSection; Documents.videoSection]).

Definition localAudio : RtpCapabilities.t :=
  {| RtpCapabilities.codecs := [Samples.opusLocal];
     RtpCapabilities.fecMechanisms := ["RED"];
     RtpCapabilities.headerExtensions :=
       [extension "audio" "urn:ietf:params:rtp-hdrext:ssrc-audio-level" 9
          (Some true)] |}.

(** SSRC 111 with lines in two sections, the second of which relabels it. *)
Definition relabelled : Sdp.t :=
  Documents.document
    [Documents.withSources (Some [Documents.fid "111 222"])
       [Documents.line 111 "cname" "c"; Documents.line 111 "label" "track1";
        Documents.line 222 "cname" "c"];
     Documents.withSources None [Documents.line 111 "msid" "stream2"]].
End Scenarios.

(** ** Properties *)

(** *** Containers *)

Section JsMapFacts.
Context {K V : Type} `{EqDec K}.

Lemma get_set_same (m : JsMap.t K V) k v :
  JsMap.get (JsMap.set m k v) k = Some v.
Proof.
  induction m as [|[k' v'] m IH]; simpl.
  - destruct (eq_dec k k); congruence.
  - destruct (eq_dec k k') as [->|Hne]; simpl.
    + destruct (eq_dec k' k'); congruence.
    + destruct (eq_dec k k'); [congruence | exact IH].
Qed.

Lemma get_set_other (m : JsMap.t K V) k v k' :
  k' <> k -> JsMap.get (JsMap.set m k v) k' = JsMap.get m k'.
Proof.
  intros Hne. induction m as [|[k0 v0] m IH]; simpl.
  - destruct (eq_dec k' k); congruence.
  - destruct (eq_dec k k0) as [->|Hk]; simpl.
    + destruct (eq_dec k' k0); congruence.
    + destruct (eq_dec k' k0); [reflexivity | exact IH].
Qed.

Lemma get_None_keys (m : JsMap.t K V) k :
  JsMap.get m k = None <-> ~ In k (JsMap.keys m).
Proof.
  induction m as [|[k' v'] m IH]; simpl.
  - tauto.
  - destruct (eq_dec k k') as [->|Hne].
    + split; [discriminate | tauto].
    + rewrite IH. split; [intros Hn [Hk|Hk]; congruence | tauto].
Qed.

(** An existing key keeps its place, a new key is appended. *)
Lemma keys_set (m : JsMap.t K V) k v :
  JsMap.keys (JsMap.set m k v)
  = if JsMap.has m k then JsMap.keys m else JsMap.keys m ++ [k].
Proof.
  unfold JsMap.has. induction m as [|[k' v'] m IH]; simpl.
  - reflexivity.
  - destruct (eq_dec k k') as [->|Hne]; simpl.
    + reflexivity.
    + rewrite IH. destruct (JsMap.get m k); reflexivity.
Qed.

Lemma NoDup_keys_set (m : JsMap.t K V) k v :
  NoDup (JsMap.keys m) -> NoDup (JsMap.keys (JsMap.set m k v)).
Proof.
  intros Hnd. rewrite keys_set. unfold JsMap.has.
  destruct (JsMap.get m k) eqn:Hg; [exact Hnd|].
  apply get_None_keys in Hg.
  apply NoDup_rev in Hnd. rewrite <- (rev_involutive (_ ++ _)).
  apply NoDup_rev. rewrite rev_unit. constructor; [|exact Hnd].
  rewrite <- in_rev. exact Hg.
Qed.

Lemma In_get (m : JsMap.t K V) k v :
  NoDup (JsMap.keys m) -> In (k, v) m -> JsMap.get m k = Some v.
Proof.
  induction m as [|[k' v'] m IH]; simpl; [tauto|].
  intros Hnd [Heq|Hin].
  - inversion Heq; subst. destruct (eq_dec k k); congruence.
  - inversion Hnd as [|? ? Hni Hnd']; subst.
    destruct (eq_dec k k') as [->|Hne]; [|auto].
    exfalso. apply Hni. apply (in_map fst) in Hin. exact Hin.
Qed.

Lemma get_In (m : JsMap.t K V) k v :
  JsMap.get m k = Some v -> In (k, v) m.
Proof.
  induction m as [|[k' v'] m IH]; simpl; [discriminate|].
  destruct (eq_dec k k') as [->|Hne]; intros Hg.
  - left. congruence.
  - right. auto.
Qed.
End JsMapFacts.

(** *** The active section and DTLS/ICE extraction *)

Lemma isActive_spec (m : Media.t) :
  isActive m = true <-> hasUfragAndPort m.
Proof.
  unfold isActive, hasUfragAndPort.
  destruct (Media.iceUfrag m) as [[|c u]|].
  - split; [discriminate|]. intros [[u [Hu Hne]] _]. congruence.
  - rewrite negb_true_iff, Z.eqb_neq. split.
    + intros Hp. split; [|exact Hp]. eexists; split; [reflexivity|discriminate].
    + tauto.
  - split; [discriminate|]. intros [[u [Hu _]] _]. discriminate.
Qed.

Lemma find_none_all {A : Type} (f : A -> bool) (l : list A) :
  (forall x, In x l -> f x = false) -> find f l = None.
Proof.
  induction l as [|a l IH]; simpl; intros Hall; [reflexivity|].
  rewrite (Hall a (or_introl eq_refl)). apply IH. auto.
Qed.

Lemma find_first {A : Type} (f : A -> bool) (pre post : list A) (x : A) :
  (forall y, In y pre -> f y = false) -> f x = true ->
  find f (pre ++ x :: post) = Some x.
Proof.
  induction pre as [|a pre IH]; simpl; intros Hpre Hx.
  - rewrite Hx. reflexivity.
  - rewrite (Hpre a (or_introl eq_refl)). apply IH; auto.
Qed.

Lemma not_active_false (m : Media.t) :
  ~ hasUfragAndPort m -> isActive m = false.
Proof.
  intros Hn. destruct (isActive m) eqn:E; [|reflexivity].
  apply isActive_spec in E. contradiction.
Qed.

(** C4: when no media section has both a non-empty ICE user fragment and a
    nonzero port, the DTLS, ICE-parameter and ICE-candidate extractions all
    fail with the exception raised on the missing section, instead of
    returning a record; otherwise the section read by the three extractions
    is the first one that has both. *)
Theorem extraction_uses_first_active_section (sdpObject : Sdp.t) :
  ((forall m, In m (Sdp.media sdpObject) -> ~ hasUfragAndPort m) ->
   extractDtlsParameters sdpObject = Throw TypeError /\
   extractIceParameters sdpObject = Throw TypeError /\
   extractIceCandidates sdpObject = Throw TypeError) /\
  (forall pre m post,
      Sdp.media sdpObject = pre ++ m :: post ->
      (forall x, In x pre -> ~ hasUfragAndPort x) ->
      hasUfragAndPort m ->
      getFirstActiveMediaSection sdpObject = Some m /\
      extractDtlsParameters sdpObject
        = extractDtlsParameters (onlySection sdpObject m) /\
      extractIceParameters sdpObject
        = Return
            {| IceParameters.icelite :=
                 strictEq (Sdp.icelite sdpObject) (Some "ice-lite");
               IceParameters.password := Media.icePwd m;
               IceParameters.usernameFragment := Media.iceUfrag m |} /\
      extractIceCandidates sdpObject
        = extractIceCandidates (onlySection sdpObject m)).
Proof.
  split.
  - intros Hnone.
    assert (Hf : getFirstActiveMediaSection sdpObject = None).
    { apply find_none_all. intros x Hx. apply not_active_false. auto. }
    unfold extractDtlsParameters, extractIceParameters, extractIceCandidates.
    rewrite Hf. simpl. auto.
  - intros pre m post Hmedia Hpre Hm.
    assert (Hf : getFirstActiveMediaSection sdpObject = Some m).
    { unfold getFirstActiveMediaSection. rewrite Hmedia.
      apply find_first.
      - intros y Hy. apply not_active_false. auto.
      - apply isActive_spec. exact Hm. }
    assert (Hf1 : getFirstActiveMediaSection (onlySection sdpObject m) = Some m).
    { unfold getFirstActiveMediaSection. simpl.
      apply isActive_spec in Hm. rewrite Hm. reflexivity. }
    unfold extractDtlsParameters, extractIceParameters, extractIceCandidates.
    rewrite Hf, Hf1. simpl. auto.
Qed.

Lemma extraction_uses_first_active_section_witness :
  (extractDtlsParameters Documents.inactive = Throw TypeError /\
   extractIceParameters Documents.inactive = Throw TypeError /\
   extractIceCandidates Documents.inactive = Throw TypeError) /\
  getFirstActiveMediaSection Documents.secondActive
    = Some (Documents.section "video" (Some "active") (Some "frag") 9).
Proof.
  split.
  - apply (proj1 (extraction_uses_first_active_section Documents.inactive)).
    intros m Hm [[u [Hu Hne]] Hp]. simpl in Hm.
    destruct Hm as [<-|[<-|[]]]; simpl in *; [discriminate | lia].
  - apply (proj2 (extraction_uses_first_active_section Documents.secondActive)
             [Documents.section "audio" (Some "actpass") (Some EmptyString) 9]
             (Documents.section "video" (Some "active") (Some "frag") 9)
             [Documents.section "video" (Some "passive") (Some "frag2") 10]).
    + reflexivity.
    + intros x Hx [[u [Hu Hne]] Hp]. simpl in Hx.
      destruct Hx as [<-|[]]. simpl in Hu. congruence.
    + split; [|simpl; lia]. exists "frag". split; [reflexivity | discriminate].
Defined.

Lemma roleOfSetup_unknown (setup : option string) :
  ~ knownSetup setup -> roleOfSetup setup = None.
Proof.
  unfold knownSetup, roleOfSetup. intros Hn.
  destruct setup as [s|]; [|reflexivity].
  destruct (String.eqb_spec s "active") as [->|_]; [tauto|].
  destruct (String.eqb_spec s "passive") as [->|_]; [tauto|].
  destruct (String.eqb_spec s "actpass") as [->|_]; [tauto|].
  reflexivity.
Qed.

(** C3, as the code has it: with an active section [m] and a fingerprint
    [f] for it, the extraction returns a record whose role is client for
    setup "active", server for "passive" and auto for "actpass"; for any
    other or missing setup value it still returns the record, with the role
    left undefined. *)
Theorem dtls_role_mapping (sdpObject : Sdp.t) (m : Media.t)
    (f : Fingerprint.t) :
  getFirstActiveMediaSection sdpObject = Some m ->
  fingerprintOf sdpObject m = Some f ->
  exists role,
    extractDtlsParameters sdpObject
      = Return
          {| DtlsParameters.role := role;
             DtlsParameters.fingerprints :=
               [ {| DtlsFingerprint.algorithm := Fingerprint.type f;
                    DtlsFingerprint.value := Fingerprint.hash f |} ] |} /\
    (Media.setup m = Some "active" -> role = Some "client") /\
    (Media.setup m = Some "passive" -> role = Some "server") /\
    (Media.setup m = Some "actpass" -> role = Some "auto") /\
    (~ knownSetup (Media.setup m) -> role = None).
Proof.
  intros Hm Hf. exists (roleOfSetup (Media.setup m)). split; [|repeat split].
  - unfold extractDtlsParameters. rewrite Hm. simpl.
    unfold fingerprintOf in Hf. rewrite Hf. reflexivity.
  - intros ->. reflexivity.
  - intros ->. reflexivity.
  - intros ->. reflexivity.
  - apply roleOfSetup_unknown.
Qed.

Lemma dtls_role_mapping_witness :
  exists role,
    extractDtlsParameters Documents.secondActive
      = Return
          {| DtlsParameters.role := role;
             DtlsParameters.fingerprints :=
               [ {| DtlsFingerprint.algorithm := "sha-256";
                    DtlsFingerprint.value := "AB:CD" |} ] |} /\
    (Some "active" = Some "active" -> role = Some "client") /\
    (Some "active" = Some "passive" -> role = Some "server") /\
    (Some "active" = Some "actpass" -> role = Some "auto") /\
    (~ knownSetup (Some "active") -> role = None).
Proof.
  apply (dtls_role_mapping Documents.secondActive
           (Documents.section "video" (Some "active") (Some "frag") 9)
           Documents.fp); reflexivity.
Defined.

(** The scenario of setup "actpass" with the fingerprint sha-256 AB:CD. *)
Example extractDtlsParameters_actpass :
  extractDtlsParameters (Documents.document [Documents.audioSection])
  = Return
      {| DtlsParameters.role := Some "auto";
         DtlsParameters.fingerprints :=
           [ {| DtlsFingerprint.algorithm := "sha-256";
                DtlsFingerprint.value := "AB:CD" |} ] |}.
Proof. reflexivity. Qed.

(** C3 fails as stated: a document whose active section has the setup value
    "holdconn" is extracted without failure, the role being undefined. *)
Lemma unknown_setup_returns_record :
  ~ unknownSetupFails Documents.holdconn.
Proof.
  intros Hstated.
  destruct (Hstated (Documents.section "audio" (Some "holdconn") (Some "frag") 9))
    as [e He].
  - reflexivity.
  - unfold knownSetup. simpl. intros [H|[H|H]]; discriminate.
  - vm_compute in He. discriminate.
Qed.

(** *** Feedback intersection *)

Lemma sameFeedback_eq (remoteFb fb : RtcpFeedback.t) :
  sameFeedback remoteFb fb = true <-> fb = remoteFb.
Proof.
  unfold sameFeedback, strictEq. destruct fb as [p t], remoteFb as [p' t']. simpl.
  destruct (eq_dec t t'), (eq_dec p p'); simpl; split; intros Heq;
    try discriminate; try congruence; inversion Heq; contradiction.
Qed.

Lemma fold_left_snoc {A B : Type} (f : A -> B -> A) (l : list B) (x : B) (a : A) :
  fold_left f (l ++ [x]) a = f (fold_left f l a) x.
Proof. rewrite fold_left_app. reflexivity. Qed.

Lemma find_sameFeedback (remoteFb : RtcpFeedback.t) (l : list RtcpFeedback.t) :
  find (sameFeedback remoteFb) l
  = if existsb (sameFeedback remoteFb) l then Some remoteFb else None.
Proof.
  induction l as [|fb l IH]; simpl; [reflexivity|].
  destruct (sameFeedback remoteFb fb) eqn:E; simpl; [|exact IH].
  apply sameFeedback_eq in E. congruence.
Qed.

(** The kept feedback: the remote entries that have an equal local entry, in
    the order of the remote codec. *)
Lemma intersectFeedback_filter (localCodec remoteCodec : Codec.t) :
  intersectFeedback localCodec remoteCodec
  = filter
      (fun remoteFb =>
         existsb (sameFeedback remoteFb) (Codec.rtcpFeedback localCodec))
      (Codec.rtcpFeedback remoteCodec).
Proof.
  unfold intersectFeedback.
  induction (Codec.rtcpFeedback remoteCodec) as [|fb l IH] using rev_ind.
  - reflexivity.
  - rewrite fold_left_snoc, IH, filter_app. unfold feedbackStep.
    rewrite find_sameFeedback. simpl.
    destruct (existsb _ _); [reflexivity | rewrite app_nil_r; reflexivity].
Qed.

(** C2, as the code has it: for a remote codec matched with [localCodec], a
    local feedback entry is kept if and only if the remote codec has an entry
    with the same (type, parameter); the kept entries follow the remote
    declaration order, one for each remote entry that has a local equal. *)
Theorem feedback_intersection_remote_order
    (localFullCapabilities : RtpCapabilities.t)
    (remoteCodec localCodec : Codec.t) :
  findLocalCodec localFullCapabilities remoteCodec = Some localCodec ->
  let kept := Codec.rtcpFeedback (negotiateCodec localCodec remoteCodec) in
  (forall fb,
      In fb kept <->
      In fb (Codec.rtcpFeedback localCodec) /\
      exists remoteFb,
        In remoteFb (Codec.rtcpFeedback remoteCodec) /\
        RtcpFeedback.type remoteFb = RtcpFeedback.type fb /\
        RtcpFeedback.parameter remoteFb = RtcpFeedback.parameter fb) /\
  kept
  = filter
      (fun remoteFb =>
         existsb (sameFeedback remoteFb) (Codec.rtcpFeedback localCodec))
      (Codec.rtcpFeedback remoteCodec) /\
  Subseq kept (Codec.rtcpFeedback remoteCodec).
Proof.
  intros _. simpl. rewrite intersectFeedback_filter. split; [|split].
  - intros fb. rewrite filter_In, existsb_exists. split.
    + intros [Hin [x [Hx Hsame]]]. apply sameFeedback_eq in Hsame. subst x.
      split; [exact Hx|]. exists fb. auto.
    + intros [Hloc [remoteFb [Hrem [Ht Hp]]]].
      assert (remoteFb = fb) by (destruct remoteFb, fb; simpl in *; congruence).
      subst remoteFb. split; [exact Hrem|].
      exists fb. split; [exact Hloc | apply sameFeedback_eq; reflexivity].
  - reflexivity.
  - induction (Codec.rtcpFeedback remoteCodec) as [|x l IH]; simpl.
    + constructor.
    + destruct (existsb _ _); constructor; exact IH.
Qed.

Lemma feedback_intersection_remote_order_witness :
  let kept :=
    Codec.rtcpFeedback (negotiateCodec Samples.vp8Local Samples.vp8Remote) in
  (forall fb,
      In fb kept <->
      In fb (Codec.rtcpFeedback Samples.vp8Local) /\
      exists remoteFb,
        In remoteFb (Codec.rtcpFeedback Samples.vp8Remote) /\
        RtcpFeedback.type remoteFb = RtcpFeedback.type fb /\
        RtcpFeedback.parameter remoteFb = RtcpFeedback.parameter fb) /\
  kept
  = filter
      (fun remoteFb =>
         existsb (sameFeedback remoteFb) (Codec.rtcpFeedback Samples.vp8Local))
      (Codec.rtcpFeedback Samples.vp8Remote) /\
  Subseq kept (Codec.rtcpFeedback Samples.vp8Remote).
Proof.
  apply (feedback_intersection_remote_order Samples.localFull
           Samples.vp8Remote Samples.vp8Local).
  reflexivity.
Defined.

(** C2 fails as stated: with local feedback [nack; ccm fir] and remote
    feedback [ccm fir; nack] the kept entries are [ccm fir; nack], which is
    not the local declaration order. *)
Lemma feedback_not_in_local_order :
  ~ feedbackInLocalOrder Samples.localFull Samples.vp8Remote.
Proof.
  intros Hstated.
  destruct (Hstated Samples.vp8Local eq_refl) as [_ Hsub].
  vm_compute in Hsub.
  repeat match goal with
         | Hs : Subseq (_ :: _) _ |- _ => inversion Hs; clear Hs; subst
         end.
Qed.

(** *** Matching of remote codecs *)

Lemma fst_codecStep (localFullCapabilities : RtpCapabilities.t)
    (st : list Codec.t * RtxMap) (remoteCodec : Codec.t) :
  fst (codecStep localFullCapabilities st remoteCodec)
  = fst st ++ primaryOf localFullCapabilities remoteCodec.
Proof.
  unfold codecStep, primaryOf, isRtx.
  destruct (strictEq _ "rtx"); simpl.
  - rewrite app_nil_r. reflexivity.
  - destruct (findLocalCodec _ _); simpl; [reflexivity|].
    rewrite app_nil_r. reflexivity.
Qed.

Lemma fst_fold_codecStep (localFullCapabilities : RtpCapabilities.t)
    (remoteCodecs : list Codec.t) (st : list Codec.t * RtxMap) :
  fst (fold_left (codecStep localFullCapabilities) remoteCodecs st)
  = fst st ++ flat_map (primaryOf localFullCapabilities) remoteCodecs.
Proof.
  revert st. induction remoteCodecs as [|rc l IH]; intros st; simpl.
  - rewrite app_nil_r. reflexivity.
  - rewrite IH, fst_codecStep, <- app_assoc. reflexivity.
Qed.

Lemma primaries_flat_map (localFullCapabilities : RtpCapabilities.t)
    (remoteCodecs : list Codec.t) :
  primaries localFullCapabilities remoteCodecs
  = flat_map (primaryOf localFullCapabilities) remoteCodecs.
Proof.
  unfold primaries, negotiateCodecs. rewrite fst_fold_codecStep. reflexivity.
Qed.

Lemma primaries_split (localFullCapabilities : RtpCapabilities.t)
    (pre post : list Codec.t) (remoteCodec : Codec.t) :
  primaries localFullCapabilities (pre ++ remoteCodec :: post)
  = primaries localFullCapabilities pre
    ++ primaryOf localFullCapabilities remoteCodec
    ++ primaries localFullCapabilities post.
Proof.
  rewrite !primaries_flat_map, flat_map_app. reflexivity.
Qed.

Lemma matchesRemote_agrees (localCodec remoteCodec : Codec.t) :
  matchesRemote (JsString.toLowerCase (Codec.name remoteCodec)) remoteCodec
    localCodec = true
  <-> agrees localCodec remoteCodec.
Proof.
  unfold matchesRemote, agrees, strictEq.
  destruct (eq_dec (JsString.toLowerCase (Codec.name localCodec)) _),
    (eq_dec (Codec.kind localCodec) _),
    (eq_dec (Codec.clockRate localCodec) _); simpl;
    split; try discriminate; try tauto.
Qed.

Lemma findLocalCodec_None (localFullCapabilities : RtpCapabilities.t)
    (remoteCodec : Codec.t) :
  findLocalCodec localFullCapabilities remoteCodec = None
  <-> forall localCodec,
      In localCodec (RtpCapabilities.codecs localFullCapabilities) ->
      ~ agrees localCodec remoteCodec.
Proof.
  unfold findLocalCodec. split.
  - intros Hnone lc Hin Hag.
    apply matchesRemote_agrees in Hag.
    pose proof (find_none _ _ Hnone lc Hin) as Hf. congruence.
  - intros Hall. apply find_none_all. intros lc Hin.
    destruct (matchesRemote _ remoteCodec lc) eqn:E; [|reflexivity].
    apply matchesRemote_agrees in E. exfalso. exact (Hall lc Hin E).
Qed.

Lemma findLocalCodec_Some (localFullCapabilities : RtpCapabilities.t)
    (remoteCodec localCodec : Codec.t) :
  findLocalCodec localFullCapabilities remoteCodec = Some localCodec ->
  In localCodec (RtpCapabilities.codecs localFullCapabilities) /\
  agrees localCodec remoteCodec.
Proof.
  unfold findLocalCodec. intros Hf. apply find_some in Hf.
  destruct Hf as [Hin Hm]. apply matchesRemote_agrees in Hm. auto.
Qed.

Lemma isRtx_false (remoteCodec : Codec.t) :
  JsString.toLowerCase (Codec.name remoteCodec) <> "rtx" ->
  isRtx remoteCodec = false.
Proof.
  unfold isRtx, strictEq. intros Hne.
  destruct (eq_dec _ "rtx"); [contradiction | reflexivity].
Qed.

(** The second loop only appends to the array, and what it appends are RTX
    entries. *)
Lemma addRtxCodecs_extends (fuel : nat) (remoteRtxMap : RtxMap) (i : nat)
    (codecs result : list Codec.t) :
  addRtxCodecs fuel remoteRtxMap i codecs = Some result ->
  exists rtxCodecs,
    result = codecs ++ rtxCodecs /\
    Forall (fun c => Codec.name c = "rtx") rtxCodecs.
Proof.
  revert i codecs. induction fuel as [|fuel IH]; intros i codecs; simpl.
  - discriminate.
  - destruct (nth_error codecs i) as [codec|].
    + destruct (rtxCodecFor remoteRtxMap codec) as [rtx|] eqn:Hrtx.
      * intros Hr. apply IH in Hr. destruct Hr as [more [-> Hall]].
        exists (rtx :: more). rewrite <- app_assoc. split; [reflexivity|].
        constructor; [|exact Hall].
        unfold rtxCodecFor in Hrtx.
        destruct (JsMap.get _ _); inversion Hrtx. reflexivity.
      * apply IH.
    + intros Hr. inversion Hr. exists []. rewrite app_nil_r. auto.
Qed.

(** C8: a remote codec not named "rtx" (ignoring case) that no local codec
    agrees with on name (ignoring case), kind and clock rate contributes
    nothing to the negotiated codecs; one that has such a local codec
    contributes a codec with the local clock rate, kind, name and channel
    count (1 when the local count is absent) and the remote preferred payload
    type; the returned codecs start with these negotiated codecs, in remote
    order. *)
Theorem unmatched_dropped_matched_adapted
    (localFullCapabilities filterWithCapabilities : RtpCapabilities.t)
    (pre post : list Codec.t) (remoteCodec : Codec.t) :
  RtpCapabilities.codecs filterWithCapabilities = pre ++ remoteCodec :: post ->
  JsString.toLowerCase (Codec.name remoteCodec) <> "rtx" ->
  ((forall localCodec,
       In localCodec (RtpCapabilities.codecs localFullCapabilities) ->
       ~ agrees localCodec remoteCodec) ->
   primaries localFullCapabilities (pre ++ remoteCodec :: post)
   = primaries localFullCapabilities pre
     ++ primaries localFullCapabilities post) /\
  ((exists localCodec,
       In localCodec (RtpCapabilities.codecs localFullCapabilities) /\
       agrees localCodec remoteCodec) ->
   exists localCodec codec,
     In localCodec (RtpCapabilities.codecs localFullCapabilities) /\
     agrees localCodec remoteCodec /\
     primaries localFullCapabilities (pre ++ remoteCodec :: post)
     = primaries localFullCapabilities pre
       ++ codec :: primaries localFullCapabilities post /\
     Codec.clockRate codec = Codec.clockRate localCodec /\
     Codec.kind codec = Codec.kind localCodec /\
     Codec.name codec = Codec.name localCodec /\
     Codec.numChannels codec = Some (orOne (Codec.numChannels localCodec)) /\
     Codec.preferredPayloadType codec
     = Codec.preferredPayloadType remoteCodec) /\
  (forall fuel result,
      getLocalCapabilities fuel localFullCapabilities filterWithCapabilities
      = Some result ->
      exists rtxCodecs,
        RtpCapabilities.codecs result
        = primaries localFullCapabilities (pre ++ remoteCodec :: post)
          ++ rtxCodecs /\
        Forall (fun c => Codec.name c = "rtx") rtxCodecs).
Proof.
  intros Hcodecs Hname. apply isRtx_false in Hname.
  split; [|split].
  - intros Hnone. apply findLocalCodec_None in Hnone.
    rewrite primaries_split. unfold primaryOf. rewrite Hname, Hnone.
    reflexivity.
  - intros [lc0 [Hin0 Hag0]].
    destruct (findLocalCodec localFullCapabilities remoteCodec) as [lc|] eqn:Hf.
    + destruct (findLocalCodec_Some _ _ _ Hf) as [Hin Hag].
      exists lc, (negotiateCodec lc remoteCodec).
      rewrite primaries_split. unfold primaryOf. rewrite Hname, Hf.
      simpl. repeat split; auto; apply Hag.
    + exfalso. exact (proj1 (findLocalCodec_None _ _) Hf lc0 Hin0 Hag0).
  - intros fuel result. unfold getLocalCapabilities. rewrite Hcodecs.
    fold (primaries localFullCapabilities (pre ++ remoteCodec :: post)).
    destruct (addRtxCodecs _ _ _ _) as [codecs|] eqn:Hadd; [|discriminate].
    intros Hr. inversion Hr; subst; simpl.
    exact (addRtxCodecs_extends _ _ _ _ _ Hadd).
Qed.

Lemma unmatched_dropped_matched_adapted_witness :
  primaries Samples.localFull
    [Samples.opusRemote; Samples.vp8Remote; Samples.rtxRemote 97 96]
  = primaries Samples.localFull []
    ++ primaries Samples.localFull [Samples.vp8Remote; Samples.rtxRemote 97 96]
  /\
  exists localCodec codec,
    In localCodec (RtpCapabilities.codecs Samples.localFull) /\
    agrees localCodec Samples.vp8Remote /\
    primaries Samples.localFull
      ([Samples.opusRemote] ++ Samples.vp8Remote :: [Samples.rtxRemote 97 96])
    = primaries Samples.localFull [Samples.opusRemote]
      ++ codec :: primaries Samples.localFull [Samples.rtxRemote 97 96] /\
    Codec.clockRate codec = Codec.clockRate localCodec /\
    Codec.kind codec = Codec.kind localCodec /\
    Codec.name codec = Codec.name localCodec /\
    Codec.numChannels codec = Some (orOne (Codec.numChannels localCodec)) /\
    Codec.preferredPayloadType codec = 96.
Proof.
  split.
  - apply (proj1 (unmatched_dropped_matched_adapted Samples.localFull
                    (Samples.remoteOf
                       [Samples.opusRemote; Samples.vp8Remote;
                        Samples.rtxRemote 97 96])
                    [] [Samples.vp8Remote; Samples.rtxRemote 97 96]
                    Samples.opusRemote eq_refl
                    ltac:(vm_compute; discriminate))).
    intros lc Hin [_ [Hk _]]. simpl in Hin.
    destruct Hin as [<-|[]]. discriminate.
  - apply (proj1 (proj2 (unmatched_dropped_matched_adapted Samples.localFull
                    (Samples.remoteOf
                       [Samples.opusRemote; Samples.vp8Remote;
                        Samples.rtxRemote 97 96])
                    [Samples.opusRemote] [Samples.rtxRemote 97 96]
                    Samples.vp8Remote eq_refl
                    ltac:(vm_compute; discriminate)))).
    exists Samples.vp8Local. split; [left; reflexivity|].
    repeat split; reflexivity.
Defined.

(** *** Independence of the order of the local codecs *)

(** A remote codec is matched exactly when the first loop pushes a codec for
    it. *)
Lemma isMatched_primaryOf (localFullCapabilities : RtpCapabilities.t)
    (remoteCodec : Codec.t) :
  isMatched localFullCapabilities remoteCodec = true
  <-> primaryOf localFullCapabilities remoteCodec <> [].
Proof.
  unfold isMatched, primaryOf.
  destruct (isRtx remoteCodec); simpl.
  - split; [discriminate | congruence].
  - destruct (findLocalCodec localFullCapabilities remoteCodec).
    + split; [discriminate | reflexivity].
    + split; [discriminate | congruence].
Qed.

Lemma find_None_Permutation {A : Type} (f : A -> bool) (l1 l2 : list A) :
  Permutation l1 l2 -> find f l1 = None -> find f l2 = None.
Proof.
  intros Hp Hn. apply find_none_all. intros x Hx.
  apply (find_none f l1 Hn). apply Permutation_sym in Hp.
  exact (Permutation_in x Hp Hx).
Qed.

Lemma isMatched_Permutation (local1 local2 : RtpCapabilities.t)
    (remoteCodec : Codec.t) :
  Permutation (RtpCapabilities.codecs local1) (RtpCapabilities.codecs local2) ->
  isMatched local1 remoteCodec = isMatched local2 remoteCodec.
Proof.
  intros Hp. unfold isMatched, findLocalCodec. f_equal.
  destruct (find _ (RtpCapabilities.codecs local1)) eqn:E1,
    (find _ (RtpCapabilities.codecs local2)) eqn:E2; try reflexivity.
  - apply (find_None_Permutation _ _ _ (Permutation_sym Hp)) in E2. congruence.
  - apply (find_None_Permutation _ _ _ Hp) in E1. congruence.
Qed.

Lemma primaryOf_payloads_Permutation (local1 local2 : RtpCapabilities.t)
    (remoteCodec : Codec.t) :
  Permutation (RtpCapabilities.codecs local1) (RtpCapabilities.codecs local2) ->
  map Codec.preferredPayloadType (primaryOf local1 remoteCodec)
  = map Codec.preferredPayloadType (primaryOf local2 remoteCodec).
Proof.
  intros Hp. pose proof (isMatched_Permutation _ _ remoteCodec Hp) as Hm.
  unfold isMatched in Hm. unfold primaryOf.
  destruct (isRtx remoteCodec); [reflexivity|]. simpl in Hm.
  destruct (findLocalCodec local1 remoteCodec),
    (findLocalCodec local2 remoteCodec); try discriminate; reflexivity.
Qed.

(** C9: for two local capability records whose codec lists are permutations
    of each other, every remote codec is matched under one if and only if it
    is matched under the other; the negotiated primary codecs carry the same
    payload types in the same order. *)
Theorem matching_independent_of_local_order
    (local1 local2 filterWithCapabilities : RtpCapabilities.t) :
  Permutation (RtpCapabilities.codecs local1) (RtpCapabilities.codecs local2) ->
  (forall remoteCodec,
      In remoteCodec (RtpCapabilities.codecs filterWithCapabilities) ->
      isMatched local1 remoteCodec = isMatched local2 remoteCodec) /\
  map Codec.preferredPayloadType
    (primaries local1 (RtpCapabilities.codecs filterWithCapabilities))
  = map Codec.preferredPayloadType
      (primaries local2 (RtpCapabilities.codecs filterWithCapabilities)).
Proof.
  intros Hp. split.
  - intros rc _. apply isMatched_Permutation. exact Hp.
  - rewrite !primaries_flat_map.
    induction (RtpCapabilities.codecs filterWithCapabilities) as [|rc l IH].
    + reflexivity.
    + simpl. rewrite !map_app, IH.
      rewrite (primaryOf_payloads_Permutation _ _ rc Hp). reflexivity.
Qed.

Lemma matching_independent_of_local_order_witness :
  (forall remoteCodec,
      In remoteCodec [Samples.opusRemote; Samples.vp8Remote] ->
      isMatched (Samples.localOf [Samples.vp8Local; Samples.opusLocal])
        remoteCodec
      = isMatched (Samples.localOf [Samples.opusLocal; Samples.vp8Local])
          remoteCodec) /\
  map Codec.preferredPayloadType
    (primaries (Samples.localOf [Samples.vp8Local; Samples.opusLocal])
       [Samples.opusRemote; Samples.vp8Remote])
  = map Codec.preferredPayloadType
      (primaries (Samples.localOf [Samples.opusLocal; Samples.vp8Local])
         [Samples.opusRemote; Samples.vp8Remote]).
Proof.
  apply (matching_independent_of_local_order
           (Samples.localOf [Samples.vp8Local; Samples.opusLocal])
           (Samples.localOf [Samples.opusLocal; Samples.vp8Local])
           (Samples.remoteOf [Samples.opusRemote; Samples.vp8Remote])).
  simpl. apply perm_swap.
Defined.

(** *** RTX synthesis *)

Ltac list_assoc :=
  repeat (progress (rewrite <- ?app_assoc; cbn [app])); reflexivity.

(** While the iterator is on the primary codecs [todo], the RTX entries of
    the visited ones pile up behind them. *)
Lemma addRtxCodecs_visit (remoteRtxMap : RtxMap) (todo done pushed : list Codec.t)
    (fuel : nat) :
  (List.length todo <= fuel)%nat ->
  addRtxCodecs fuel remoteRtxMap (List.length done) (done ++ todo ++ pushed)
  = addRtxCodecs (fuel - List.length todo) remoteRtxMap (List.length done + List.length todo)
      (done ++ todo ++ pushed ++ synthesized remoteRtxMap todo).
Proof.
  revert done pushed fuel.
  induction todo as [|c todo IH]; intros done pushed fuel Hfuel.
  - simpl. rewrite Nat.sub_0_r, Nat.add_0_r, app_nil_r. reflexivity.
  - destruct fuel as [|fuel]; [simpl in Hfuel; lia|].
    simpl in Hfuel. cbn [addRtxCodecs].
    rewrite nth_error_app2 by lia. rewrite Nat.sub_diag. cbn [nth_error app].
    assert (Hlen : S (List.length done) = List.length (done ++ [c])).
    { rewrite length_app. simpl. lia. }
    unfold synthesized. cbn [flat_map]. fold (synthesized remoteRtxMap todo).
    destruct (rtxCodecFor remoteRtxMap c) as [rtx|]; rewrite Hlen.
    + replace ((done ++ c :: todo ++ pushed) ++ [rtx])
        with ((done ++ [c]) ++ todo ++ (pushed ++ [rtx]))
        by list_assoc.
      rewrite IH by lia.
      f_equal; try (simpl; lia); try (rewrite length_app; simpl; lia).
      list_assoc.
    + replace (done ++ c :: todo ++ pushed)
        with ((done ++ [c]) ++ todo ++ pushed)
        by list_assoc.
      rewrite IH by lia.
      f_equal; try (simpl; lia); try (rewrite length_app; simpl; lia).
      list_assoc.
Qed.

(** Entries that have no RTX payload type are passed over, and the loop ends
    behind the last of them. *)
Lemma addRtxCodecs_skip (remoteRtxMap : RtxMap) (rest done : list Codec.t)
    (fuel : nat) :
  (forall c, In c rest -> rtxCodecFor remoteRtxMap c = None) ->
  (List.length rest < fuel)%nat ->
  addRtxCodecs fuel remoteRtxMap (List.length done) (done ++ rest)
  = Some (done ++ rest).
Proof.
  revert done fuel.
  induction rest as [|c rest IH]; intros done fuel Hnone Hfuel.
  - destruct fuel as [|fuel]; [simpl in Hfuel; lia|]. cbn [addRtxCodecs].
    rewrite app_nil_r.
    rewrite (proj2 (nth_error_None done (List.length done))) by lia. reflexivity.
  - destruct fuel as [|fuel]; [simpl in Hfuel; lia|]. cbn [addRtxCodecs].
    rewrite nth_error_app2 by lia. rewrite Nat.sub_diag. cbn [nth_error].
    rewrite (Hnone c (or_introl eq_refl)).
    replace (S (List.length done)) with (List.length (done ++ [c]))
      by (rewrite length_app; simpl; lia).
    replace (done ++ c :: rest) with ((done ++ [c]) ++ rest)
      by list_assoc.
    apply IH.
    + intros c' Hc'. apply Hnone. right. exact Hc'.
    + simpl in Hfuel. lia.
Qed.

Lemma length_synthesized (remoteRtxMap : RtxMap) (codecs : list Codec.t) :
  (List.length (synthesized remoteRtxMap codecs) <= List.length codecs)%nat.
Proof.
  induction codecs as [|c l IH]; simpl; [lia|].
  destruct (rtxCodecFor remoteRtxMap c); simpl; lia.
Qed.

(** When no payload type recorded for an RTX entry is itself a key of the RTX
    map, the second loop ends, and appends one RTX entry for each primary
    codec that has one, in the order of the primaries. *)
Lemma addRtxCodecs_primaries_only (remoteRtxMap : RtxMap)
    (codecs : list Codec.t) (fuel : nat) :
  (forall k v, JsMap.get remoteRtxMap k = Some v ->
               JsMap.get remoteRtxMap (Some (VNum v)) = None) ->
  (2 * List.length codecs < fuel)%nat ->
  addRtxCodecs fuel remoteRtxMap 0 codecs
  = Some (codecs ++ synthesized remoteRtxMap codecs).
Proof.
  intros Hchain Hfuel.
  pose proof (addRtxCodecs_visit remoteRtxMap codecs [] [] fuel) as Hvisit.
  simpl in Hvisit. rewrite app_nil_r in Hvisit. rewrite Hvisit by lia.
  pose proof (length_synthesized remoteRtxMap codecs) as Hlen.
  apply addRtxCodecs_skip; [|lia].
  intros rtx Hin. unfold synthesized in Hin. apply in_flat_map in Hin.
  destruct Hin as [c [_ Hc]].
  unfold rtxCodecFor in Hc |- *.
  destruct (JsMap.get remoteRtxMap (Some (VNum (Codec.preferredPayloadType c))))
    as [v|] eqn:Hv; [|contradiction].
  destruct Hc as [<-|[]]. simpl. rewrite (Hchain _ _ Hv). reflexivity.
Qed.

(** When the RTX map sends 96 to 96, every pushed entry asks for another
    one: the loop has no end. *)
Lemma addRtxCodecs_cycle (fuel i : nat) (codecs : list Codec.t) :
  (i < List.length codecs)%nat ->
  Forall (fun c => Codec.preferredPayloadType c = 96) codecs ->
  addRtxCodecs fuel [(Some (VNum 96), 96)] i codecs = None.
Proof.
  revert i codecs. induction fuel as [|fuel IH]; intros i codecs Hi Hall.
  - reflexivity.
  - cbn [addRtxCodecs].
    destruct (nth_error codecs i) as [c|] eqn:Hc.
    + assert (Hpt : Codec.preferredPayloadType c = 96).
      { rewrite Forall_forall in Hall. apply Hall. exact (nth_error_In _ _ Hc). }
      unfold rtxCodecFor. rewrite Hpt. simpl.
      apply IH.
      * rewrite length_app. simpl. lia.
      * apply Forall_app. split; [exact Hall|]. constructor; [reflexivity|constructor].
    + apply nth_error_None in Hc. lia.
Qed.

(** With a remote VP8 of payload type 96 and a remote RTX entry of payload
    type 96 for it, [getLocalCapabilities] does not return. *)
Lemma getLocalCapabilities_rtx_cycle (fuel : nat) :
  getLocalCapabilities fuel Samples.localFull
    (Samples.remoteOf [Samples.vp8Remote; Samples.rtxRemote 96 96])
  = None.
Proof.
  unfold getLocalCapabilities.
  change (negotiateCodecs _ _) with
    ([negotiateCodec Samples.vp8Local Samples.vp8Remote],
     [(Some (VNum 96), 96)] : RtxMap).
  cbn [fst snd]. rewrite addRtxCodecs_cycle; [reflexivity | simpl; lia |].
  constructor; [reflexivity | constructor].
Qed.

(** [getLocalCapabilities] returns when no payload type recorded for an RTX
    entry is itself a key of the RTX map, and the codecs are then the
    primaries followed by their RTX entries. *)
Lemma getLocalCapabilities_returns
    (localFullCapabilities filterWithCapabilities : RtpCapabilities.t)
    (fuel : nat) :
  let st :=
    negotiateCodecs localFullCapabilities
      (RtpCapabilities.codecs filterWithCapabilities) in
  (forall k v, JsMap.get (snd st) k = Some v ->
               JsMap.get (snd st) (Some (VNum v)) = None) ->
  (2 * List.length (fst st) < fuel)%nat ->
  exists result,
    getLocalCapabilities fuel localFullCapabilities filterWithCapabilities
    = Some result /\
    RtpCapabilities.codecs result = fst st ++ synthesized (snd st) (fst st).
Proof.
  intros st Hchain Hfuel. unfold getLocalCapabilities. fold st.
  rewrite (addRtxCodecs_primaries_only _ _ _ Hchain Hfuel).
  eexists. split; reflexivity.
Qed.

(** The scenario of a remote VP8 (payload type 96) with its RTX entry (97,
    apt 96) against a local VP8: one VP8 codec with payload type 96 and one
    synthesized RTX codec with payload type 97 and apt 96. *)
Example getLocalCapabilities_vp8_rtx :
  option_map
    (fun result =>
       map (fun c => (Codec.name c, Codec.preferredPayloadType c,
                      Codec.parameters c))
         (RtpCapabilities.codecs result))
    (getLocalCapabilities 3 Samples.localFull
       (Samples.remoteOf [Samples.vp8Remote; Samples.rtxRemote 97 96]))
  = Some [("VP8", 96, []); ("rtx", 97, [("apt", VNum 96)])].
Proof. reflexivity. Qed.

(** C1 at the remote codecs VP8 (payload type 96), rtx (97, apt 96) and rtx
    (98, apt 97), with a local VP8: the second loop also visits the RTX entry
    it has pushed, finds its payload type 97 in the RTX map, and pushes an RTX
    entry with apt 97, which is the payload type of no negotiated primary
    codec. *)
Theorem rtx_synthesized_for_rtx_entry :
  let remote :=
    Samples.remoteOf
      [Samples.vp8Remote; Samples.rtxRemote 97 96; Samples.rtxRemote 98 97] in
  primaries Samples.localFull (RtpCapabilities.codecs remote)
  = [negotiateCodec Samples.vp8Local Samples.vp8Remote] /\
  option_map
    (fun result =>
       map (fun c => (Codec.name c, Codec.preferredPayloadType c,
                      Codec.parameters c))
         (RtpCapabilities.codecs result))
    (getLocalCapabilities 4 Samples.localFull remote)
  = Some [("VP8", 96, []);
          ("rtx", 97, [("apt", VNum 96)]);
          ("rtx", 98, [("apt", VNum 97)])] /\
  ~ In 97
      (map Codec.preferredPayloadType
         (primaries Samples.localFull (RtpCapabilities.codecs remote))).
Proof.
  split; [reflexivity|]. split; [reflexivity|].
  simpl. intros [H|[]]. discriminate.
Qed.

(** *** The codec registry of [extractCapabilities] *)

Lemma lastWith_snoc {A : Type} (f : A -> bool) (l : list A) (x : A) :
  lastWith f (l ++ [x]) = if f x then Some x else lastWith f l.
Proof. unfold lastWith. rewrite rev_unit. reflexivity. Qed.

Lemma lastWith_app {A : Type} (f : A -> bool) (l1 l2 : list A) :
  lastWith f (l1 ++ l2)
  = match lastWith f l2 with
    | Some y => Some y
    | None => lastWith f l1
    end.
Proof.
  induction l2 as [|x l2 IH] using rev_ind.
  - rewrite app_nil_r. reflexivity.
  - rewrite app_assoc, !lastWith_snoc. destruct (f x); [reflexivity | exact IH].
Qed.

Lemma lastWith_map {A B : Type} (g : A -> B) (f : B -> bool) (l : list A) :
  lastWith f (map g l) = option_map g (lastWith (fun a => f (g a)) l).
Proof.
  induction l as [|x l IH] using rev_ind.
  - reflexivity.
  - rewrite map_app. simpl. rewrite !lastWith_snoc.
    destruct (f (g x)); [reflexivity | exact IH].
Qed.

Lemma lastWith_some {A : Type} (f : A -> bool) (l : list A) (x : A) :
  lastWith f l = Some x -> In x l /\ f x = true.
Proof.
  unfold lastWith. intros Hf. apply find_some in Hf.
  rewrite <- in_rev in Hf. exact Hf.
Qed.

Lemma lastWith_none {A : Type} (f : A -> bool) (l : list A) (x : A) :
  lastWith f l = None -> In x l -> f x = false.
Proof.
  unfold lastWith. intros Hf Hin. apply (find_none f _ Hf).
  rewrite <- in_rev. exact Hin.
Qed.

Section Registry.
Variable parseFmtpConfig : string -> Params.

(** The rtpmap loop: the last line for [p] wins over what was registered. *)
Lemma get_registerCodecs (kind : string) (rtps : list Rtp.t)
    (reg : JsMap.t Z Codec.t) (p : Z) :
  JsMap.get (fold_left (registerCodec kind) rtps reg) p
  = match lastWith (fun rtp => Rtp.payload rtp =? p) rtps with
    | Some rtp => Some (codecOfRtp kind rtp)
    | None => JsMap.get reg p
    end.
Proof.
  induction rtps as [|x l IH] using rev_ind.
  - reflexivity.
  - rewrite fold_left_snoc, lastWith_snoc. unfold registerCodec at 1. simpl.
    destruct (Z.eqb_spec (Rtp.payload x) p) as [<-|Hne].
    + apply get_set_same.
    + rewrite get_set_other by congruence. exact IH.
Qed.

Lemma get_attachParameters (reg : JsMap.t Z Codec.t) (x : Fmtp.t) (p : Z) :
  JsMap.get (attachParameters parseFmtpConfig reg x) p
  = option_map
      (fun c =>
         if Fmtp.payload x =? p
         then Codec.withParameters c (parseFmtpConfig (Fmtp.config x))
         else c)
      (JsMap.get reg p).
Proof.
  unfold attachParameters.
  destruct (Z.eqb_spec (Fmtp.payload x) p) as [<-|Hne].
  - destruct (JsMap.get reg (Fmtp.payload x)) as [c|] eqn:Hg; simpl.
    + apply get_set_same.
    + exact Hg.
  - destruct (JsMap.get reg (Fmtp.payload x)) as [c|] eqn:Hg.
    + rewrite get_set_other by congruence.
      destruct (JsMap.get reg p); reflexivity.
    + destruct (JsMap.get reg p); reflexivity.
Qed.

(** The fmtp loop: the parameters of the last line for [p] are attached to
    whatever codec is registered under [p]. *)
Lemma get_attachParameters_fold (fmtps : list Fmtp.t)
    (reg : JsMap.t Z Codec.t) (p : Z) :
  JsMap.get (fold_left (attachParameters parseFmtpConfig) fmtps reg) p
  = option_map
      (fun c =>
         match lastWith (fun f => Fmtp.payload f =? p) fmtps with
         | Some f => Codec.withParameters c (parseFmtpConfig (Fmtp.config f))
         | None => c
         end)
      (JsMap.get reg p).
Proof.
  induction fmtps as [|x l IH] using rev_ind.
  - simpl. destruct (JsMap.get reg p); reflexivity.
  - rewrite fold_left_snoc, get_attachParameters, IH, lastWith_snoc.
    destruct (JsMap.get reg p) as [c|]; [simpl|reflexivity].
    destruct (Fmtp.payload x =? p); [|reflexivity].
    destruct (lastWith _ l); reflexivity.
Qed.

Lemma get_attachFeedback (reg : JsMap.t Z Codec.t) (x : RtcpFb.t) (p : Z) :
  JsMap.get (attachFeedback reg x) p
  = option_map
      (fun c =>
         if strictEq (RtcpFb.payload x) (VNum p)
         then Codec.pushFeedback c (feedbackOfLine x)
         else c)
      (JsMap.get reg p).
Proof.
  unfold attachFeedback, getByPayload, strictEq.
  destruct (RtcpFb.payload x) as [q|s].
  - destruct (eq_dec (VNum q) (VNum p)) as [Heq|Hne].
    + inversion Heq; subst q.
      destruct (JsMap.get reg p) as [c|] eqn:Hg; simpl.
      * apply get_set_same.
      * exact Hg.
    + assert (p <> q) by congruence.
      destruct (JsMap.get reg q) as [c|] eqn:Hg.
      * rewrite get_set_other by assumption.
        destruct (JsMap.get reg p); reflexivity.
      * destruct (JsMap.get reg p); reflexivity.
  - destruct (eq_dec (VStr s) (VNum p)); [discriminate|].
    destruct (JsMap.get reg p); reflexivity.
Qed.

(** The rtcp-fb loop: the lines for [p] are appended, in order, to whatever
    codec is registered under [p]. *)
Lemma get_attachFeedback_fold (fbs : list RtcpFb.t)
    (reg : JsMap.t Z Codec.t) (p : Z) :
  JsMap.get (fold_left attachFeedback fbs reg) p
  = option_map (fun c => pushAll c (feedbackOf fbs p)) (JsMap.get reg p).
Proof.
  induction fbs as [|x l IH] using rev_ind.
  - simpl. destruct (JsMap.get reg p) as [[]|]; [|reflexivity].
    unfold pushAll. simpl. rewrite app_nil_r. reflexivity.
  - rewrite fold_left_snoc, get_attachFeedback, IH.
    unfold feedbackOf. rewrite filter_app, map_app. simpl.
    destruct (JsMap.get reg p) as [c|]; [simpl|reflexivity].
    destruct (strictEq (RtcpFb.payload x) (VNum p)); simpl.
    + unfold pushAll, Codec.pushFeedback. simpl.
      rewrite <- app_assoc. reflexivity.
    + rewrite app_nil_r. reflexivity.
Qed.

(** One audio or video section, seen from one payload type. *)
Lemma get_capabilitiesStep
    (st : JsMap.t Z Codec.t * list HeaderExtension.t) (m : Media.t) (p : Z) :
  isAudioOrVideo (Media.type m) = true ->
  JsMap.get (fst (capabilitiesStep parseFmtpConfig st m)) p
  = option_map (attachedTo parseFmtpConfig m p)
      (registeredBy m p (JsMap.get (fst st) p)).
Proof.
  intros Hav. unfold capabilitiesStep. rewrite Hav. simpl.
  rewrite get_attachFeedback_fold, get_attachParameters_fold,
    get_registerCodecs.
  unfold registeredBy.
  destruct (lastWith _ (Media.rtp m)) as [rtp|].
  - simpl. unfold attachedTo, pushAll.
    destruct (lastWith _ (orEmpty (Media.fmtp m))); reflexivity.
  - destruct (JsMap.get (fst st) p) as [c|]; [simpl|reflexivity].
    unfold attachedTo, pushAll.
    destruct (lastWith _ (orEmpty (Media.fmtp m))); [reflexivity|].
    destruct c; reflexivity.
Qed.
End Registry.

Section RegistryOrder.
Variable parseFmtpConfig : string -> Params.

Lemma has_true_get {K V : Type} `{EqDec K} (m : JsMap.t K V) k v :
  JsMap.get m k = Some v -> JsMap.has m k = true.
Proof. unfold JsMap.has. intros ->. reflexivity. Qed.

Lemma keys_attachParameters (reg : JsMap.t Z Codec.t) (x : Fmtp.t) :
  JsMap.keys (attachParameters parseFmtpConfig reg x) = JsMap.keys reg.
Proof.
  unfold attachParameters.
  destruct (JsMap.get reg (Fmtp.payload x)) eqn:Hg; [|reflexivity].
  rewrite keys_set, (has_true_get _ _ _ Hg). reflexivity.
Qed.

Lemma keys_attachFeedback (reg : JsMap.t Z Codec.t) (x : RtcpFb.t) :
  JsMap.keys (attachFeedback reg x) = JsMap.keys reg.
Proof.
  unfold attachFeedback, getByPayload.
  destruct (RtcpFb.payload x) as [q|s]; [|reflexivity].
  destruct (JsMap.get reg q) eqn:Hg; [|reflexivity].
  rewrite keys_set, (has_true_get _ _ _ Hg). reflexivity.
Qed.

Lemma keys_fold_same {B : Type} (f : JsMap.t Z Codec.t -> B -> JsMap.t Z Codec.t)
    (l : list B) (reg : JsMap.t Z Codec.t) :
  (forall r x, JsMap.keys (f r x) = JsMap.keys r) ->
  JsMap.keys (fold_left f l reg) = JsMap.keys reg.
Proof.
  intros Hf. revert reg. induction l as [|x l IH]; intros reg; simpl.
  - reflexivity.
  - rewrite IH. apply Hf.
Qed.

(** The payload types already registered stay where they are; the rtpmap
    lines only append new ones. *)
Lemma keys_registerCodecs (kind : string) (rtps : list Rtp.t)
    (reg : JsMap.t Z Codec.t) :
  exists new,
    JsMap.keys (fold_left (registerCodec kind) rtps reg)
    = JsMap.keys reg ++ new.
Proof.
  revert reg. induction rtps as [|x l IH]; intros reg; simpl.
  - exists []. rewrite app_nil_r. reflexivity.
  - destruct (IH (registerCodec kind reg x)) as [new Hnew].
    rewrite Hnew. unfold registerCodec. simpl. rewrite keys_set.
    destruct (JsMap.has reg (Rtp.payload x)).
    + exists new. reflexivity.
    + exists (Rtp.payload x :: new). rewrite <- app_assoc. reflexivity.
Qed.

Lemma keys_capabilitiesStep
    (st : JsMap.t Z Codec.t * list HeaderExtension.t) (m : Media.t) :
  exists new,
    JsMap.keys (fst (capabilitiesStep parseFmtpConfig st m))
    = JsMap.keys (fst st) ++ new.
Proof.
  unfold capabilitiesStep.
  destruct (isAudioOrVideo (Media.type m)); simpl.
  - rewrite (keys_fold_same _ _ _ keys_attachFeedback).
    rewrite (keys_fold_same _ _ _ keys_attachParameters).
    apply keys_registerCodecs.
  - exists []. rewrite app_nil_r. reflexivity.
Qed.

Lemma NoDup_keys_fold {B : Type}
    (f : JsMap.t Z Codec.t -> B -> JsMap.t Z Codec.t)
    (l : list B) (reg : JsMap.t Z Codec.t) :
  (forall r x, NoDup (JsMap.keys r) -> NoDup (JsMap.keys (f r x))) ->
  NoDup (JsMap.keys reg) -> NoDup (JsMap.keys (fold_left f l reg)).
Proof.
  intros Hf. revert reg. induction l as [|x l IH]; intros reg Hnd; simpl.
  - exact Hnd.
  - apply IH. apply Hf. exact Hnd.
Qed.

Lemma NoDup_keys_capabilitiesStep
    (st : JsMap.t Z Codec.t * list HeaderExtension.t) (m : Media.t) :
  NoDup (JsMap.keys (fst st)) ->
  NoDup (JsMap.keys (fst (capabilitiesStep parseFmtpConfig st m))).
Proof.
  intros Hnd. unfold capabilitiesStep.
  destruct (isAudioOrVideo (Media.type m)); simpl; [|exact Hnd].
  rewrite (keys_fold_same _ _ _ keys_attachFeedback).
  rewrite (keys_fold_same _ _ _ keys_attachParameters).
  apply NoDup_keys_fold; [|exact Hnd].
  intros r x Hr. unfold registerCodec. apply NoDup_keys_set. exact Hr.
Qed.

Lemma capabilitiesState_snoc (media : list Media.t) (m : Media.t) :
  capabilitiesState parseFmtpConfig (media ++ [m])
  = capabilitiesStep parseFmtpConfig
      (capabilitiesState parseFmtpConfig media) m.
Proof. unfold capabilitiesState. apply fold_left_snoc. Qed.

Lemma NoDup_keys_capabilitiesState (media : list Media.t) :
  NoDup (JsMap.keys (fst (capabilitiesState parseFmtpConfig media))).
Proof.
  induction media as [|m l IH] using rev_ind.
  - constructor.
  - rewrite capabilitiesState_snoc.
    apply NoDup_keys_capabilitiesStep. exact IH.
Qed.

Lemma nth_error_keys {V : Type} (reg : JsMap.t Z V) (i : nat) (p : Z) :
  nth_error (JsMap.keys reg) i = Some p <->
  exists c, nth_error reg i = Some (p, c).
Proof.
  unfold JsMap.keys. rewrite nth_error_map.
  destruct (nth_error reg i) as [[q c]|]; simpl.
  - split.
    + intros Hq. inversion Hq. eauto.
    + intros [c' Hc]. inversion Hc. reflexivity.
  - split; [discriminate | intros [c Hc]; discriminate].
Qed.

(** C10: the codec registry is one for all media sections.  For the
    registry [reg] left by the sections [pre] and an audio or video section
    [m] after them: a payload type [p] registered at position [i] stays at
    position [i]; when [m] declares a codec line for [p] (the last one
    counts), the entry's content is replaced by that codec, of the kind of
    [m], whatever kind the earlier section had; when it does not, the entry
    is the codec registered by the earlier sections; in both cases the
    format-parameter and feedback lines that [m] has for [p] are attached
    to that entry. *)
Theorem registry_shared_across_sections (pre : list Media.t) (m : Media.t)
    (i : nat) (p : Z) (c : Codec.t) :
  isAudioOrVideo (Media.type m) = true ->
  nth_error (fst (capabilitiesState parseFmtpConfig pre)) i = Some (p, c) ->
  exists base,
    registeredBy m p (Some c) = Some base /\
    nth_error (fst (capabilitiesState parseFmtpConfig (pre ++ [m]))) i
    = Some (p, attachedTo parseFmtpConfig m p base) /\
    nth_error
      (RtpCapabilities.codecs
         (extractCapabilities parseFmtpConfig
            {| Sdp.media := pre ++ [m];
               Sdp.fingerprint := None;
               Sdp.icelite := None |})) i
    = Some (attachedTo parseFmtpConfig m p base).
Proof.
  intros Hav Hi.
  set (reg := fst (capabilitiesState parseFmtpConfig pre)) in *.
  set (reg' := fst (capabilitiesState parseFmtpConfig (pre ++ [m]))).
  assert (Hget : JsMap.get reg p = Some c).
  { apply In_get.
    - apply NoDup_keys_capabilitiesState.
    - exact (nth_error_In _ _ Hi). }
  assert (Hget' : JsMap.get reg' p
                  = option_map (attachedTo parseFmtpConfig m p)
                      (registeredBy m p (Some c))).
  { unfold reg'. rewrite capabilitiesState_snoc, get_capabilitiesStep by exact Hav.
    fold reg. rewrite Hget. reflexivity. }
  assert (Hbase : exists base, registeredBy m p (Some c) = Some base).
  { unfold registeredBy. destruct (lastWith _ _); eauto. }
  destruct Hbase as [base Hbase]. exists base. split; [exact Hbase|].
  rewrite Hbase in Hget'. simpl in Hget'.
  assert (Hnth : nth_error reg' i
                 = Some (p, attachedTo parseFmtpConfig m p base)).
  { assert (Hk : nth_error (JsMap.keys reg') i = Some p).
    { unfold reg'. rewrite capabilitiesState_snoc.
      destruct (keys_capabilitiesStep
                  (capabilitiesState parseFmtpConfig pre) m) as [new ->].
      rewrite nth_error_app1.
      - apply nth_error_keys. eauto.
      - unfold JsMap.keys. rewrite length_map.
        apply nth_error_Some. fold reg. rewrite Hi. discriminate. }
    apply nth_error_keys in Hk. destruct Hk as [c' Hc'].
    rewrite Hc'. f_equal. f_equal.
    assert (Hg : JsMap.get reg' p = Some c').
    { apply In_get.
      - apply NoDup_keys_capabilitiesState.
      - exact (nth_error_In _ _ Hc'). }
    congruence. }
  split; [exact Hnth|].
  unfold extractCapabilities, JsMap.values. simpl. fold reg'.
  rewrite nth_error_map, Hnth. reflexivity.
Qed.
End RegistryOrder.

Lemma registry_shared_across_sections_witness :
  (exists base,
      registeredBy Documents.videoSection 96
        (Some (codecOfRtp "audio"
                 {| Rtp.payload := 96; Rtp.codec := "telephone-event";
                    Rtp.rate := 8000; Rtp.encoding := None |}))
      = Some base /\
      nth_error
        (fst (capabilitiesState Documents.sampleParse
                ([Documents.audioSection] ++ [Documents.videoSection]))) 1
      = Some (96, attachedTo Documents.sampleParse Documents.videoSection 96 base) /\
      nth_error
        (RtpCapabilities.codecs
           (extractCapabilities Documents.sampleParse
              {| Sdp.media := [Documents.audioSection] ++ [Documents.videoSection];
                 Sdp.fingerprint := None;
                 Sdp.icelite := None |})) 1
      = Some (attachedTo Documents.sampleParse Documents.videoSection 96 base)).
Proof.
  apply (registry_shared_across_sections Documents.sampleParse
           [Documents.audioSection] Documents.videoSection 1 96);
    reflexivity.
Defined.

(** *** Distinct payload types *)

Section DistinctPayloads.
Variable parseFmtpConfig : string -> Params.

Lemma declaredCodecs_snoc (media : list Media.t) (m : Media.t) :
  declaredCodecs (media ++ [m])
  = declaredCodecs media
    ++ (if isAudioOrVideo (Media.type m)
        then map (pair (Media.type m)) (Media.rtp m)
        else []).
Proof.
  unfold declaredCodecs. rewrite flat_map_app. simpl.
  rewrite app_nil_r. reflexivity.
Qed.

(** What the registry holds under [p]: nothing when no codec line declares
    [p], otherwise a codec with the kind, name, clock rate and channel
    count of the last line that declares [p]. *)
Lemma registry_last_declared (media : list Media.t) (p : Z) :
  match lastWith (fun d => Rtp.payload (snd d) =? p) (declaredCodecs media) with
  | None => JsMap.get (fst (capabilitiesState parseFmtpConfig media)) p = None
  | Some (kind, rtp) =>
      exists parameters rtcpFeedback,
        JsMap.get (fst (capabilitiesState parseFmtpConfig media)) p
        = Some
            (Codec.mk (Rtp.rate rtp) kind
               (kind ++ "/" ++ Rtp.codec rtp)%string (Rtp.codec rtp)
               (Some (orOne (Rtp.encoding rtp))) parameters
               (Rtp.payload rtp) rtcpFeedback)
  end.
Proof.
  induction media as [|m l IH] using rev_ind.
  - reflexivity.
  - rewrite declaredCodecs_snoc, capabilitiesState_snoc.
    destruct (isAudioOrVideo (Media.type m)) eqn:Hav.
    + rewrite lastWith_app, lastWith_map. simpl.
      rewrite get_capabilitiesStep by exact Hav.
      unfold registeredBy.
      destruct (lastWith _ (Media.rtp m)) as [rtp|]; simpl.
      * unfold attachedTo, codecOfRtp. simpl. eauto.
      * destruct (lastWith _ (declaredCodecs l)) as [[kind rtp]|].
        -- destruct IH as [ps [fbs ->]]. simpl.
           unfold attachedTo. simpl. eauto.
        -- rewrite IH. reflexivity.
    + rewrite app_nil_r. unfold capabilitiesStep. rewrite Hav. exact IH.
Qed.

Lemma registry_key_is_payload (media : list Media.t) (p : Z) (c : Codec.t) :
  In (p, c) (fst (capabilitiesState parseFmtpConfig media)) ->
  Codec.preferredPayloadType c = p.
Proof.
  intros Hin.
  apply In_get in Hin; [|apply NoDup_keys_capabilitiesState].
  pose proof (registry_last_declared media p) as Hl.
  destruct (lastWith _ _) as [[kind rtp]|] eqn:Hlast.
  - destruct Hl as [ps [fbs Hg]]. rewrite Hg in Hin.
    inversion Hin; subst c. simpl.
    apply lastWith_some in Hlast. destruct Hlast as [_ Hp].
    simpl in Hp. apply Z.eqb_eq. exact Hp.
  - congruence.
Qed.

(** C5: the codecs returned by [extractCapabilities] have pairwise distinct
    preferred payload types, for every document and so for those with an
    audio or video section; each returned codec takes its kind, name, clock
    rate and channel count from the last codec line of the document that
    declares its payload type, and every declared payload type is
    returned. *)
Theorem payload_types_distinct_last_wins (sdpObject : Sdp.t) :
  let codecs :=
    RtpCapabilities.codecs (extractCapabilities parseFmtpConfig sdpObject) in
  let declared := declaredCodecs (Sdp.media sdpObject) in
  NoDup (map Codec.preferredPayloadType codecs) /\
  (forall c,
      In c codecs ->
      exists kind rtp,
        lastWith
          (fun d => Rtp.payload (snd d) =? Codec.preferredPayloadType c)
          declared
        = Some (kind, rtp) /\
        Codec.kind c = kind /\
        Codec.name c = Rtp.codec rtp /\
        Codec.clockRate c = Rtp.rate rtp /\
        Codec.numChannels c = Some (orOne (Rtp.encoding rtp))) /\
  (forall kind rtp,
      In (kind, rtp) declared ->
      exists c, In c codecs /\ Codec.preferredPayloadType c = Rtp.payload rtp).
Proof.
  simpl. unfold JsMap.values.
  set (reg := fst (capabilitiesState parseFmtpConfig (Sdp.media sdpObject))).
  split; [|split].
  - rewrite map_map.
    rewrite (map_ext_in _ fst).
    + apply (NoDup_keys_capabilitiesState parseFmtpConfig).
    + intros [p c] Hin. simpl.
      exact (registry_key_is_payload _ _ _ Hin).
  - intros c Hin. apply in_map_iff in Hin.
    destruct Hin as [[p c'] [Heq Hin]]. simpl in Heq. subst c'.
    pose proof (registry_key_is_payload _ _ _ Hin) as Hp.
    apply In_get in Hin; [|apply NoDup_keys_capabilitiesState].
    pose proof (registry_last_declared (Sdp.media sdpObject) p) as Hl.
    rewrite Hp.
    destruct (lastWith _ _) as [[kind rtp]|]; [|fold reg in Hl; congruence].
    destruct Hl as [ps [fbs Hg]]. fold reg in Hg. rewrite Hg in Hin.
    inversion Hin; subst c. exists kind, rtp. simpl. auto.
  - intros kind rtp Hin.
    pose proof (registry_last_declared (Sdp.media sdpObject) (Rtp.payload rtp))
      as Hl.
    destruct (lastWith _ _) as [[kind' rtp']|] eqn:Hlast.
    + destruct Hl as [ps [fbs Hg]]. fold reg in Hg.
      pose proof (registry_key_is_payload _ _ _ (get_In _ _ _ Hg)) as Hp.
      eexists. split; [|exact Hp].
      apply in_map_iff. eexists (_, _). split; [reflexivity|].
      exact (get_In _ _ _ Hg).
    + apply (lastWith_none _ _ _ Hlast) in Hin. simpl in Hin.
      rewrite Z.eqb_refl in Hin. discriminate.
Qed.
End DistinctPayloads.

Lemma payload_types_distinct_last_wins_witness :
  NoDup
    (map Codec.preferredPayloadType
       (RtpCapabilities.codecs
          (extractCapabilities Documents.sampleParse
             (Documents.document
                [Documents.audioSection; Documents.videoSection])))).
Proof.
  exact (proj1 (payload_types_distinct_last_wins Documents.sampleParse
                  (Documents.document
                     [Documents.audioSection; Documents.videoSection]))).
Defined.

(** The two sample sections together: payload type 96, first a
    telephone-event of the audio section, is the VP8 of the video section, in
    second place, and the feedback line of the video section for 111 is on
    the opus codec of the audio section. *)
Example extractCapabilities_two_sections :
  map (fun c => (Codec.preferredPayloadType c, Codec.mimeType c,
                 Codec.parameters c, Codec.rtcpFeedback c))
    (RtpCapabilities.codecs
       (extractCapabilities Documents.sampleParse
          (Documents.document
             [Documents.audioSection; Documents.videoSection])))
  = [(111, "audio/opus", [("config", VStr "useinbandfec=1")],
      [ {| RtcpFeedback.parameter := EmptyString; RtcpFeedback.type := "nack" |} ]);
     (96, "video/VP8", [],
      [ {| RtcpFeedback.parameter := "fir"; RtcpFeedback.type := "ccm" |} ])].
Proof. reflexivity. Qed.

(** *** Header extensions *)

Lemma Subseq_app_r {A : Type} (l1 l2 l3 : list A) :
  Subseq l1 l2 -> Subseq l1 (l2 ++ l3).
Proof.
  intros Hs. induction Hs; simpl; constructor; assumption.
Qed.

Lemma Subseq_snoc {A : Type} (l1 l2 : list A) (x : A) :
  Subseq l1 l2 -> Subseq (l1 ++ [x]) (l2 ++ [x]).
Proof.
  intros Hs. induction Hs as [l| |]; simpl.
  - induction l; simpl; constructor. constructor. assumption.
  - constructor. assumption.
  - constructor. assumption.
Qed.

Lemma find_snoc {A : Type} (f : A -> bool) (l : list A) (x : A) :
  find f (l ++ [x])
  = match find f l with
    | Some y => Some y
    | None => if f x then Some x else None
    end.
Proof.
  induction l as [|a l IH]; simpl; [reflexivity|].
  destruct (f a); [reflexivity | exact IH].
Qed.

Lemma sameExtension_key (kind uri : string) (e : HeaderExtension.t) :
  sameExtension kind uri e = true <-> extensionKey e = (kind, uri).
Proof.
  unfold sameExtension, extensionKey, strictEq.
  destruct (eq_dec kind (HeaderExtension.kind e)),
    (eq_dec uri (HeaderExtension.uri e)); simpl;
    split; intros Heq; try discriminate; try congruence.
Qed.

Lemma find_sameExtension_In (kind uri : string) (l : list HeaderExtension.t) :
  (exists e, find (sameExtension kind uri) l = Some e)
  <-> In (kind, uri) (map extensionKey l).
Proof.
  split.
  - intros [e He]. apply find_some in He. destruct He as [Hin Hs].
    apply sameExtension_key in Hs. rewrite <- Hs. apply in_map. exact Hin.
  - intros Hin. apply in_map_iff in Hin. destruct Hin as [e [Hk Hin]].
    destruct (find (sameExtension kind uri) l) as [e'|] eqn:Hf; [eauto|].
    apply sameExtension_key in Hk.
    rewrite (find_none _ _ Hf e Hin) in Hk. discriminate.
Qed.

Lemma keepFirst_find (l : list HeaderExtension.t) (kind uri : string) :
  find (sameExtension kind uri) (fold_left keepFirst l [])
  = find (sameExtension kind uri) l.
Proof.
  induction l as [|x l IH] using rev_ind; [reflexivity|].
  rewrite fold_left_snoc, find_snoc. unfold keepFirst at 1.
  destruct (find (sameExtension (HeaderExtension.kind x) (HeaderExtension.uri x))
              (fold_left keepFirst l [])) as [y|] eqn:Hx.
  - rewrite IH.
    destruct (find (sameExtension kind uri) l) eqn:Hl; [reflexivity|].
    destruct (sameExtension kind uri x) eqn:Hs; [|reflexivity].
    apply sameExtension_key in Hs. unfold extensionKey in Hs.
    inversion Hs; subst kind uri.
    rewrite <- IH in Hl. congruence.
  - rewrite find_snoc, IH. reflexivity.
Qed.

Lemma keepFirst_NoDup (l : list HeaderExtension.t) :
  NoDup (map extensionKey (fold_left keepFirst l [])).
Proof.
  induction l as [|x l IH] using rev_ind; [constructor|].
  rewrite fold_left_snoc. unfold keepFirst at 1.
  destruct (find _ (fold_left keepFirst l [])) as [y|] eqn:Hx; [exact IH|].
  rewrite map_app. simpl.
  apply NoDup_rev in IH. rewrite <- (rev_involutive (_ ++ _)).
  apply NoDup_rev. rewrite rev_unit. constructor; [|exact IH].
  rewrite <- in_rev. intros Hin.
  apply find_sameExtension_In in Hin. destruct Hin as [e He]. congruence.
Qed.

Lemma keepFirst_Subseq (l : list HeaderExtension.t) :
  Subseq (fold_left keepFirst l []) l.
Proof.
  induction l as [|x l IH] using rev_ind; [constructor|].
  rewrite fold_left_snoc. unfold keepFirst at 1.
  destruct (find _ (fold_left keepFirst l [])).
  - apply Subseq_app_r. exact IH.
  - apply Subseq_snoc. exact IH.
Qed.

Lemma fold_left_map {A B C : Type} (f : A -> C -> A) (g : B -> C)
    (l : list B) (a : A) :
  fold_left f (map g l) a = fold_left (fun acc b => f acc (g b)) l a.
Proof.
  revert a. induction l as [|x l IH]; intros a; simpl; [reflexivity | apply IH].
Qed.

Section HeaderExtensions.
Variable parseFmtpConfig : string -> Params.

(** The extracted header extensions are the declared lines, each kept
    unless its (kind, uri) is already there. *)
Lemma headerExtensions_keepFirst (media : list Media.t) :
  snd (capabilitiesState parseFmtpConfig media)
  = fold_left keepFirst (declaredExtensions media) [].
Proof.
  induction media as [|m l IH] using rev_ind; [reflexivity|].
  rewrite capabilitiesState_snoc. unfold declaredExtensions.
  rewrite flat_map_app, fold_left_app. simpl. rewrite app_nil_r.
  fold (declaredExtensions l). rewrite <- IH.
  unfold capabilitiesStep.
  destruct (isAudioOrVideo (Media.type m)); simpl; [|reflexivity].
  rewrite fold_left_map. reflexivity.
Qed.

(** C6, as the code has it: the extracted header extensions have one entry
    for each distinct (kind, uri) declared in an audio or video section,
    which is the first declared one, in first-seen order; under any
    reordering of the declared entries the (kind, uri) pairs of the result
    stay the same, while the entry kept for a pair is the one that comes
    first in the reordered input. *)
Theorem header_extensions_first_declared (sdpObject : Sdp.t) :
  let extracted :=
    RtpCapabilities.headerExtensions
      (extractCapabilities parseFmtpConfig sdpObject) in
  let declared := declaredExtensions (Sdp.media sdpObject) in
  NoDup (map extensionKey extracted) /\
  (forall kind uri,
      find (sameExtension kind uri) extracted
      = find (sameExtension kind uri) declared) /\
  Subseq extracted declared /\
  (forall sdpObject',
      Permutation declared (declaredExtensions (Sdp.media sdpObject')) ->
      Permutation (map extensionKey extracted)
        (map extensionKey
           (RtpCapabilities.headerExtensions
              (extractCapabilities parseFmtpConfig sdpObject')))).
Proof.
  simpl. rewrite headerExtensions_keepFirst.
  split; [apply keepFirst_NoDup|].
  split; [intros; apply keepFirst_find|].
  split; [apply keepFirst_Subseq|].
  intros sdpObject' Hperm. rewrite headerExtensions_keepFirst.
  apply NoDup_Permutation; try apply keepFirst_NoDup.
  intros [kind uri].
  rewrite <- !find_sameExtension_In, !keepFirst_find, !find_sameExtension_In.
  split; apply Permutation_in; apply Permutation_map;
    [exact Hperm | apply Permutation_sym; exact Hperm].
Qed.
End HeaderExtensions.

Lemma header_extensions_first_declared_witness :
  Permutation
    (map extensionKey
       (RtpCapabilities.headerExtensions
          (extractCapabilities Documents.sampleParse
             (Documents.document
                [Documents.audioSection;
                 Documents.withExtensions
                   [Documents.toffset 2; Documents.toffset 3]]))))
    (map extensionKey
       (RtpCapabilities.headerExtensions
          (extractCapabilities Documents.sampleParse
             (Documents.document
                [Documents.withExtensions
                   [Documents.toffset 3; Documents.toffset 2];
                 Documents.audioSection])))).
Proof.
  apply (proj2 (proj2 (proj2
           (header_extensions_first_declared Documents.sampleParse
              (Documents.document
                 [Documents.audioSection;
                  Documents.withExtensions
                    [Documents.toffset 2; Documents.toffset 3]]))))).
  simpl. unfold extensionOf. simpl.
  apply (Permutation_rev [_; _; _]).
Defined.

(** C6 fails as stated: with the two lines [toffset] of ids 2 and 3 in one
    video section, exchanging them changes the extracted entry from id 2 to
    id 3. *)
Lemma exchange_of_duplicates_changes_result :
  ~ unchangedByExchange Documents.sampleParse
      (Documents.document
         [Documents.withExtensions [Documents.toffset 2; Documents.toffset 3]])
      (Documents.document
         [Documents.withExtensions [Documents.toffset 3; Documents.toffset 2]]).
Proof.
  intros Hstated.
  assert (Hex : duplicatesExchanged
                  (declaredExtensions
                     [Documents.withExtensions
                        [Documents.toffset 2; Documents.toffset 3]])
                  (declaredExtensions
                     [Documents.withExtensions
                        [Documents.toffset 3; Documents.toffset 2]])).
  { exists [], (extensionOf "video" (Documents.toffset 2)), [],
      (extensionOf "video" (Documents.toffset 3)), [].
    repeat split. }
  apply Hstated in Hex. vm_compute in Hex. discriminate.
Qed.

(** *** Track infos *)

Lemma JsSet_has_In {K : Type} `{EqDec K} (s : JsSet.t K) (x : K) :
  JsSet.has s x = true <-> In x s.
Proof.
  induction s as [|y s IH]; simpl.
  - split; [discriminate | tauto].
  - destruct (eq_dec x y) as [->|Hne].
    + tauto.
    + rewrite IH. split; [tauto | intros [Hy|Hs]; [congruence | exact Hs]].
Qed.

Lemma JsSet_In_add {K : Type} `{EqDec K} (s : JsSet.t K) (x y : K) :
  In y (JsSet.add s x) <-> In y s \/ y = x.
Proof.
  unfold JsSet.add. destruct (JsSet.has s x) eqn:Hh.
  - apply JsSet_has_In in Hh. split; [tauto | intros [Hy| ->]; assumption].
  - rewrite in_app_iff. simpl. split; [intros [Hy|[Hy|[]]]; auto | intros [Hy|Hy]; auto].
Qed.

Lemma JsMap_In_set {K V : Type} `{EqDec K} (m : JsMap.t K V) k v k' v' :
  In (k', v') (JsMap.set m k v) -> (k', v') = (k, v) \/ In (k', v') m.
Proof.
  induction m as [|[k0 v0] m IH]; simpl.
  - intros [Heq|[]]. left. congruence.
  - destruct (eq_dec k k0) as [->|Hne]; simpl.
    + intros [Heq|Hin]; [left; congruence | right; right; exact Hin].
    + intros [Heq|Hin]; [right; left; exact Heq|].
      destruct (IH Hin); [left | right; right]; assumption.
Qed.

Lemma JsMap_get_set_cases {K V : Type} `{EqDec K} (m : JsMap.t K V) k v k' v' :
  JsMap.get (JsMap.set m k v) k' = Some v' -> v' = v \/ JsMap.get m k' = Some v'.
Proof.
  destruct (eq_dec k' k) as [->|Hne].
  - rewrite get_set_same. intros Heq. left. congruence.
  - rewrite get_set_other by exact Hne. auto.
Qed.

Lemma applyAttribute_ssrc (info : TrackInfo.t) (o : Ssrc.t) :
  TrackInfo.ssrc (applyAttribute info o) = TrackInfo.ssrc info /\
  TrackInfo.rtxSsrc (applyAttribute info o) = TrackInfo.rtxSsrc info /\
  TrackInfo.kind (applyAttribute info o) = TrackInfo.kind info.
Proof.
  unfold applyAttribute.
  destruct (String.eqb _ "cname"); [simpl; auto|].
  destruct (String.eqb _ "msid"); [simpl; auto|].
  destruct (String.eqb _ "mslabel"); [simpl; auto|].
  destruct (String.eqb _ "label"); simpl; auto.
Qed.

Section TrackInfos.
Variable Number : string -> jsnum.

Lemma ssrcGroupStep_inv (st : TrackState) (g : SsrcGroup.t)
    (seen : list (option jsnum)) :
  pairingInv st seen ->
  pairingInv (ssrcGroupStep Number st g)
    (seen ++
     map (fun g =>
            nth_error (map Number (JsString.split " " (SsrcGroup.ssrcs g))) 1)
       (filter (fun g => String.eqb (SsrcGroup.semantics g) "FID") [g])) /\
  infos (ssrcGroupStep Number st g) = infos st.
Proof.
  intros [Hset Hmap]. unfold ssrcGroupStep. cbn [filter].
  destruct (String.eqb (SsrcGroup.semantics g) "FID");
    cbn [negb map rtxSet rtxMap infos].
  - split; [|reflexivity]. split.
    + intros x. cbn [rtxSet]. rewrite JsSet_In_add, in_app_iff, Hset.
      cbn [In].
      split; [intros [Hx| ->]; auto | intros [Hx|[Hx|[]]]; auto].
    + intros k v Hg. cbn [rtxMap] in Hg. apply JsMap_get_set_cases in Hg.
      apply in_app_iff. destruct Hg as [->|Hg]; [right; left; reflexivity|].
      left. exact (Hmap k v Hg).
  - rewrite app_nil_r. split; [split; assumption | reflexivity].
Qed.

Lemma ssrcGroups_inv (gs : list SsrcGroup.t) (st : TrackState)
    (seen : list (option jsnum)) :
  pairingInv st seen ->
  pairingInv (fold_left (ssrcGroupStep Number) gs st)
    (seen ++
     map (fun g =>
            nth_error (map Number (JsString.split " " (SsrcGroup.ssrcs g))) 1)
       (filter (fun g => String.eqb (SsrcGroup.semantics g) "FID") gs)) /\
  infos (fold_left (ssrcGroupStep Number) gs st) = infos st.
Proof.
  revert st seen. induction gs as [|g gs IH]; intros st seen Hinv.
  - simpl. rewrite app_nil_r. auto.
  - destruct (ssrcGroupStep_inv st g seen Hinv) as [H1 H2].
    destruct (IH _ _ H1) as [H3 H4].
    change (fold_left (ssrcGroupStep Number) (g :: gs) st)
      with (fold_left (ssrcGroupStep Number) gs (ssrcGroupStep Number st g)).
    rewrite H4, H2. split; [|reflexivity].
    change (g :: gs) with ([g] ++ gs). rewrite filter_app, map_app, app_assoc.
    exact H3.
Qed.

Lemma ssrcStep_inv (kind : string) (media : list Media.t) (m : Media.t)
    (st : TrackState) (o : Ssrc.t) :
  In (Ssrc.id o) (declaredSsrcs m) ->
  pairingInv st (flat_map (rtxSsrcsOf Number) (media ++ [m])) ->
  infosInv Number (media ++ [m]) st (flat_map (rtxSsrcsOf Number) (media ++ [m])) ->
  pairingInv (ssrcStep kind st o) (flat_map (rtxSsrcsOf Number) (media ++ [m])) /\
  infosInv Number (media ++ [m]) (ssrcStep kind st o)
    (flat_map (rtxSsrcsOf Number) (media ++ [m])).
Proof.
  intros Hdecl Hpair Hinfos. unfold ssrcStep.
  destruct (JsSet.has (rtxSet st) (Some (JNum (Ssrc.id o)))) eqn:Hhas;
    [auto|].
  assert (Hnot : ~ In (Some (JNum (Ssrc.id o)))
                   (flat_map (rtxSsrcsOf Number) (media ++ [m]))).
  { intros Hin. apply (proj1 Hpair) in Hin. apply JsSet_has_In in Hin.
    congruence. }
  assert (Hcreated : declaredUnpaired Number (media ++ [m]) (Ssrc.id o)).
  { exists media, m, []. split; [reflexivity|]. split; [exact Hdecl|].
    intros m' Hm' Hin. apply Hnot. apply in_flat_map. eauto. }
  destruct (JsMap.get (infos st) (Ssrc.id o)) as [info|] eqn:Hget.
  - split; [exact Hpair|]. intros s i Hin. simpl in Hin.
    apply JsMap_In_set in Hin. destruct Hin as [Heq|Hin]; [|exact (Hinfos s i Hin)].
    inversion Heq; subst s i.
    destruct (Hinfos _ _ (get_In _ _ _ Hget)) as [Hs [Hr _]].
    destruct (applyAttribute_ssrc info o) as [-> [-> _]].
    auto.
  - split; [exact Hpair|]. intros s i Hin. simpl in Hin.
    apply JsMap_In_set in Hin. destruct Hin as [Heq|Hin].
    + inversion Heq; subst s i.
      match goal with
      | |- context [applyAttribute ?info o] =>
          destruct (applyAttribute_ssrc info o) as [-> [-> _]]
      end.
      simpl. split; [reflexivity|]. split; [|exact Hcreated].
      intros x Hx. unfold rtxOf in Hx.
      destruct (JsMap.get (rtxMap st) (Some (JNum (Ssrc.id o)))) as [v|] eqn:Hm;
        [|discriminate].
      subst v. exact (proj2 Hpair _ _ Hm).
    + apply JsMap_In_set in Hin. destruct Hin as [Heq|Hin]; [|exact (Hinfos s i Hin)].
      inversion Heq; subst s i. simpl.
      split; [reflexivity|]. split; [|exact Hcreated].
      intros x Hx. unfold rtxOf in Hx.
      destruct (JsMap.get (rtxMap st) (Some (JNum (Ssrc.id o)))) as [v|] eqn:Hm;
        [|discriminate].
      subst v. exact (proj2 Hpair _ _ Hm).
Qed.

Lemma ssrcs_inv (kind : string) (media : list Media.t) (m : Media.t)
    (l : list Ssrc.t) (st : TrackState) :
  (forall o, In o l -> In (Ssrc.id o) (declaredSsrcs m)) ->
  pairingInv st (flat_map (rtxSsrcsOf Number) (media ++ [m])) ->
  infosInv Number (media ++ [m]) st (flat_map (rtxSsrcsOf Number) (media ++ [m])) ->
  pairingInv (fold_left (ssrcStep kind) l st)
    (flat_map (rtxSsrcsOf Number) (media ++ [m])) /\
  infosInv Number (media ++ [m]) (fold_left (ssrcStep kind) l st)
    (flat_map (rtxSsrcsOf Number) (media ++ [m])).
Proof.
  revert st. induction l as [|o l IH]; intros st Hl Hpair Hinfos.
  - auto.
  - simpl.
    destruct (ssrcStep_inv kind media m st o (Hl o (or_introl eq_refl)) Hpair Hinfos)
      as [H1 H2].
    apply IH; [|exact H1|exact H2].
    intros o' Ho'. apply Hl. right. exact Ho'.
Qed.

Lemma declaredUnpaired_snoc (media : list Media.t) (m : Media.t) (s : Z) :
  declaredUnpaired Number media s -> declaredUnpaired Number (media ++ [m]) s.
Proof.
  intros [pre [m0 [post [Heq [Hd Hn]]]]].
  exists pre, m0, (post ++ [m]). split; [|auto].
  rewrite Heq, <- app_assoc. reflexivity.
Qed.

Lemma trackState_snoc (media : list Media.t) (m : Media.t) :
  trackState Number (media ++ [m])
  = trackStep Number (trackState Number media) m.
Proof. unfold trackState. apply fold_left_snoc. Qed.

(** The state of [extractTrackInfos] after the sections [media]. *)
Lemma trackState_inv (media : list Media.t) :
  pairingInv (trackState Number media) (flat_map (rtxSsrcsOf Number) media) /\
  infosInv Number media (trackState Number media) (flat_map (rtxSsrcsOf Number) media).
Proof.
  induction media as [|m media IH] using rev_ind.
  - split.
    + split; [intros x; simpl; tauto | intros k v Hg; discriminate].
    + intros s i [].
  - destruct IH as [Hpair Hinfos]. rewrite trackState_snoc.
    assert (Hlift : infosInv Number (media ++ [m]) (trackState Number media)
                      (flat_map (rtxSsrcsOf Number) (media ++ [m]))).
    { intros s i Hin. destruct (Hinfos s i Hin) as [Hs [Hr Hc]].
      split; [exact Hs|]. split.
      - intros x Hx. rewrite flat_map_app, in_app_iff. left. auto.
      - apply declaredUnpaired_snoc. exact Hc. }
    unfold trackStep.
    destruct (isAudioOrVideo (Media.type m)) eqn:Hav; simpl.
    + destruct (ssrcGroups_inv (orEmpty (Media.ssrcGroups m)) _ _ Hpair)
        as [Hpair1 Hsame].
      assert (Hseen : flat_map (rtxSsrcsOf Number) (media ++ [m])
                      = flat_map (rtxSsrcsOf Number) media ++
                        map (fun g =>
                               nth_error
                                 (map Number
                                    (JsString.split " " (SsrcGroup.ssrcs g))) 1)
                          (filter
                             (fun g => String.eqb (SsrcGroup.semantics g) "FID")
                             (orEmpty (Media.ssrcGroups m)))).
      { rewrite flat_map_app. cbn [flat_map]. rewrite app_nil_r. f_equal.
        unfold rtxSsrcsOf. rewrite Hav. reflexivity. }
      rewrite <- Hseen in Hpair1.
      apply ssrcs_inv.
      * intros o Ho. unfold declaredSsrcs. rewrite Hav.
        apply in_map. exact Ho.
      * exact Hpair1.
      * intros s i Hin. rewrite Hsame in Hin. exact (Hlift s i Hin).
    + assert (Hseen : flat_map (rtxSsrcsOf Number) (media ++ [m])
                      = flat_map (rtxSsrcsOf Number) media).
      { rewrite flat_map_app. cbn [flat_map].
        assert (Hm : rtxSsrcsOf Number m = [])
          by (unfold rtxSsrcsOf; rewrite Hav; reflexivity).
        rewrite Hm, !app_nil_r. reflexivity. }
      split; [rewrite Hseen; exact Hpair | exact Hlift].
Qed.

(** C7, as the code has it: an entry of the track infos has an SSRC with
    per-source attributes in some audio or video section, which neither that
    section nor an earlier one names second in a FID group, whatever the
    order of groups and attributes inside a section; an [rtxSsrc] of the
    result is named second by a FID group of the document; hence, when no
    FID group names second an SSRC that has attributes in an earlier section,
    no entry's [ssrc] is the [rtxSsrc] of an entry. *)
Theorem rtx_ssrc_never_an_entry (sdpObject : Sdp.t) :
  (forall i,
      In i (JsMap.values (extractTrackInfos Number sdpObject)) ->
      declaredUnpaired Number (Sdp.media sdpObject) (TrackInfo.ssrc i)) /\
  (forall j x,
      In j (JsMap.values (extractTrackInfos Number sdpObject)) ->
      TrackInfo.rtxSsrc j = Some x ->
      exists m,
        In m (Sdp.media sdpObject) /\ In (Some x) (rtxSsrcsOf Number m)) /\
  (noPairingAfterAttributes Number (Sdp.media sdpObject) ->
   noEntryForRtxSsrc Number sdpObject).
Proof.
  destruct (trackState_inv (Sdp.media sdpObject)) as [_ Hinfos].
  assert (HA : forall i,
             In i (JsMap.values (extractTrackInfos Number sdpObject)) ->
             declaredUnpaired Number (Sdp.media sdpObject) (TrackInfo.ssrc i)).
  { intros i Hi. apply in_map_iff in Hi. destruct Hi as [[s i'] [Heq Hin]].
    simpl in Heq. subst i'. destruct (Hinfos s i Hin) as [-> [_ Hc]]. exact Hc. }
  assert (HB : forall j x,
             In j (JsMap.values (extractTrackInfos Number sdpObject)) ->
             TrackInfo.rtxSsrc j = Some x ->
             exists m,
               In m (Sdp.media sdpObject) /\ In (Some x) (rtxSsrcsOf Number m)).
  { intros j x Hj Hx. apply in_map_iff in Hj. destruct Hj as [[s j'] [Heq Hin]].
    simpl in Heq. subst j'. destruct (Hinfos s j Hin) as [_ [Hr _]].
    apply Hr in Hx. apply in_flat_map in Hx. exact Hx. }
  split; [exact HA|]. split; [exact HB|].
  intros Hno i j Hi Hj Hrtx.
  destruct (HB j _ Hj Hrtx) as [m' [Hm' Hin']].
  destruct (HA i Hi) as [pre [m [post [Heq [Hd Hn]]]]].
  rewrite Heq in Hm'.
  replace (pre ++ m :: post) with ((pre ++ [m]) ++ post) in Hm'
    by (rewrite <- app_assoc; reflexivity).
  apply in_app_iff in Hm'. destruct Hm' as [Hm'|Hm'].
  - exact (Hn m' Hm' Hin').
  - exact (Hno pre m post Heq _ Hd m' Hm' Hin').
Qed.
End TrackInfos.

(** The scenario of SSRC 111 paired with 222 in one section: one entry, for
    111, carrying the retransmission SSRC. *)
Example extractTrackInfos_paired :
  extractTrackInfos Documents.decimalNumber Documents.paired
  = [(111,
      {| TrackInfo.kind := "video";
         TrackInfo.rtxSsrc := Some (JNum 222);
         TrackInfo.ssrc := 111;
         TrackInfo.cname := None;
         TrackInfo.streamId := Some "stream1";
         TrackInfo.trackId := Some "track1" |})].
Proof. reflexivity. Qed.

Lemma rtx_ssrc_never_an_entry_witness :
  noEntryForRtxSsrc Documents.decimalNumber Documents.paired.
Proof.
  apply (proj2 (proj2
           (rtx_ssrc_never_an_entry Documents.decimalNumber Documents.paired))).
  intros pre m post Heq s Hs m' Hm'.
  destruct pre as [|a pre]; simpl in Heq.
  - inversion Heq; subst. contradiction.
  - destruct pre; discriminate.
Defined.

(** C7 fails as stated: when SSRC 222 has attributes in the first section and
    the FID group "111 222" comes in the second, the result has an entry for
    222 and an entry for 111 whose [rtxSsrc] is 222. *)
Lemma rtx_ssrc_of_later_group_is_an_entry :
  ~ noEntryForRtxSsrc Documents.decimalNumber Documents.pairedLater.
Proof.
  intros Hstated.
  apply (Hstated
           {| TrackInfo.kind := "video"; TrackInfo.rtxSsrc := None;
              TrackInfo.ssrc := 222; TrackInfo.cname := Some "a";
              TrackInfo.streamId := None; TrackInfo.trackId := None |}
           {| TrackInfo.kind := "video"; TrackInfo.rtxSsrc := Some (JNum 222);
              TrackInfo.ssrc := 111; TrackInfo.cname := Some "b";
              TrackInfo.streamId := None; TrackInfo.trackId := None |}).
  - vm_compute. left. reflexivity.
  - vm_compute. right. left. reflexivity.
  - reflexivity.
Qed.

(** *** ICE candidates, ICE parameters and DTLS parameters in detail *)

Lemma fold_candidateStep (cs : list Candidate.t) (acc : list IceCandidate.t) :
  fold_left candidateStep cs acc
  = acc ++ map candidateOf (filter (fun c => Candidate.component c =? 1) cs).
Proof.
  revert acc. induction cs as [|c cs IH]; intros acc; simpl.
  - rewrite app_nil_r. reflexivity.
  - rewrite IH. unfold candidateStep.
    destruct (Candidate.component c =? 1); simpl.
    + rewrite <- app_assoc. reflexivity.
    + reflexivity.
Qed.

(** X1: the ICE candidates returned are those of the first active section
    whose component is 1, in the order of the section, with the transport in
    lower case and the other fields as they are. *)
Theorem ice_candidates_are_component_one (sdpObject : Sdp.t) (m : Media.t)
    (cs : list Candidate.t) :
  getFirstActiveMediaSection sdpObject = Some m ->
  Media.candidates m = Some cs ->
  extractIceCandidates sdpObject
  = Return (map candidateOf (filter (fun c => Candidate.component c =? 1) cs)).
Proof.
  intros Hm Hcs. unfold extractIceCandidates. rewrite Hm. simpl.
  rewrite Hcs. simpl. rewrite fold_candidateStep. reflexivity.
Qed.

(** X2: when the first active section has no candidate list, the candidate
    extraction throws, while the ICE parameters of the same document are
    returned. *)
Theorem ice_candidates_missing_list_throws (sdpObject : Sdp.t) (m : Media.t) :
  getFirstActiveMediaSection sdpObject = Some m ->
  Media.candidates m = None ->
  extractIceCandidates sdpObject = Throw TypeError /\
  exists parameters, extractIceParameters sdpObject = Return parameters.
Proof.
  intros Hm Hcs. unfold extractIceCandidates, extractIceParameters.
  rewrite Hm. simpl. rewrite Hcs. simpl. split; [reflexivity|]. eauto.
Qed.

Lemma lowerAscii_idempotent (c : ascii) :
  JsString.lowerAscii (JsString.lowerAscii c) = JsString.lowerAscii c.
Proof.
  destruct c as [[] [] [] [] [] [] [] []]; reflexivity.
Qed.

Lemma toLowerCase_idempotent (s : string) :
  JsString.toLowerCase (JsString.toLowerCase s) = JsString.toLowerCase s.
Proof.
  induction s as [|c s IH]; simpl; [reflexivity|].
  rewrite lowerAscii_idempotent, IH. reflexivity.
Qed.

(** X3: every returned candidate has component 1 in the document and a
    protocol that is already in lower case; no more candidates are returned
    than the active section has. *)
Theorem ice_candidates_lower_case (sdpObject : Sdp.t)
    (candidates : list IceCandidate.t) :
  extractIceCandidates sdpObject = Return candidates ->
  exists m cs,
    getFirstActiveMediaSection sdpObject = Some m /\
    Media.candidates m = Some cs /\
    (List.length candidates <= List.length cs)%nat /\
    forall candidate,
      In candidate candidates ->
      JsString.toLowerCase (IceCandidate.protocol candidate)
      = IceCandidate.protocol candidate /\
      exists c,
        In c cs /\ Candidate.component c = 1 /\ candidate = candidateOf c.
Proof.
  unfold extractIceCandidates.
  destruct (getFirstActiveMediaSection sdpObject) as [m|]; [|discriminate].
  simpl. destruct (Media.candidates m) as [cs|] eqn:Hcs; [|discriminate].
  simpl. rewrite fold_candidateStep. simpl. intros Hr. inversion Hr; subst.
  exists m, cs. split; [reflexivity|]. split; [exact Hcs|]. split.
  - rewrite length_map. apply filter_length_le.
  - intros candidate Hin. apply in_map_iff in Hin.
    destruct Hin as [c [<- Hc]]. apply filter_In in Hc.
    destruct Hc as [Hc Hcomp]. split.
    + apply toLowerCase_idempotent.
    + exists c. split; [exact Hc|]. split; [|reflexivity].
      apply Z.eqb_eq. exact Hcomp.
Qed.

(** X4: the ICE parameters returned always carry a non-empty user fragment,
    that of a section with a nonzero port, and [icelite] is true exactly when
    the session-level marker is "ice-lite". *)
Theorem ice_parameters_fragment_not_empty (sdpObject : Sdp.t)
    (parameters : IceParameters.t) :
  extractIceParameters sdpObject = Return parameters ->
  (exists u, IceParameters.usernameFragment parameters = Some u /\ u <> EmptyString) /\
  (exists m,
      In m (Sdp.media sdpObject) /\ Media.port m <> 0 /\
      IceParameters.usernameFragment parameters = Media.iceUfrag m /\
      IceParameters.password parameters = Media.icePwd m) /\
  (IceParameters.icelite parameters = true
   <-> Sdp.icelite sdpObject = Some "ice-lite").
Proof.
  unfold extractIceParameters.
  destruct (getFirstActiveMediaSection sdpObject) as [m|] eqn:Hm; [|discriminate].
  simpl. intros Hr. inversion Hr; subst; simpl.
  unfold getFirstActiveMediaSection in Hm. apply find_some in Hm.
  destruct Hm as [Hin Hact]. apply isActive_spec in Hact.
  destruct Hact as [Hu Hp]. split; [exact Hu|]. split.
  - exists m. auto.
  - unfold strictEq. destruct (eq_dec (Sdp.icelite sdpObject) (Some "ice-lite")).
    + tauto.
    + split; [discriminate | contradiction].
Qed.

(** X5: the DTLS extraction throws exactly when the document has no active
    section, or when neither the active section nor the session has a
    fingerprint; the setup value plays no part in it. *)
Theorem dtls_extraction_throws_iff (sdpObject : Sdp.t) :
  extractDtlsParameters sdpObject = Throw TypeError
  <-> getFirstActiveMediaSection sdpObject = None \/
      exists m,
        getFirstActiveMediaSection sdpObject = Some m /\
        Media.fingerprint m = None /\
        Sdp.fingerprint sdpObject = None.
Proof.
  unfold extractDtlsParameters.
  destruct (getFirstActiveMediaSection sdpObject) as [m|]; simpl.
  - destruct (Media.fingerprint m) as [f|] eqn:Hf; simpl.
    + split; [discriminate|].
      intros [H|[m' [H [H' _]]]]; [discriminate|]. inversion H; subst. congruence.
    + destruct (Sdp.fingerprint sdpObject) as [f|]; simpl.
      * split; [discriminate|].
        intros [H|[m' [_ [_ H]]]]; discriminate.
      * split; [|reflexivity]. intros _. right. exists m. auto.
  - split; [auto | reflexivity].
Qed.

(** X6: a returned DTLS record has exactly one fingerprint, the one of the
    active section when it has one and the session-level one otherwise, and
    its role is client, server, auto or undefined. *)
Theorem dtls_record_shape (sdpObject : Sdp.t) (parameters : DtlsParameters.t) :
  extractDtlsParameters sdpObject = Return parameters ->
  exists m f,
    getFirstActiveMediaSection sdpObject = Some m /\
    fingerprintOf sdpObject m = Some f /\
    (forall f', Media.fingerprint m = Some f' -> f = f') /\
    DtlsParameters.fingerprints parameters
    = [ {| DtlsFingerprint.algorithm := Fingerprint.type f;
           DtlsFingerprint.value := Fingerprint.hash f |} ] /\
    (DtlsParameters.role parameters = None \/
     DtlsParameters.role parameters = Some "client" \/
     DtlsParameters.role parameters = Some "server" \/
     DtlsParameters.role parameters = Some "auto").
Proof.
  unfold extractDtlsParameters.
  destruct (getFirstActiveMediaSection sdpObject) as [m|]; [|discriminate].
  simpl.
  destruct (fingerprintOf sdpObject m) as [f|] eqn:Hf;
    unfold fingerprintOf in Hf; rewrite Hf; simpl; [|discriminate].
  intros Hr. inversion Hr; subst; simpl.
  exists m, f. split; [reflexivity|]. split; [exact Hf|]. split.
  - intros f' Hf'. rewrite Hf' in Hf. congruence.
  - split; [reflexivity|].
    unfold roleOfSetup. destruct (Media.setup m) as [s|]; [|auto].
    destruct (String.eqb s "active"); [auto|].
    destruct (String.eqb s "passive"); [auto|].
    destruct (String.eqb s "actpass"); auto.
Qed.

(** *** Order of the keys of a [Map] *)

Section KeyOrder.
Context {K : Type} `{EqDec K}.

Lemma strictEq_true (x y : K) : strictEq x y = true <-> x = y.
Proof.
  unfold strictEq. destruct (eq_dec x y); split; congruence.
Qed.

Lemma JsMap_has_keys {V : Type} (m : JsMap.t K V) (k : K) :
  JsMap.has m k = JsSet.has (JsMap.keys m) k.
Proof.
  unfold JsMap.has. induction m as [|[k' v'] m IH]; simpl; [reflexivity|].
  destruct (eq_dec k k'); [reflexivity | exact IH].
Qed.

Lemma keys_set_add {V : Type} (m : JsMap.t K V) (k : K) (v : V) :
  JsMap.keys (JsMap.set m k v) = JsSet.add (JsMap.keys m) k.
Proof.
  rewrite keys_set, JsMap_has_keys. reflexivity.
Qed.

Lemma filter_filter_and {A : Type} (f g : A -> bool) (l : list A) :
  filter f (filter g l) = filter (fun x => (g x && f x)%bool) l.
Proof.
  induction l as [|x l IH]; simpl; [reflexivity|].
  destruct (g x); simpl; [|exact IH].
  destruct (f x); rewrite IH; reflexivity.
Qed.

(** Adding the elements of [l] to a set one after the other appends the new
    ones in the order of their first occurrence. *)
Lemma fold_add_firstSeen (l : list K) (acc : JsSet.t K) :
  fold_left JsSet.add l acc
  = acc ++ filter (fun y => negb (JsSet.has acc y)) (firstSeen l).
Proof.
  revert acc. induction l as [|x l IH]; intros acc.
  - simpl. rewrite app_nil_r. reflexivity.
  - cbn [fold_left firstSeen filter]. rewrite IH. unfold JsSet.add.
    destruct (JsSet.has acc x) eqn:Hx; cbn [negb].
    + f_equal. rewrite filter_filter_and. apply filter_ext_in.
      intros y _. destruct (strictEq y x) eqn:Hy; [|reflexivity].
      apply strictEq_true in Hy. subst y. rewrite Hx. reflexivity.
    + rewrite <- app_assoc. cbn [app]. f_equal. f_equal.
      rewrite filter_filter_and. apply filter_ext_in.
      intros y _.
      assert (Hhas : JsSet.has (acc ++ [x]) y
                     = (JsSet.has acc y || strictEq y x)%bool).
      { clear. induction acc as [|a acc IHa]; simpl.
        - unfold strictEq. destruct (eq_dec y x); reflexivity.
        - destruct (eq_dec y a); [reflexivity | exact IHa]. }
      rewrite Hhas. destruct (JsSet.has acc y), (strictEq y x); reflexivity.
Qed.

Lemma fold_add_empty (l : list K) :
  fold_left JsSet.add l JsSet.empty = firstSeen l.
Proof.
  rewrite fold_add_firstSeen. simpl.
  induction (firstSeen l) as [|x r IH]; simpl; [reflexivity|].
  rewrite IH. reflexivity.
Qed.
End KeyOrder.

Lemma fold_left_filter_skip {A B : Type} (step : A -> B -> A) (f : B -> bool)
    (l : list B) (a : A) :
  (forall a x, f x = false -> step a x = a) ->
  fold_left step (filter f l) a = fold_left step l a.
Proof.
  intros Hskip. revert a. induction l as [|x l IH]; intros a; simpl.
  - reflexivity.
  - destruct (f x) eqn:Hf; simpl.
    + apply IH.
    + rewrite (Hskip a x Hf). apply IH.
Qed.

(** *** Media identifiers *)

Lemma get_fold_mids (l : list Media.t)
    (acc : JsMap.t (option string) string) (mid : option string) :
  JsMap.get
    (fold_left (fun midToKind m => JsMap.set midToKind (Media.mid m) (Media.type m))
       l acc) mid
  = match lastWith (fun m => strictEq (Media.mid m) mid) l with
    | Some m => Some (Media.type m)
    | None => JsMap.get acc mid
    end.
Proof.
  induction l as [|x l IH] using rev_ind; [reflexivity|].
  rewrite fold_left_snoc, lastWith_snoc. unfold strictEq.
  destruct (eq_dec (Media.mid x) mid) as [<-|Hne].
  - apply get_set_same.
  - rewrite get_set_other by congruence. exact IH.
Qed.

Lemma keys_fold_mids (l : list Media.t)
    (acc : JsMap.t (option string) string) :
  JsMap.keys
    (fold_left (fun midToKind m => JsMap.set midToKind (Media.mid m) (Media.type m))
       l acc)
  = fold_left JsSet.add (map Media.mid l) (JsMap.keys acc).
Proof.
  revert acc. induction l as [|x l IH]; intros acc; simpl; [reflexivity|].
  rewrite IH, keys_set_add. reflexivity.
Qed.

(** X7: the mid map has one entry for each distinct media identifier of the
    document, sections of every kind and inactive ones included, in the order
    of first occurrence; the kind recorded for an identifier is that of the
    last section that carries it. *)
Theorem mids_first_place_last_kind (sdpObject : Sdp.t) :
  JsMap.keys (extractMids sdpObject)
  = firstSeen (map Media.mid (Sdp.media sdpObject)) /\
  forall mid,
    JsMap.get (extractMids sdpObject) mid
    = option_map Media.type
        (lastWith (fun m => strictEq (Media.mid m) mid) (Sdp.media sdpObject)).
Proof.
  unfold extractMids. split.
  - rewrite keys_fold_mids. apply fold_add_empty.
  - intros mid. rewrite get_fold_mids.
    destruct (lastWith _ _); reflexivity.
Qed.

(** *** Sections that are neither audio nor video *)

(** X8: the sections that are neither audio nor video contribute nothing to
    the RTP capabilities nor to the track infos: removing them from the
    document leaves both results unchanged. *)
Theorem other_sections_ignored (parseFmtpConfig : string -> Params)
    (Number : string -> jsnum) (sdpObject : Sdp.t) :
  extractCapabilities parseFmtpConfig (onlyAudioVideo sdpObject)
  = extractCapabilities parseFmtpConfig sdpObject /\
  extractTrackInfos Number (onlyAudioVideo sdpObject)
  = extractTrackInfos Number sdpObject.
Proof.
  unfold extractCapabilities, extractTrackInfos, capabilitiesState, trackState,
    onlyAudioVideo. simpl. split.
  - rewrite fold_left_filter_skip; [reflexivity|].
    intros a x Hx. unfold capabilitiesStep. rewrite Hx. reflexivity.
  - rewrite fold_left_filter_skip; [reflexivity|].
    intros a x Hx. unfold trackStep. rewrite Hx. reflexivity.
Qed.

(** *** Order of the extracted codecs *)

Section CodecOrder.
Variable parseFmtpConfig : string -> Params.

Lemma keys_registerCodecs_add (kind : string) (rtps : list Rtp.t)
    (reg : JsMap.t Z Codec.t) :
  JsMap.keys (fold_left (registerCodec kind) rtps reg)
  = fold_left JsSet.add (map Rtp.payload rtps) (JsMap.keys reg).
Proof.
  revert reg. induction rtps as [|x l IH]; intros reg; simpl; [reflexivity|].
  rewrite IH. unfold registerCodec. simpl. rewrite keys_set_add. reflexivity.
Qed.

Lemma keys_capabilitiesState (media : list Media.t) :
  JsMap.keys (fst (capabilitiesState parseFmtpConfig media))
  = fold_left JsSet.add
      (map (fun d => Rtp.payload (snd d)) (declaredCodecs media)) JsSet.empty.
Proof.
  induction media as [|m l IH] using rev_ind; [reflexivity|].
  rewrite capabilitiesState_snoc, declaredCodecs_snoc, map_app, fold_left_app.
  rewrite <- IH. unfold capabilitiesStep.
  destruct (isAudioOrVideo (Media.type m)); simpl; [|reflexivity].
  rewrite (keys_fold_same _ _ _ keys_attachFeedback).
  rewrite (keys_fold_same _ _ _ (keys_attachParameters parseFmtpConfig)).
  rewrite keys_registerCodecs_add, map_map. reflexivity.
Qed.

Lemma codecs_payloads_keys (media : list Media.t) :
  map Codec.preferredPayloadType
    (JsMap.values (fst (capabilitiesState parseFmtpConfig media)))
  = JsMap.keys (fst (capabilitiesState parseFmtpConfig media)).
Proof.
  unfold JsMap.values, JsMap.keys. rewrite map_map.
  apply map_ext_in. intros [p c] Hin. simpl.
  exact (registry_key_is_payload parseFmtpConfig _ _ _ Hin).
Qed.

(** X9: the extracted codecs come in the order in which their payload types
    are first declared by a codec line of an audio or video section;
    format-parameter and feedback lines never add a codec. *)
Theorem codecs_in_order_of_first_declaration (sdpObject : Sdp.t) :
  map Codec.preferredPayloadType
    (RtpCapabilities.codecs (extractCapabilities parseFmtpConfig sdpObject))
  = firstSeen
      (map (fun d => Rtp.payload (snd d))
         (declaredCodecs (Sdp.media sdpObject))).
Proof.
  unfold extractCapabilities. simpl.
  rewrite codecs_payloads_keys, keys_capabilitiesState.
  apply fold_add_empty.
Qed.
End CodecOrder.

(** *** Entries of the track infos *)

Section TrackEntries.
Variable Number : string -> jsnum.

Lemma infos_ssrcGroups (gs : list SsrcGroup.t) (st : TrackState) :
  infos (fold_left (ssrcGroupStep Number) gs st) = infos st.
Proof.
  revert st. induction gs as [|g gs IH]; intros st; simpl; [reflexivity|].
  rewrite IH. unfold ssrcGroupStep.
  destruct (String.eqb (SsrcGroup.semantics g) "FID"); reflexivity.
Qed.

Lemma rtxSet_ssrcs (kind : string) (l : list Ssrc.t) (st : TrackState) :
  rtxSet (fold_left (ssrcStep kind) l st) = rtxSet st.
Proof.
  revert st. induction l as [|o l IH]; intros st; simpl; [reflexivity|].
  rewrite IH. unfold ssrcStep.
  destruct (JsSet.has (rtxSet st) (Some (JNum (Ssrc.id o)))); [reflexivity|].
  destruct (JsMap.get (infos st) (Ssrc.id o)); reflexivity.
Qed.

Lemma ssrcStep_kinds (media : list Media.t) (m : Media.t) (st : TrackState)
    (o : Ssrc.t) :
  isAudioOrVideo (Media.type m) = true ->
  In m media ->
  In o (orEmpty (Media.ssrcs m)) ->
  kindsInv media st ->
  kindsInv media (ssrcStep (Media.type m) st o).
Proof.
  intros Hav Hm Ho [Hnd Hk]. unfold ssrcStep.
  destruct (JsSet.has (rtxSet st) (Some (JNum (Ssrc.id o)))); [split; assumption|].
  assert (Hdecl : In (Ssrc.id o) (declaredSsrcs m)).
  { unfold declaredSsrcs. rewrite Hav. apply in_map. exact Ho. }
  destruct (JsMap.get (infos st) (Ssrc.id o)) as [info|] eqn:Hget;
    cbn [infos].
  - split; [apply NoDup_keys_set; exact Hnd|].
    intros s i Hin. apply JsMap_In_set in Hin.
    destruct Hin as [Heq|Hin]; [|exact (Hk s i Hin)].
    inversion Heq; subst s i.
    destruct (applyAttribute_ssrc info o) as [_ [_ ->]].
    exact (Hk _ _ (get_In _ _ _ Hget)).
  - split; [apply NoDup_keys_set; apply NoDup_keys_set; exact Hnd|].
    intros s i Hin. apply JsMap_In_set in Hin.
    destruct Hin as [Heq|Hin].
    + inversion Heq; subst s i.
      match goal with
      | |- context [applyAttribute ?info o] =>
          destruct (applyAttribute_ssrc info o) as [_ [_ ->]]
      end.
      exists m. simpl. auto.
    + apply JsMap_In_set in Hin.
      destruct Hin as [Heq|Hin]; [|exact (Hk s i Hin)].
      inversion Heq; subst s i. exists m. simpl. auto.
Qed.

Lemma ssrcs_kinds (media : list Media.t) (m : Media.t) (l : list Ssrc.t)
    (st : TrackState) :
  isAudioOrVideo (Media.type m) = true ->
  In m media ->
  (forall o, In o l -> In o (orEmpty (Media.ssrcs m))) ->
  kindsInv media st ->
  kindsInv media (fold_left (ssrcStep (Media.type m)) l st).
Proof.
  intros Hav Hm. revert st. induction l as [|o l IH]; intros st Hl Hinv.
  - exact Hinv.
  - simpl. apply IH.
    + intros o' Ho'. apply Hl. right. exact Ho'.
    + apply ssrcStep_kinds; auto. apply Hl. left. reflexivity.
Qed.

Lemma trackState_kinds (media : list Media.t) :
  kindsInv media (trackState Number media).
Proof.
  induction media as [|m media IH] using rev_ind.
  - split; [constructor | intros s i []].
  - rewrite trackState_snoc.
    assert (Hlift : kindsInv (media ++ [m]) (trackState Number media)).
    { destruct IH as [Hnd Hk]. split; [exact Hnd|].
      intros s i Hin. destruct (Hk s i Hin) as [m0 [Hm0 Hrest]].
      exists m0. split; [|exact Hrest]. apply in_or_app. left. exact Hm0. }
    unfold trackStep.
    destruct (isAudioOrVideo (Media.type m)) eqn:Hav; simpl; [|exact Hlift].
    apply ssrcs_kinds.
    + exact Hav.
    + apply in_or_app. right. left. reflexivity.
    + auto.
    + destruct Hlift as [Hnd Hk]. split; rewrite infos_ssrcGroups; assumption.
Qed.

(** X10: the track infos are keyed by the SSRC of each entry, every SSRC has
    at most one entry, and the kind of an entry is the kind of an audio or
    video section in which that SSRC has per-source attributes. *)
Theorem track_infos_keyed_by_ssrc (sdpObject : Sdp.t) :
  NoDup (JsMap.keys (extractTrackInfos Number sdpObject)) /\
  forall s i,
    In (s, i) (extractTrackInfos Number sdpObject) ->
    TrackInfo.ssrc i = s /\
    exists m,
      In m (Sdp.media sdpObject) /\
      TrackInfo.kind i = Media.type m /\
      isAudioOrVideo (Media.type m) = true /\
      In s (declaredSsrcs m).
Proof.
  destruct (trackState_kinds (Sdp.media sdpObject)) as [Hnd Hk].
  destruct (trackState_inv Number (Sdp.media sdpObject)) as [_ Hinfos].
  split; [exact Hnd|].
  intros s i Hin. split.
  - exact (proj1 (Hinfos s i Hin)).
  - exact (Hk s i Hin).
Qed.

(** An entry, once there, stays. *)
Lemma ssrcStep_keeps (kind : string) (st : TrackState) (o : Ssrc.t) (s : Z) :
  JsMap.has (infos st) s = true ->
  JsMap.has (infos (ssrcStep kind st o)) s = true.
Proof.
  intros Hs. unfold ssrcStep.
  destruct (JsSet.has (rtxSet st) (Some (JNum (Ssrc.id o)))); [exact Hs|].
  assert (Hset : forall (m : JsMap.t Z TrackInfo.t) k v,
             JsMap.has m s = true -> JsMap.has (JsMap.set m k v) s = true).
  { intros m k v Hm. unfold JsMap.has in *.
    destruct (Z.eq_dec s k) as [->|Hne].
    - rewrite get_set_same. reflexivity.
    - rewrite get_set_other by exact Hne. exact Hm. }
  destruct (JsMap.get (infos st) (Ssrc.id o)); cbn [infos]; auto.
Qed.

Lemma ssrcs_keep (kind : string) (l : list Ssrc.t) (st : TrackState) (s : Z) :
  JsMap.has (infos st) s = true ->
  JsMap.has (infos (fold_left (ssrcStep kind) l st)) s = true.
Proof.
  revert st. induction l as [|o l IH]; intros st Hs; simpl; [exact Hs|].
  apply IH. apply ssrcStep_keeps. exact Hs.
Qed.

Lemma trackStep_keeps (st : TrackState) (m : Media.t) (s : Z) :
  JsMap.has (infos st) s = true ->
  JsMap.has (infos (trackStep Number st m)) s = true.
Proof.
  intros Hs. unfold trackStep.
  destruct (isAudioOrVideo (Media.type m)); simpl; [|exact Hs].
  apply ssrcs_keep. rewrite infos_ssrcGroups. exact Hs.
Qed.

Lemma trackSteps_keep (l : list Media.t) (st : TrackState) (s : Z) :
  JsMap.has (infos st) s = true ->
  JsMap.has (infos (fold_left (trackStep Number) l st)) s = true.
Proof.
  revert st. induction l as [|m l IH]; intros st Hs; simpl; [exact Hs|].
  apply IH. apply trackStep_keeps. exact Hs.
Qed.

Lemma ssrcStep_creates (kind : string) (st : TrackState) (o : Ssrc.t) :
  JsSet.has (rtxSet st) (Some (JNum (Ssrc.id o))) = false ->
  JsMap.has (infos (ssrcStep kind st o)) (Ssrc.id o) = true.
Proof.
  intros Hno. unfold ssrcStep. rewrite Hno.
  destruct (JsMap.get (infos st) (Ssrc.id o)); cbn [infos];
    unfold JsMap.has; rewrite get_set_same; reflexivity.
Qed.

(** X11: an SSRC with per-source attributes in an audio or video section,
    which neither that section nor an earlier one names second in a FID
    group, has an entry in the track infos, whatever the later sections
    declare. *)
Theorem unpaired_ssrc_has_entry (sdpObject : Sdp.t) (s : Z) :
  declaredUnpaired Number (Sdp.media sdpObject) s ->
  exists i,
    JsMap.get (extractTrackInfos Number sdpObject) s = Some i /\
    TrackInfo.ssrc i = s.
Proof.
  intros [pre [m [post [Hmedia [Hdecl Hno]]]]].
  assert (Hhas : JsMap.has (extractTrackInfos Number sdpObject) s = true).
  { unfold extractTrackInfos, trackState. rewrite Hmedia.
    replace (pre ++ m :: post) with ((pre ++ [m]) ++ post)
      by (rewrite <- app_assoc; reflexivity).
    rewrite fold_left_app. apply trackSteps_keep.
    fold (trackState Number (pre ++ [m])). rewrite trackState_snoc.
    unfold declaredSsrcs in Hdecl. unfold trackStep.
    destruct (isAudioOrVideo (Media.type m)) eqn:Hav; [|contradiction].
    simpl. apply in_map_iff in Hdecl. destruct Hdecl as [o [Hid Ho]].
    apply in_split in Ho. destruct Ho as [l1 [l2 Hl]]. rewrite Hl.
    rewrite fold_left_app. simpl. apply ssrcs_keep. rewrite <- Hid.
    apply ssrcStep_creates. rewrite rtxSet_ssrcs.
    destruct (trackState_inv Number pre) as [Hpair _].
    destruct (ssrcGroups_inv Number (orEmpty (Media.ssrcGroups m)) _ _ Hpair)
      as [[Hset _] _].
    destruct (JsSet.has _ (Some (JNum (Ssrc.id o)))) eqn:Hh; [|reflexivity].
    exfalso. apply JsSet_has_In in Hh. apply Hset in Hh.
    apply in_app_iff in Hh. rewrite Hid in Hh. destruct Hh as [Hh|Hh].
    - apply in_flat_map in Hh. destruct Hh as [m' [Hm' Hin']].
      apply (Hno m'); [apply in_or_app; left; exact Hm' | exact Hin'].
    - apply (Hno m); [apply in_or_app; right; left; reflexivity|].
      unfold rtxSsrcsOf. rewrite Hav. exact Hh. }
  unfold JsMap.has in Hhas.
  destruct (JsMap.get (extractTrackInfos Number sdpObject) s) as [i|] eqn:Hg;
    [|discriminate].
  exists i. split; [reflexivity|].
  destruct (trackState_inv Number (Sdp.media sdpObject)) as [_ Hinfos].
  exact (proj1 (Hinfos s i (get_In _ _ _ Hg))).
Qed.
End TrackEntries.

(** *** Parameter intersection *)

Lemma matchLocalParam_found (localParams : list (string * jsval))
    (name : string) (value : jsval) (parameters : Params) :
  matchLocalParam localParams name value parameters
  = if existsb
         (fun entry =>
            (strictEq (fst entry) name && strictEq (snd entry) value)%bool)
         localParams
    then JsMap.set parameters name value
    else parameters.
Proof.
  induction localParams as [|[n v] l IH]; simpl; [reflexivity|].
  unfold strictEq at 1 3.
  destruct (eq_dec n name) as [->|Hn]; simpl; [|exact IH].
  unfold strictEq at 1 2.
  destruct (eq_dec v value) as [->|Hv]; simpl; [reflexivity | exact IH].
Qed.

Lemma existsb_entry (l : list (string * jsval)) (name : string) (value : jsval) :
  existsb
    (fun entry => (strictEq (fst entry) name && strictEq (snd entry) value)%bool)
    l = true
  <-> In (name, value) l.
Proof.
  rewrite existsb_exists. split.
  - intros [[n v] [Hin Heq]]. simpl in Heq.
    apply andb_true_iff in Heq. destruct Heq as [Hn Hv].
    apply strictEq_true in Hn. apply strictEq_true in Hv. subst. exact Hin.
  - intros Hin. exists (name, value). split; [exact Hin|]. simpl.
    apply andb_true_iff. split; apply strictEq_true; reflexivity.
Qed.

Lemma In_keys {K V : Type} (m : JsMap.t K V) (k : K) (v : V) :
  In (k, v) m -> In k (JsMap.keys m).
Proof. intros Hin. apply (in_map fst) in Hin. exact Hin. Qed.

Lemma NoDup_keys_intersect (localParams remoteParams : list (string * jsval))
    (acc : Params) :
  NoDup (JsMap.keys acc) ->
  NoDup
    (JsMap.keys
       (fold_left
          (fun parameters (remoteParam : string * jsval) =>
             matchLocalParam localParams (fst remoteParam) (snd remoteParam)
               parameters)
          remoteParams acc)).
Proof.
  revert acc. induction remoteParams as [|x l IH]; intros acc Hnd; simpl.
  - exact Hnd.
  - apply IH. rewrite matchLocalParam_found.
    destruct (existsb _ _); [apply NoDup_keys_set|]; exact Hnd.
Qed.

(** X12: for a remote and a local codec whose parameter names are pairwise
    distinct, the negotiated codec has the parameter [name] with the value
    [value] exactly when both the remote and the local codec have [name] with
    that value; a name with two different values, or on one side only, is
    left out. *)
Theorem parameters_agreed_on_both_sides (localCodec remoteCodec : Codec.t)
    (name : string) (value : jsval) :
  NoDup (JsMap.keys (Codec.parameters remoteCodec)) ->
  NoDup (JsMap.keys (Codec.parameters localCodec)) ->
  NoDup (JsMap.keys (Codec.parameters (negotiateCodec localCodec remoteCodec))) /\
  (JsMap.get (Codec.parameters (negotiateCodec localCodec remoteCodec)) name
   = Some value
   <-> JsMap.get (Codec.parameters remoteCodec) name = Some value /\
       JsMap.get (Codec.parameters localCodec) name = Some value).
Proof.
  intros Hremote Hlocal. simpl. unfold intersectParameters. split.
  - apply NoDup_keys_intersect. constructor.
  - assert (Hin : JsMap.get
                    (fold_left
                       (fun parameters (remoteParam : string * jsval) =>
                          matchLocalParam (Codec.parameters localCodec)
                            (fst remoteParam) (snd remoteParam) parameters)
                       (Codec.parameters remoteCodec) JsMap.empty) name
                  = Some value
                  <-> In (name, value) (Codec.parameters remoteCodec) /\
                      In (name, value) (Codec.parameters localCodec)).
    { clear Hlocal. revert Hremote.
      induction (Codec.parameters remoteCodec) as [|[rn rv] l IH] using rev_ind;
        intros Hnd.
      - simpl. split; [discriminate | intros [[] _]].
      - unfold JsMap.keys in Hnd. rewrite map_app in Hnd. simpl in Hnd.
        apply NoDup_remove in Hnd. rewrite app_nil_r in Hnd.
        destruct Hnd as [Hnd Hnew].
        rewrite fold_left_snoc, matchLocalParam_found. simpl.
        rewrite in_app_iff. simpl.
        destruct (string_dec name rn) as [->|Hne].
        + destruct (existsb _ _) eqn:Hex.
          * rewrite get_set_same. apply existsb_entry in Hex. split.
            -- intros Heq. inversion Heq; subst. auto.
            -- intros [[Hl|[Heq|[]]] _].
               ++ exfalso. apply Hnew. exact (In_keys _ _ _ Hl).
               ++ congruence.
          * rewrite (IH Hnd). split.
            -- intros [Hl _]. exfalso. apply Hnew. exact (In_keys _ _ _ Hl).
            -- intros [[Hl|[Heq|[]]] Hloc].
               ++ exfalso. apply Hnew. exact (In_keys _ _ _ Hl).
               ++ inversion Heq; subst. apply existsb_entry in Hloc. congruence.
        + assert (Hget : forall acc : Params,
                     JsMap.get
                       (if existsb
                             (fun entry =>
                                (strictEq (fst entry) rn
                                 && strictEq (snd entry) rv)%bool)
                             (Codec.parameters localCodec)
                        then JsMap.set acc rn rv else acc) name
                     = JsMap.get acc name).
          { intros acc. destruct (existsb _ _); [|reflexivity].
            apply get_set_other. exact Hne. }
          rewrite Hget, (IH Hnd). split.
          * intros [Hl Hloc]. auto.
          * intros [[Hl|[Heq|[]]] Hloc]; [auto | congruence]. }
    rewrite Hin. split.
    + intros [Hr Hl]. split; apply In_get; assumption.
    + intros [Hr Hl]. split; apply get_In; assumption.
Qed.

(** *** Header extensions and FEC mechanisms of the negotiation *)

Lemma fold_extensionStep (localFullCapabilities : RtpCapabilities.t)
    (remoteExtensions acc : list HeaderExtension.t) :
  fold_left (extensionStep localFullCapabilities) remoteExtensions acc
  = acc ++ map negotiatedExtension
             (filter (supportsExtension localFullCapabilities) remoteExtensions).
Proof.
  revert acc. induction remoteExtensions as [|r l IH]; intros acc; simpl.
  - rewrite app_nil_r. reflexivity.
  - rewrite IH. unfold extensionStep, supportsExtension.
    destruct (find _ (RtpCapabilities.headerExtensions localFullCapabilities))
      as [e|] eqn:Hf.
    + pose proof (find_some _ _ Hf) as [Hin He].
      assert (Hex : existsb
                      (fun extension =>
                         (strictEq (HeaderExtension.kind extension)
                            (HeaderExtension.kind r)
                          && strictEq (HeaderExtension.uri extension)
                               (HeaderExtension.uri r))%bool)
                      (RtpCapabilities.headerExtensions localFullCapabilities)
                    = true).
      { apply existsb_exists. eauto. }
      rewrite Hex. simpl. rewrite <- app_assoc. simpl.
      apply andb_true_iff in He. destruct He as [Hk Hu].
      apply strictEq_true in Hk. apply strictEq_true in Hu.
      unfold negotiatedExtension. rewrite Hk, Hu. reflexivity.
    + assert (Hex : existsb
                      (fun extension =>
                         (strictEq (HeaderExtension.kind extension)
                            (HeaderExtension.kind r)
                          && strictEq (HeaderExtension.uri extension)
                               (HeaderExtension.uri r))%bool)
                      (RtpCapabilities.headerExtensions localFullCapabilities)
                    = false).
      { destruct (existsb _ _) eqn:E; [|reflexivity].
        apply existsb_exists in E. destruct E as [x [Hx Hp]].
        rewrite (find_none _ _ Hf x Hx) in Hp. discriminate. }
      rewrite Hex. reflexivity.
Qed.

Lemma fold_fecStep (localFullCapabilities : RtpCapabilities.t)
    (remoteFec acc : list string) :
  fold_left (fecStep localFullCapabilities) remoteFec acc
  = acc ++ filter
             (fun fec =>
                (negb (strictEq fec EmptyString)
                 && existsb (fun l => strictEq l fec)
                      (RtpCapabilities.fecMechanisms localFullCapabilities))%bool)
             remoteFec.
Proof.
  revert acc. induction remoteFec as [|r l IH]; intros acc; simpl.
  - rewrite app_nil_r. reflexivity.
  - rewrite IH. unfold fecStep.
    destruct (find _ (RtpCapabilities.fecMechanisms localFullCapabilities))
      as [e|] eqn:Hf.
    + pose proof (find_some _ _ Hf) as [Hin He].
      apply strictEq_true in He. subst e.
      assert (Hex : existsb (fun l => strictEq l r)
                      (RtpCapabilities.fecMechanisms localFullCapabilities)
                    = true).
      { apply existsb_exists. exists r. split; [exact Hin|].
        apply strictEq_true. reflexivity. }
      rewrite Hex, andb_true_r.
      destruct (strictEq r EmptyString); simpl; [reflexivity|].
      rewrite <- app_assoc. reflexivity.
    + assert (Hex : existsb (fun l => strictEq l r)
                      (RtpCapabilities.fecMechanisms localFullCapabilities)
                    = false).
      { destruct (existsb _ _) eqn:E; [|reflexivity].
        apply existsb_exists in E. destruct E as [x [Hx Hp]].
        rewrite (find_none _ _ Hf x Hx) in Hp. discriminate. }
      rewrite Hex, andb_false_r. reflexivity.
Qed.

(** X13: the negotiated header extensions are the remote ones for which the
    local side has an extension of the same kind and uri, in remote order,
    each with the remote preferred id and with preferredEncrypt made a
    boolean; the local preferred id is never used. *)
Theorem negotiated_header_extensions
    (localFullCapabilities filterWithCapabilities result : RtpCapabilities.t)
    (fuel : nat) :
  getLocalCapabilities fuel localFullCapabilities filterWithCapabilities
  = Some result ->
  RtpCapabilities.headerExtensions result
  = map negotiatedExtension
      (filter (supportsExtension localFullCapabilities)
         (RtpCapabilities.headerExtensions filterWithCapabilities)).
Proof.
  unfold getLocalCapabilities.
  destruct (addRtxCodecs _ _ _ _); [|discriminate].
  intros Hr. inversion Hr; subst; simpl.
  rewrite fold_extensionStep. reflexivity.
Qed.

(** X14: the negotiated FEC mechanisms are the remote ones that the local
    side lists too, in remote order, except the empty string, which is never
    returned. *)
Theorem negotiated_fec_mechanisms
    (localFullCapabilities filterWithCapabilities result : RtpCapabilities.t)
    (fuel : nat) :
  getLocalCapabilities fuel localFullCapabilities filterWithCapabilities
  = Some result ->
  RtpCapabilities.fecMechanisms result
  = filter
      (fun fec =>
         (negb (strictEq fec EmptyString)
          && existsb (fun l => strictEq l fec)
               (RtpCapabilities.fecMechanisms localFullCapabilities))%bool)
      (RtpCapabilities.fecMechanisms filterWithCapabilities) /\
  ~ In EmptyString (RtpCapabilities.fecMechanisms result).
Proof.
  unfold getLocalCapabilities.
  destruct (addRtxCodecs _ _ _ _); [|discriminate].
  intros Hr. inversion Hr; subst; simpl.
  rewrite fold_fecStep. simpl. split; [reflexivity|].
  intros Hin. apply filter_In in Hin. destruct Hin as [_ Hp].
  unfold strictEq in Hp at 1.
  destruct (eq_dec EmptyString EmptyString); [discriminate | congruence].
Qed.

Lemma Subseq_In {A : Type} (l1 l2 : list A) (x : A) :
  Subseq l1 l2 -> In x l1 -> In x l2.
Proof.
  intros Hs. induction Hs; simpl; intros Hin.
  - contradiction.
  - destruct Hin as [->|Hin]; auto.
  - auto.
Qed.

Lemma extracted_extension_encrypt (parseFmtpConfig : string -> Params)
    (media : list Media.t) (e : HeaderExtension.t) :
  In e (snd (capabilitiesState parseFmtpConfig media)) ->
  HeaderExtension.preferredEncrypt e = None.
Proof.
  rewrite headerExtensions_keepFirst. intros Hin.
  apply (Subseq_In _ _ _ (keepFirst_Subseq _)) in Hin.
  unfold declaredExtensions in Hin. apply in_flat_map in Hin.
  destruct Hin as [m [_ Hin]].
  destruct (isAudioOrVideo (Media.type m)); [|contradiction].
  apply in_map_iff in Hin. destruct Hin as [x [<- _]]. reflexivity.
Qed.

(** X15: when the remote capabilities are those extracted from a document,
    the negotiated record has no FEC mechanism, and every negotiated header
    extension has preferredEncrypt false. *)
Theorem negotiation_of_extracted_capabilities
    (parseFmtpConfig : string -> Params) (sdpObject : Sdp.t)
    (localFullCapabilities result : RtpCapabilities.t) (fuel : nat) :
  getLocalCapabilities fuel localFullCapabilities
    (extractCapabilities parseFmtpConfig sdpObject)
  = Some result ->
  RtpCapabilities.fecMechanisms result = [] /\
  forall e,
    In e (RtpCapabilities.headerExtensions result) ->
    HeaderExtension.preferredEncrypt e = Some false.
Proof.
  unfold getLocalCapabilities.
  destruct (addRtxCodecs _ _ _ _); [|discriminate].
  intros Hr. inversion Hr; subst; simpl. split; [reflexivity|].
  intros e. rewrite fold_extensionStep. simpl. intros Hin.
  apply in_map_iff in Hin. destruct Hin as [r [<- Hr']].
  apply filter_In in Hr'. destruct Hr' as [Hr' _].
  apply extracted_extension_encrypt in Hr'. simpl. rewrite Hr'. reflexivity.
Qed.

(** *** The RTX entries and their primaries *)

Lemma nth_error_snoc_old {A : Type} (l : list A) (x : A) (j : nat) (y : A) :
  nth_error l j = Some y -> nth_error (l ++ [x]) j = Some y.
Proof.
  intros Hj. rewrite nth_error_app1; [exact Hj|].
  apply nth_error_Some. congruence.
Qed.

Lemma nth_error_snoc_cases {A : Type} (l : list A) (x : A) (j : nat) (y : A) :
  nth_error (l ++ [x]) j = Some y ->
  nth_error l j = Some y \/ (j = List.length l /\ y = x).
Proof.
  intros Hj. destruct (Nat.lt_ge_cases j (List.length l)) as [Hlt|Hge].
  - left. rewrite nth_error_app1 in Hj by exact Hlt. exact Hj.
  - right. rewrite nth_error_app2 in Hj by exact Hge.
    destruct (j - List.length l)%nat as [|k] eqn:Hk; simpl in Hj.
    + split; [lia | congruence].
    + destruct k; discriminate.
Qed.

Lemma addRtxCodecs_parents (remoteRtxMap : RtxMap) (n fuel i : nat)
    (codecs result : list Codec.t) :
  parentsInv remoteRtxMap n i codecs ->
  addRtxCodecs fuel remoteRtxMap i codecs = Some result ->
  parentsInv remoteRtxMap n (List.length result) result.
Proof.
  revert i codecs. induction fuel as [|fuel IH]; intros i codecs Hinv;
    [discriminate|].
  cbn [addRtxCodecs].
  destruct (nth_error codecs i) as [c|] eqn:Hc.
  - assert (Hi : (i < List.length codecs)%nat)
      by (apply nth_error_Some; congruence).
    destruct (rtxCodecFor remoteRtxMap c) as [rtx|] eqn:Hrtx.
    + apply IH. intros idx r Hn Hidx.
      apply nth_error_snoc_cases in Hidx. destruct Hidx as [Hidx|[-> ->]].
      * destruct (Hinv idx r Hn Hidx) as [j [p [Hj [Hji [Hp Hr]]]]].
        exists j, p. repeat split; try lia; [|exact Hr].
        apply nth_error_snoc_old. exact Hp.
      * exists i, c. repeat split; try lia; [|exact Hrtx].
        apply nth_error_snoc_old. exact Hc.
    + apply IH. intros idx r Hn Hidx.
      destruct (Hinv idx r Hn Hidx) as [j [p [Hj [Hji [Hp Hr]]]]].
      exists j, p. repeat split; try lia; assumption.
  - intros Hr. inversion Hr; subst result.
    intros idx r Hn Hidx.
    destruct (Hinv idx r Hn Hidx) as [j [p [Hj [Hji [Hp Hr']]]]].
    exists j, p. repeat split; try lia; try assumption.
    apply nth_error_Some. congruence.
Qed.

(** X16: in the returned codecs, every entry after the negotiated primary
    codecs is an RTX entry built for an entry that comes before it in the
    result: it has the name "rtx", the kind and clock rate of that entry, an
    apt parameter equal to that entry's payload type, and the payload type
    that the remote RTX map gives for it. *)
Theorem rtx_entries_follow_their_parent
    (localFullCapabilities filterWithCapabilities result : RtpCapabilities.t)
    (fuel idx : nat) (r : Codec.t) :
  getLocalCapabilities fuel localFullCapabilities filterWithCapabilities
  = Some result ->
  (List.length
     (primaries localFullCapabilities
        (RtpCapabilities.codecs filterWithCapabilities)) <= idx)%nat ->
  nth_error (RtpCapabilities.codecs result) idx = Some r ->
  exists j p,
    (j < idx)%nat /\
    nth_error (RtpCapabilities.codecs result) j = Some p /\
    Codec.name r = "rtx" /\
    Codec.kind r = Codec.kind p /\
    Codec.clockRate r = Codec.clockRate p /\
    Codec.parameters r = [("apt", VNum (Codec.preferredPayloadType p))] /\
    JsMap.get
      (snd (negotiateCodecs localFullCapabilities
              (RtpCapabilities.codecs filterWithCapabilities)))
      (Some (VNum (Codec.preferredPayloadType p)))
    = Some (Codec.preferredPayloadType r).
Proof.
  unfold getLocalCapabilities, primaries.
  set (st := negotiateCodecs localFullCapabilities
               (RtpCapabilities.codecs filterWithCapabilities)).
  destruct (addRtxCodecs fuel (snd st) 0 (fst st)) as [codecs|] eqn:Hadd;
    [|discriminate].
  intros Hr Hn Hidx. inversion Hr; subst result. simpl in Hidx |- *.
  assert (Hinv : parentsInv (snd st) (List.length (fst st)) 0 (fst st)).
  { intros k e Hk He. exfalso.
    assert (k < List.length (fst st))%nat by (apply nth_error_Some; congruence).
    lia. }
  destruct (addRtxCodecs_parents _ _ _ _ _ _ Hinv Hadd idx r Hn Hidx)
    as [j [p [Hj [_ [Hp Hrtx]]]]].
  exists j, p. split; [exact Hj|]. split; [exact Hp|].
  unfold rtxCodecFor in Hrtx.
  destruct (JsMap.get (snd st) (Some (VNum (Codec.preferredPayloadType p))))
    as [v|] eqn:Hv; [|discriminate].
  inversion Hrtx; subst r. simpl. auto.
Qed.

(** *** Termination of the negotiation *)

Lemma snd_codecStep (localFullCapabilities : RtpCapabilities.t)
    (st : list Codec.t * RtxMap) (remoteCodec : Codec.t) :
  snd (codecStep localFullCapabilities st remoteCodec)
  = if isRtx remoteCodec
    then JsMap.set (snd st) (JsMap.get (Codec.parameters remoteCodec) "apt")
           (Codec.preferredPayloadType remoteCodec)
    else snd st.
Proof.
  unfold codecStep, isRtx.
  destruct (strictEq _ "rtx"); [reflexivity|].
  destruct (findLocalCodec _ _); reflexivity.
Qed.

(** Every entry of the RTX map comes from a remote RTX codec. *)
Lemma rtxMap_entries (localFullCapabilities : RtpCapabilities.t)
    (remoteCodecs : list Codec.t) (k : option jsval) (v : Z) :
  JsMap.get (snd (negotiateCodecs localFullCapabilities remoteCodecs)) k
  = Some v ->
  exists rc,
    In rc remoteCodecs /\ isRtx rc = true /\
    JsMap.get (Codec.parameters rc) "apt" = k /\
    Codec.preferredPayloadType rc = v.
Proof.
  unfold negotiateCodecs.
  induction remoteCodecs as [|rc l IH] using rev_ind; [discriminate|].
  rewrite fold_left_snoc, snd_codecStep.
  destruct (isRtx rc) eqn:Hrtx.
  - intros Hg.
    destruct (eq_dec k (JsMap.get (Codec.parameters rc) "apt")) as [->|Hne].
    + rewrite get_set_same in Hg. inversion Hg; subst v.
      exists rc. rewrite in_app_iff. simpl. auto.
    + rewrite get_set_other in Hg by exact Hne.
      destruct (IH Hg) as [rc' [Hin Hrest]].
      exists rc'. rewrite in_app_iff. auto.
  - intros Hg. destruct (IH Hg) as [rc' [Hin Hrest]].
    exists rc'. rewrite in_app_iff. auto.
Qed.

(** Every negotiated primary codec has the payload type of a remote codec
    that is not an RTX codec. *)
Lemma primaries_payloads (localFullCapabilities : RtpCapabilities.t)
    (remoteCodecs : list Codec.t) :
  map Codec.preferredPayloadType (primaries localFullCapabilities remoteCodecs)
  = map Codec.preferredPayloadType
      (filter (isMatched localFullCapabilities) remoteCodecs).
Proof.
  rewrite primaries_flat_map.
  induction remoteCodecs as [|rc l IH]; [reflexivity|].
  simpl. rewrite map_app, IH. unfold primaryOf, isMatched.
  destruct (isRtx rc); [reflexivity|]. simpl.
  destruct (findLocalCodec localFullCapabilities rc); reflexivity.
Qed.

Lemma NoDup_map_filter {A B : Type} (f : A -> B) (g : A -> bool) (l : list A) :
  NoDup (map f l) -> NoDup (map f (filter g l)).
Proof.
  induction l as [|x l IH]; simpl; intros Hnd; [constructor|].
  inversion Hnd as [|? ? Hni Hnd']; subst.
  destruct (g x); simpl; [|auto].
  constructor; [|auto].
  intros Hin. apply Hni. apply in_map_iff in Hin.
  destruct Hin as [y [Hy Hin]]. apply filter_In in Hin.
  rewrite <- Hy. apply in_map. apply Hin.
Qed.

Lemma NoDup_map_inj {A B : Type} (f : A -> B) (l : list A) (x y : A) :
  NoDup (map f l) -> In x l -> In y l -> f x = f y -> x = y.
Proof.
  induction l as [|a l IH]; simpl; intros Hnd Hx Hy Heq; [contradiction|].
  inversion Hnd as [|? ? Hni Hnd']; subst.
  destruct Hx as [->|Hx], Hy as [->|Hy].
  - reflexivity.
  - exfalso. apply Hni. rewrite Heq. apply in_map. exact Hy.
  - exfalso. apply Hni. rewrite <- Heq. apply in_map. exact Hx.
  - auto.
Qed.

Section Termination.
Variable localFullCapabilities : RtpCapabilities.t.
Variable remoteCodecs : list Codec.t.
Hypothesis distinct :
  NoDup (map Codec.preferredPayloadType remoteCodecs).

Let st := negotiateCodecs localFullCapabilities remoteCodecs.
Let remotePayloads := map Codec.preferredPayloadType remoteCodecs.

Lemma rtxMap_injective (k1 k2 : option jsval) (v : Z) :
  JsMap.get (snd st) k1 = Some v -> JsMap.get (snd st) k2 = Some v -> k1 = k2.
Proof.
  intros H1 H2.
  destruct (rtxMap_entries _ _ _ _ H1) as [rc1 [Hin1 [_ [Hk1 Hv1]]]].
  destruct (rtxMap_entries _ _ _ _ H2) as [rc2 [Hin2 [_ [Hk2 Hv2]]]].
  assert (rc1 = rc2)
    by (apply (NoDup_map_inj _ _ _ _ distinct Hin1 Hin2); congruence).
  congruence.
Qed.

Lemma rtxMap_value_not_primary (k : option jsval) (v : Z) :
  JsMap.get (snd st) k = Some v ->
  ~ In v (map Codec.preferredPayloadType (fst st)).
Proof.
  intros Hg Hin.
  destruct (rtxMap_entries _ _ _ _ Hg) as [rc [Hrc [Hrtx [_ Hv]]]].
  change (fst st) with (primaries localFullCapabilities remoteCodecs) in Hin.
  rewrite primaries_payloads in Hin. apply in_map_iff in Hin.
  destruct Hin as [rc' [Hpt Hin']]. apply filter_In in Hin'.
  destruct Hin' as [Hrc' Hm].
  assert (rc' = rc)
    by (apply (NoDup_map_inj _ _ _ _ distinct Hrc' Hrc); congruence).
  subst rc'. unfold isMatched in Hm. rewrite Hrtx in Hm. discriminate.
Qed.

Lemma rtxMap_value_remote (k : option jsval) (v : Z) :
  JsMap.get (snd st) k = Some v -> In v remotePayloads.
Proof.
  intros Hg.
  destruct (rtxMap_entries _ _ _ _ Hg) as [rc [Hrc [_ [_ Hv]]]].
  subst v. apply in_map. exact Hrc.
Qed.

Lemma primaries_payloadsInv : payloadsInv remotePayloads (fst st).
Proof.
  change (fst st) with (primaries localFullCapabilities remoteCodecs).
  unfold payloadsInv. rewrite primaries_payloads. split.
  - apply NoDup_map_filter. exact distinct.
  - intros p Hp. apply in_map_iff in Hp. destruct Hp as [rc [<- Hin]].
    apply filter_In in Hin. apply in_map. apply Hin.
Qed.

(** One more entry keeps the payload types distinct: what is pushed for the
    entry at [i] has a payload type that no entry has yet. *)
Lemma push_keeps_distinct (i : nat) (codecs : list Codec.t) (c rtx : Codec.t) :
  payloadsInv remotePayloads codecs ->
  parentsInv (snd st) (List.length (fst st)) i codecs ->
  (forall idx e, (idx < List.length (fst st))%nat ->
                 nth_error codecs idx = Some e ->
                 In (Codec.preferredPayloadType e)
                   (map Codec.preferredPayloadType (fst st))) ->
  nth_error codecs i = Some c ->
  rtxCodecFor (snd st) c = Some rtx ->
  payloadsInv remotePayloads (codecs ++ [rtx]).
Proof.
  intros [Hnd Hincl] Hpar Hprim Hc Hrtx.
  unfold rtxCodecFor in Hrtx.
  destruct (JsMap.get (snd st) (Some (VNum (Codec.preferredPayloadType c))))
    as [v|] eqn:Hv; [|discriminate].
  assert (Hpt : Codec.preferredPayloadType rtx = v)
    by (inversion Hrtx; reflexivity).
  unfold payloadsInv. rewrite map_app. simpl. rewrite Hpt. split.
  - pose proof Hnd as Hnd0.
    apply NoDup_rev in Hnd. rewrite <- (rev_involutive (_ ++ _)).
    apply NoDup_rev. rewrite rev_unit. constructor; [|exact Hnd].
    rewrite <- in_rev. intros Hin.
    apply In_nth_error in Hin. destruct Hin as [idx Hidx].
    rewrite nth_error_map in Hidx.
    destruct (nth_error codecs idx) as [e|] eqn:He; [|discriminate].
    simpl in Hidx. inversion Hidx as [Hev].
    destruct (Nat.lt_ge_cases idx (List.length (fst st))) as [Hlt|Hge].
    + apply (rtxMap_value_not_primary _ _ Hv). rewrite <- Hev.
      exact (Hprim idx e Hlt He).
    + destruct (Hpar idx e Hge He) as [j [p [_ [Hji [Hp Hr]]]]].
      unfold rtxCodecFor in Hr.
      destruct (JsMap.get (snd st) (Some (VNum (Codec.preferredPayloadType p))))
        as [w|] eqn:Hw; [|discriminate].
      assert (w = v) by (inversion Hr; subst e; simpl in Hev; exact Hev).
      subst w.
      pose proof (rtxMap_injective _ _ _ Hw Hv) as Hkeys.
      assert (Hsame : Codec.preferredPayloadType p
                      = Codec.preferredPayloadType c) by congruence.
      assert (j = i).
      { apply (proj1 (NoDup_nth_error _) Hnd0).
        - rewrite length_map. apply nth_error_Some. congruence.
        - rewrite !nth_error_map, Hp, Hc. simpl. congruence. }
      lia.
  - intros p Hp. apply in_app_iff in Hp. destruct Hp as [Hp|[<-|[]]].
    + apply Hincl. exact Hp.
    + exact (rtxMap_value_remote _ _ Hv).
Qed.

Lemma addRtxCodecs_returns (fuel i : nat) (codecs : list Codec.t) :
  payloadsInv remotePayloads codecs ->
  parentsInv (snd st) (List.length (fst st)) i codecs ->
  (forall idx e, (idx < List.length (fst st))%nat ->
                 nth_error codecs idx = Some e ->
                 In (Codec.preferredPayloadType e)
                   (map Codec.preferredPayloadType (fst st))) ->
  (List.length (fst st) <= List.length codecs)%nat ->
  (i <= List.length codecs)%nat ->
  (List.length remotePayloads + 1 - i <= fuel)%nat ->
  exists result,
    addRtxCodecs fuel (snd st) i codecs = Some result /\
    payloadsInv remotePayloads result.
Proof.
  revert i codecs. induction fuel as [|fuel IH];
    intros i codecs Hpay Hpar Hprim Hlen0 Hi Hfuel.
  - exfalso. destruct Hpay as [Hnd Hincl].
    pose proof (NoDup_incl_length Hnd Hincl) as Hlen.
    rewrite length_map in Hlen. lia.
  - cbn [addRtxCodecs].
    destruct (nth_error codecs i) as [c|] eqn:Hc; [|eauto].
    assert (Hlt : (i < List.length codecs)%nat)
      by (apply nth_error_Some; congruence).
    destruct (rtxCodecFor (snd st) c) as [rtx|] eqn:Hrtx.
    + apply IH.
      * exact (push_keeps_distinct i codecs c rtx Hpay Hpar Hprim Hc Hrtx).
      * intros idx r Hn Hidx.
        apply nth_error_snoc_cases in Hidx. destruct Hidx as [Hidx|[-> ->]].
        -- destruct (Hpar idx r Hn Hidx) as [j [p [Hj [Hji [Hp Hr]]]]].
           exists j, p. repeat split; try lia; [|exact Hr].
           apply nth_error_snoc_old. exact Hp.
        -- exists i, c. repeat split; try lia; [|exact Hrtx].
           apply nth_error_snoc_old. exact Hc.
      * intros idx e Hidx He.
        apply nth_error_snoc_cases in He. destruct He as [He|[-> _]].
        -- exact (Hprim idx e Hidx He).
        -- exfalso. lia.
      * rewrite length_app. simpl. lia.
      * rewrite length_app. simpl. lia.
      * lia.
    + apply IH; try assumption; try lia.
      intros idx r Hn Hidx.
      destruct (Hpar idx r Hn Hidx) as [j [p [Hj [Hji [Hp Hr]]]]].
      exists j, p. repeat split; try lia; assumption.
Qed.
End Termination.

Lemma addRtxCodecs_more_fuel (remoteRtxMap : RtxMap) (fuel fuel' i : nat)
    (codecs result : list Codec.t) :
  addRtxCodecs fuel remoteRtxMap i codecs = Some result ->
  (fuel <= fuel')%nat ->
  addRtxCodecs fuel' remoteRtxMap i codecs = Some result.
Proof.
  revert fuel' i codecs. induction fuel as [|fuel IH];
    intros fuel' i codecs Hr Hle; [discriminate|].
  destruct fuel' as [|fuel']; [lia|].
  cbn [addRtxCodecs] in Hr |- *.
  destruct (nth_error codecs i) as [c|]; [|exact Hr].
  destruct (rtxCodecFor remoteRtxMap c); apply IH; try assumption; lia.
Qed.

Lemma negotiation_loop_returns (localFullCapabilities : RtpCapabilities.t)
    (remoteCodecs : list Codec.t) (fuel : nat) :
  NoDup (map Codec.preferredPayloadType remoteCodecs) ->
  (List.length remoteCodecs < fuel)%nat ->
  exists codecs,
    addRtxCodecs fuel
      (snd (negotiateCodecs localFullCapabilities remoteCodecs)) 0
      (fst (negotiateCodecs localFullCapabilities remoteCodecs))
    = Some codecs /\
    payloadsInv (map Codec.preferredPayloadType remoteCodecs) codecs.
Proof.
  intros Hnd Hfuel.
  apply (addRtxCodecs_returns localFullCapabilities remoteCodecs Hnd).
  - apply primaries_payloadsInv. exact Hnd.
  - intros idx r Hn Hidx. exfalso.
    assert (idx < List.length
                    (fst (negotiateCodecs localFullCapabilities remoteCodecs)))%nat
      by (apply nth_error_Some; congruence).
    lia.
  - intros idx e _ He. apply in_map. exact (nth_error_In _ _ He).
  - lia.
  - lia.
  - rewrite length_map. lia.
Qed.

(** X17: for remote capabilities whose preferred payload types are pairwise
    distinct, the negotiation returns: the RTX loop ends within as many steps
    as the remote record has codecs, plus one. *)
Theorem negotiation_returns
    (localFullCapabilities filterWithCapabilities : RtpCapabilities.t)
    (fuel : nat) :
  NoDup
    (map Codec.preferredPayloadType
       (RtpCapabilities.codecs filterWithCapabilities)) ->
  (List.length (RtpCapabilities.codecs filterWithCapabilities) < fuel)%nat ->
  exists result,
    getLocalCapabilities fuel localFullCapabilities filterWithCapabilities
    = Some result.
Proof.
  intros Hnd Hfuel. unfold getLocalCapabilities.
  destruct (negotiation_loop_returns localFullCapabilities _ fuel Hnd Hfuel)
    as [codecs [-> _]].
  eauto.
Qed.

(** X18: for remote capabilities whose preferred payload types are pairwise
    distinct, the codecs of a negotiated record have pairwise distinct
    preferred payload types too, each of them a payload type of the remote
    record. *)
Theorem negotiated_payload_types_distinct
    (localFullCapabilities filterWithCapabilities result : RtpCapabilities.t)
    (fuel : nat) :
  NoDup
    (map Codec.preferredPayloadType
       (RtpCapabilities.codecs filterWithCapabilities)) ->
  getLocalCapabilities fuel localFullCapabilities filterWithCapabilities
  = Some result ->
  NoDup (map Codec.preferredPayloadType (RtpCapabilities.codecs result)) /\
  incl (map Codec.preferredPayloadType (RtpCapabilities.codecs result))
    (map Codec.preferredPayloadType
       (RtpCapabilities.codecs filterWithCapabilities)).
Proof.
  intros Hnd. unfold getLocalCapabilities.
  destruct (addRtxCodecs fuel _ 0 _) as [codecs|] eqn:Hadd; [|discriminate].
  intros Hr. inversion Hr; subst result. simpl.
  set (n := List.length (RtpCapabilities.codecs filterWithCapabilities)).
  assert (Hbig : (n < fuel + S n)%nat) by lia.
  destruct (negotiation_loop_returns localFullCapabilities
              (RtpCapabilities.codecs filterWithCapabilities)
              (fuel + S n)%nat Hnd Hbig)
    as [codecs' [Hadd' Hinv]].
  assert (Hle : (fuel <= fuel + S n)%nat) by lia.
  rewrite (addRtxCodecs_more_fuel _ _ _ _ _ _ Hadd Hle) in Hadd'.
  inversion Hadd'; subst codecs'. exact Hinv.
Qed.

(** X19: the negotiation returns on the capabilities extracted from any
    document. *)
Theorem negotiation_of_extracted_returns
    (parseFmtpConfig : string -> Params) (sdpObject : Sdp.t)
    (localFullCapabilities : RtpCapabilities.t) :
  exists result,
    getLocalCapabilities
      (S (List.length
            (RtpCapabilities.codecs
               (extractCapabilities parseFmtpConfig sdpObject))))
      localFullCapabilities
      (extractCapabilities parseFmtpConfig sdpObject)
    = Some result.
Proof.
  unfold getLocalCapabilities.
  edestruct (negotiation_loop_returns localFullCapabilities) as [codecs [-> _]];
    [| |eauto].
  - unfold extractCapabilities. simpl.
    rewrite codecs_payloads_keys. apply NoDup_keys_capabilitiesState.
  - lia.
Qed.

(** *** The negotiated primary codecs and the remote codecs *)

(** X20: every negotiated primary codec answers a remote codec that is not
    an RTX codec: it has that codec's payload type, kind and clock rate, and
    its name up to case; so no primary codec is named "rtx", whatever the
    local side offers. *)
Theorem primaries_mirror_remote (localFullCapabilities : RtpCapabilities.t)
    (remoteCodecs : list Codec.t) (codec : Codec.t) :
  In codec (primaries localFullCapabilities remoteCodecs) ->
  JsString.toLowerCase (Codec.name codec) <> "rtx" /\
  exists remoteCodec,
    In remoteCodec remoteCodecs /\
    Codec.preferredPayloadType codec
    = Codec.preferredPayloadType remoteCodec /\
    Codec.kind codec = Codec.kind remoteCodec /\
    Codec.clockRate codec = Codec.clockRate remoteCodec /\
    JsString.toLowerCase (Codec.name codec)
    = JsString.toLowerCase (Codec.name remoteCodec).
Proof.
  rewrite primaries_flat_map. intros Hin. apply in_flat_map in Hin.
  destruct Hin as [rc [Hrc Hin]]. unfold primaryOf in Hin.
  destruct (isRtx rc) eqn:Hrtx; [contradiction|].
  destruct (findLocalCodec localFullCapabilities rc) as [lc|] eqn:Hf;
    [|contradiction].
  destruct Hin as [<-|[]].
  destruct (findLocalCodec_Some _ _ _ Hf) as [_ [Hn [Hk Hc]]].
  simpl. split.
  - rewrite Hn. unfold isRtx, strictEq in Hrtx.
    destruct (eq_dec (JsString.toLowerCase (Codec.name rc)) "rtx");
      [discriminate | assumption].
  - exists rc. auto.
Qed.

Lemma primaries_mirror_remote_witness :
  JsString.toLowerCase
    (Codec.name (negotiateCodec Scenarios.h264Local Scenarios.h264Remote))
  <> "rtx" /\
  exists remoteCodec,
    In remoteCodec (RtpCapabilities.codecs Scenarios.remoteSide) /\
    Codec.preferredPayloadType
      (negotiateCodec Scenarios.h264Local Scenarios.h264Remote)
    = Codec.preferredPayloadType remoteCodec /\
    Codec.kind (negotiateCodec Scenarios.h264Local Scenarios.h264Remote)
    = Codec.kind remoteCodec /\
    Codec.clockRate (negotiateCodec Scenarios.h264Local Scenarios.h264Remote)
    = Codec.clockRate remoteCodec /\
    JsString.toLowerCase
      (Codec.name (negotiateCodec Scenarios.h264Local Scenarios.h264Remote))
    = JsString.toLowerCase (Codec.name remoteCodec).
Proof.
  apply (primaries_mirror_remote Scenarios.localSide
           (RtpCapabilities.codecs Scenarios.remoteSide)).
  vm_compute. right. left. reflexivity.
Defined.

Lemma ice_candidates_are_component_one_witness :
  extractIceCandidates Scenarios.withCandidates
  = Return
      (map candidateOf
         (filter (fun c => Candidate.component c =? 1)
            [Scenarios.hostCandidate 1 "UDP"; Scenarios.hostCandidate 2 "UDP";
             Scenarios.hostCandidate 1 "tcp"])).
Proof.
  apply (ice_candidates_are_component_one Scenarios.withCandidates
           (Scenarios.transportSection
              (Some [Scenarios.hostCandidate 1 "UDP";
                     Scenarios.hostCandidate 2 "UDP";
                     Scenarios.hostCandidate 1 "tcp"])
              (Some Documents.fp)));
    reflexivity.
Defined.

Lemma ice_candidates_missing_list_throws_witness :
  extractIceCandidates Scenarios.withoutCandidates = Throw TypeError /\
  exists parameters,
    extractIceParameters Scenarios.withoutCandidates = Return parameters.
Proof.
  apply (ice_candidates_missing_list_throws Scenarios.withoutCandidates
           (Scenarios.transportSection None (Some Documents.fp)));
    reflexivity.
Defined.

Lemma ice_candidates_lower_case_witness :
  exists m cs,
    getFirstActiveMediaSection Scenarios.withCandidates = Some m /\
    Media.candidates m = Some cs /\
    (2 <= List.length cs)%nat /\
    forall candidate,
      In candidate
        [candidateOf (Scenarios.hostCandidate 1 "UDP");
         candidateOf (Scenarios.hostCandidate 1 "tcp")] ->
      JsString.toLowerCase (IceCandidate.protocol candidate)
      = IceCandidate.protocol candidate /\
      exists c,
        In c cs /\ Candidate.component c = 1 /\ candidate = candidateOf c.
Proof.
  apply (ice_candidates_lower_case Scenarios.withCandidates
           [candidateOf (Scenarios.hostCandidate 1 "UDP");
            candidateOf (Scenarios.hostCandidate 1 "tcp")]).
  reflexivity.
Defined.

Lemma ice_parameters_fragment_not_empty_witness :
  (exists u, Some "frag" = Some u /\ u <> EmptyString) /\
  (exists m,
      In m (Sdp.media Scenarios.withCandidates) /\ Media.port m <> 0 /\
      Some "frag" = Media.iceUfrag m /\ Some "pwd" = Media.icePwd m) /\
  (false = true <-> Sdp.icelite Scenarios.withCandidates = Some "ice-lite").
Proof.
  apply (ice_parameters_fragment_not_empty Scenarios.withCandidates
           {| IceParameters.icelite := false;
              IceParameters.password := Some "pwd";
              IceParameters.usernameFragment := Some "frag" |}).
  reflexivity.
Defined.

Lemma dtls_extraction_throws_iff_witness :
  extractDtlsParameters Scenarios.withoutFingerprint = Throw TypeError.
Proof.
  apply (proj2 (dtls_extraction_throws_iff Scenarios.withoutFingerprint)).
  right. exists (Scenarios.transportSection (Some []) None).
  repeat split; reflexivity.
Defined.

Lemma dtls_record_shape_witness :
  exists m f,
    getFirstActiveMediaSection Scenarios.withCandidates = Some m /\
    fingerprintOf Scenarios.withCandidates m = Some f /\
    (forall f', Media.fingerprint m = Some f' -> f = f') /\
    [ {| DtlsFingerprint.algorithm := "sha-256";
         DtlsFingerprint.value := "AB:CD" |} ]
    = [ {| DtlsFingerprint.algorithm := Fingerprint.type f;
           DtlsFingerprint.value := Fingerprint.hash f |} ] /\
    (Some "auto" = None \/ Some "auto" = Some "client" \/
     Some "auto" = Some "server" \/ Some "auto" = Some "auto").
Proof.
  apply (dtls_record_shape Scenarios.withCandidates
           {| DtlsParameters.role := Some "auto";
              DtlsParameters.fingerprints :=
                [ {| DtlsFingerprint.algorithm := "sha-256";
                     DtlsFingerprint.value := "AB:CD" |} ] |}).
  reflexivity.
Defined.

Lemma unpaired_ssrc_has_entry_witness :
  exists i,
    JsMap.get (extractTrackInfos Documents.decimalNumber Documents.paired) 111
    = Some i /\
    TrackInfo.ssrc i = 111.
Proof.
  apply (unpaired_ssrc_has_entry Documents.decimalNumber Documents.paired 111).
  exists [],
    (Documents.withSources (Some [Documents.fid "111 222"])
       [Documents.line 111 "msid" "stream1 track1";
        Documents.line 222 "msid" "stream1 track1"]),
    [].
  split; [reflexivity|]. split; [simpl; auto|].
  intros m' Hm' Hin. simpl in Hm'. destruct Hm' as [<-|[]].
  vm_compute in Hin. destruct Hin as [Hin|[]]. discriminate.
Defined.

Lemma parameters_agreed_on_both_sides_witness :
  NoDup
    (JsMap.keys
       (Codec.parameters
          (negotiateCodec Scenarios.h264Local Scenarios.h264Remote))) /\
  (JsMap.get
     (Codec.parameters
        (negotiateCodec Scenarios.h264Local Scenarios.h264Remote))
     "packetization-mode"
   = Some (VNum 1)
   <-> JsMap.get (Codec.parameters Scenarios.h264Remote) "packetization-mode"
       = Some (VNum 1) /\
       JsMap.get (Codec.parameters Scenarios.h264Local) "packetization-mode"
       = Some (VNum 1)).
Proof.
  apply (parameters_agreed_on_both_sides Scenarios.h264Local
           Scenarios.h264Remote "packetization-mode" (VNum 1)).
  - simpl. repeat (constructor; [simpl; intuition discriminate|]). constructor.
  - simpl. repeat (constructor; [simpl; intuition discriminate|]). constructor.
Defined.

Lemma negotiated_header_extensions_witness :
  [Scenarios.extension "video" "urn:ietf:params:rtp-hdrext:toffset" 2
     (Some false)]
  = map negotiatedExtension
      (filter (supportsExtension Scenarios.localSide)
         (RtpCapabilities.headerExtensions Scenarios.remoteSide)).
Proof.
  apply (negotiated_header_extensions Scenarios.localSide Scenarios.remoteSide
           {| RtpCapabilities.codecs :=
                [negotiateCodec Samples.vp8Local Samples.vp8Remote;
                 negotiateCodec Scenarios.h264Local Scenarios.h264Remote;
                 {| Codec.clockRate := 90000; Codec.kind := "video";
                    Codec.mimeType := "video/rtx"; Codec.name := "rtx";
                    Codec.numChannels := None;
                    Codec.parameters := [("apt", VNum 96)];
                    Codec.preferredPayloadType := 97;
                    Codec.rtcpFeedback := [] |}];
              RtpCapabilities.fecMechanisms := ["RED"];
              RtpCapabilities.headerExtensions :=
                [Scenarios.extension "video"
                   "urn:ietf:params:rtp-hdrext:toffset" 2 (Some false)] |}
           4).
  reflexivity.
Defined.

Lemma negotiated_fec_mechanisms_witness :
  ["RED"]
  = filter
      (fun fec =>
         (negb (strictEq fec EmptyString)
          && existsb (fun l => strictEq l fec)
               (RtpCapabilities.fecMechanisms Scenarios.localSide))%bool)
      (RtpCapabilities.fecMechanisms Scenarios.remoteSide) /\
  ~ In EmptyString ["RED"].
Proof.
  apply (negotiated_fec_mechanisms Scenarios.localSide Scenarios.remoteSide
           {| RtpCapabilities.codecs :=
                [negotiateCodec Samples.vp8Local Samples.vp8Remote;
                 negotiateCodec Scenarios.h264Local Scenarios.h264Remote;
                 {| Codec.clockRate := 90000; Codec.kind := "video";
                    Codec.mimeType := "video/rtx"; Codec.name := "rtx";
                    Codec.numChannels := None;
                    Codec.parameters := [("apt", VNum 96)];
                    Codec.preferredPayloadType := 97;
                    Codec.rtcpFeedback := [] |}];
              RtpCapabilities.fecMechanisms := ["RED"];
              RtpCapabilities.headerExtensions :=
                [Scenarios.extension "video"
                   "urn:ietf:params:rtp-hdrext:toffset" 2 (Some false)] |}
           4).
  reflexivity.
Defined.

Lemma negotiation_of_extracted_capabilities_witness :
  exists result,
    getLocalCapabilities 3 Scenarios.localAudio Scenarios.extracted
    = Some result /\
    RtpCapabilities.fecMechanisms result = [] /\
    forall e,
      In e (RtpCapabilities.headerExtensions result) ->
      HeaderExtension.preferredEncrypt e = Some false.
Proof.
  eexists. split; [reflexivity|].
  apply (negotiation_of_extracted_capabilities Documents.sampleParse
           (Documents.document [Documents.audioSection; Documents.videoSection])
           Scenarios.localAudio _ 3).
  reflexivity.
Defined.

Lemma rtx_entries_follow_their_parent_witness :
  exists result r,
    getLocalCapabilities 4 Scenarios.localSide Scenarios.remoteSide
    = Some result /\
    nth_error (RtpCapabilities.codecs result) 2 = Some r /\
    exists j p,
      (j < 2)%nat /\
      nth_error (RtpCapabilities.codecs result) j = Some p /\
      Codec.name r = "rtx" /\
      Codec.kind r = Codec.kind p /\
      Codec.clockRate r = Codec.clockRate p /\
      Codec.parameters r = [("apt", VNum (Codec.preferredPayloadType p))] /\
      JsMap.get
        (snd (negotiateCodecs Scenarios.localSide
                (RtpCapabilities.codecs Scenarios.remoteSide)))
        (Some (VNum (Codec.preferredPayloadType p)))
      = Some (Codec.preferredPayloadType r).
Proof.
  eexists. eexists. split; [reflexivity|]. split; [reflexivity|].
  apply (rtx_entries_follow_their_parent Scenarios.localSide
           Scenarios.remoteSide _ 4 2 _ eq_refl).
  - vm_compute. lia.
  - reflexivity.
Defined.

Lemma negotiation_returns_witness :
  exists result,
    getLocalCapabilities 4 Scenarios.localSide Scenarios.remoteSide
    = Some result.
Proof.
  apply (negotiation_returns Scenarios.localSide Scenarios.remoteSide 4).
  - simpl. repeat (constructor; [simpl; intuition discriminate|]). constructor.
  - simpl. lia.
Defined.

Lemma negotiated_payload_types_distinct_witness :
  exists result,
    getLocalCapabilities 4 Scenarios.localSide Scenarios.remoteSide
    = Some result /\
    NoDup (map Codec.preferredPayloadType (RtpCapabilities.codecs result)) /\
    incl (map Codec.preferredPayloadType (RtpCapabilities.codecs result))
      (map Codec.preferredPayloadType
         (RtpCapabilities.codecs Scenarios.remoteSide)).
Proof.
  eexists. split; [reflexivity|].
  apply (negotiated_payload_types_distinct Scenarios.localSide
           Scenarios.remoteSide _ 4).
  - simpl. repeat (constructor; [simpl; intuition discriminate|]). constructor.
  - reflexivity.
Defined.

(** *** The attributes of an entry *)

Section TrackAttributes.
Variable Number : string -> jsnum.

Lemma ssrcStep_applies (kind : string) (s : Z) (lines : list Ssrc.t)
    (st : TrackState) (o : Ssrc.t) :
  JsSet.has (rtxSet st) (Some (JNum s)) = false ->
  appliedInOrder s lines (infos st) ->
  appliedInOrder s (lines ++ [o]) (infos (ssrcStep kind st o)).
Proof.
  intros Hfree Hinv. unfold appliedInOrder in *.
  rewrite filter_app. cbn [filter].
  destruct (Z.eqb_spec (Ssrc.id o) s) as [Hid|Hne].
  - unfold ssrcStep. rewrite Hid, Hfree.
    destruct (filter (fun o0 => Ssrc.id o0 =? s) lines) as [|o1 mine] eqn:Hmine.
    + rewrite Hinv. cbn [infos app]. rewrite get_set_same.
      eexists. repeat split; [..|reflexivity]; reflexivity.
    + destruct Hinv as [fresh [H1 [H2 [H3 [H4 Hget]]]]].
      rewrite Hget. cbn [infos]. rewrite get_set_same.
      exists fresh. repeat split; try assumption.
      f_equal. symmetry.
      exact (fold_left_snoc applyAttribute (o1 :: mine) o fresh).
  - rewrite app_nil_r.
    assert (Hsame : JsMap.get (infos (ssrcStep kind st o)) s
                    = JsMap.get (infos st) s).
    { unfold ssrcStep.
      destruct (JsSet.has (rtxSet st) (Some (JNum (Ssrc.id o))));
        [reflexivity|].
      destruct (JsMap.get (infos st) (Ssrc.id o)); cbn [infos];
        rewrite ?get_set_other by congruence; reflexivity. }
    rewrite Hsame. exact Hinv.
Qed.

Lemma ssrcs_apply (kind : string) (s : Z) (l lines : list Ssrc.t)
    (st : TrackState) :
  JsSet.has (rtxSet st) (Some (JNum s)) = false ->
  appliedInOrder s lines (infos st) ->
  appliedInOrder s (lines ++ l) (infos (fold_left (ssrcStep kind) l st)).
Proof.
  revert lines st. induction l as [|o l IH]; intros lines st Hfree Hinv.
  - rewrite app_nil_r. exact Hinv.
  - simpl. replace (lines ++ o :: l) with ((lines ++ [o]) ++ l)
      by (rewrite <- app_assoc; reflexivity).
    apply IH.
    + replace (rtxSet (ssrcStep kind st o)) with (rtxSet st); [exact Hfree|].
      unfold ssrcStep.
      destruct (JsSet.has (rtxSet st) (Some (JNum (Ssrc.id o))));
        [reflexivity|].
      destruct (JsMap.get (infos st) (Ssrc.id o)); reflexivity.
    + apply ssrcStep_applies; assumption.
Qed.

Lemma declaredLines_snoc (media : list Media.t) (m : Media.t) :
  declaredLines (media ++ [m])
  = declaredLines media
    ++ (if isAudioOrVideo (Media.type m) then orEmpty (Media.ssrcs m) else []).
Proof.
  unfold declaredLines. rewrite flat_map_app. simpl.
  rewrite app_nil_r. reflexivity.
Qed.

Lemma trackState_applies (media : list Media.t) (s : Z) :
  (forall m, In m media -> ~ In (Some (JNum s)) (rtxSsrcsOf Number m)) ->
  appliedInOrder s (declaredLines media) (infos (trackState Number media)).
Proof.
  induction media as [|m media IH] using rev_ind; intros Hfree.
  - reflexivity.
  - rewrite trackState_snoc, declaredLines_snoc.
    assert (IH' : appliedInOrder s (declaredLines media)
                    (infos (trackState Number media))).
    { apply IH. intros m' Hm'. apply Hfree. apply in_or_app. left. exact Hm'. }
    unfold trackStep.
    destruct (isAudioOrVideo (Media.type m)) eqn:Hav; simpl.
    + apply ssrcs_apply.
      * destruct (trackState_inv Number media) as [Hpair _].
        destruct (ssrcGroups_inv Number (orEmpty (Media.ssrcGroups m)) _ _ Hpair)
          as [[Hset _] _].
        destruct (JsSet.has _ (Some (JNum s))) eqn:Hh; [|reflexivity].
        exfalso. apply JsSet_has_In in Hh. apply Hset in Hh.
        apply in_app_iff in Hh. destruct Hh as [Hh|Hh].
        -- apply in_flat_map in Hh. destruct Hh as [m' [Hm' Hin']].
           apply (Hfree m'); [apply in_or_app; left; exact Hm' | exact Hin'].
        -- apply (Hfree m); [apply in_or_app; right; left; reflexivity|].
           unfold rtxSsrcsOf. rewrite Hav. exact Hh.
      * rewrite infos_ssrcGroups. exact IH'.
    + rewrite app_nil_r. exact IH'.
Qed.

(** X21: for an SSRC that no FID group of the document names second, the
    track infos have no entry when no per-source line of an audio or video
    section carries it, and otherwise the entry is a new one to which all
    its lines were applied in document order, across sections: a later
    [cname], [msid], [mslabel] or [label] line overrides what an earlier one
    had set. *)
Theorem entry_applies_lines_in_order (sdpObject : Sdp.t) (s : Z) :
  (forall m,
      In m (Sdp.media sdpObject) ->
      ~ In (Some (JNum s)) (rtxSsrcsOf Number m)) ->
  appliedInOrder s (declaredLines (Sdp.media sdpObject))
    (extractTrackInfos Number sdpObject).
Proof.
  intros Hfree. unfold extractTrackInfos. apply trackState_applies. exact Hfree.
Qed.
End TrackAttributes.

Lemma entry_applies_lines_in_order_witness :
  appliedInOrder 111 (declaredLines (Sdp.media Scenarios.relabelled))
    (extractTrackInfos Documents.decimalNumber Scenarios.relabelled).
Proof.
  apply (entry_applies_lines_in_order Documents.decimalNumber
           Scenarios.relabelled 111).
  intros m Hm Hin. simpl in Hm. destruct Hm as [<-|[<-|[]]].
  - vm_compute in Hin. destruct Hin as [Hin|[]]. discriminate.
  - vm_compute in Hin. exact Hin.
Defined.

(** An [msid] line with one token after a [label] line: the stream is the
    token, and the track id set by the label is gone. *)
Example extractTrackInfos_relabelled :
  extractTrackInfos Documents.decimalNumber Scenarios.relabelled
  = [(111,
      {| TrackInfo.kind := "video";
         TrackInfo.rtxSsrc := Some (JNum 222);
         TrackInfo.ssrc := 111;
         TrackInfo.cname := Some "c";
         TrackInfo.streamId := Some "stream2";
         TrackInfo.trackId := None |})].
Proof. reflexivity. Qed.
